(** * Launchmat: application discovery and the persistent folder store

    A shallow embedding of [src/utils/applicationScanner.ts] (which holds both
    the [ApplicationScanner] and the [StorageManager] classes) and of the
    records of [src/types.ts], followed by the properties of the store and of
    the scanner.

    Conventions of the embedding.
    - A JavaScript string is a [string]; where the bytes matter
      ([generateAppId]) the string holds the UTF-8 bytes that
      [Buffer.from] produces.
    - A [Record<string, string>] is a [gmap string string] of the
      properties the object owns; an assignment [object[key] = value] is
      [assign], which records every key but the one a plain object does not
      take ([__proto__]).  An array is a [list]; an optional field is an
      [option].
    - [LocalStorage] keeps JSON texts. The embedding identifies a JSON text
      with the value [JSON.parse] yields for it: [JSON.parse] after
      [JSON.stringify] is the identity on the records stored here (strings,
      integers, arrays and string-keyed objects), so every slot holds the
      parsed value, of the type the TypeScript signatures give it.
    - [async] methods run to completion one after the other; an exception is
      the [Throw] result of the store monad [M]. [console.error] is not
      modelled.
    - A backend call that rejects is decided by [Faults]. A stored text that
      [JSON.parse] rejects reaches the same handlers as a rejected
      [getItem] and is not modelled apart.
    - [new Date().toISOString()] and [Date.now()] are read from a [Clock]
      handed to each call. *)

From Stdlib Require Import ZArith Ascii String Lia ZifyNat.
From stdpp Require Import gmap strings list pretty.

Local Open Scope string_scope.
Local Open Scope Z_scope.

(** ** Records of [types.ts] *)

Module App.
Record t := mk {
  id : string;
  name : string;
  bundleIdentifier : string;
  path : string;
  version : option string;
  icon : option string;
  category : option string;
  lastModified : string;
  size : option Z;
}.
End App.

Module Folder.
Record t := mk {
  id : string;
  name : string;
  color : string;
  icon : string;
  applicationIds : list string;
  position : Z;
  createdAt : string;
  updatedAt : option string;
}.

Definition set_applicationIds (l : list string) (f : t) : t :=
  mk (id f) (name f) (color f) (icon f) l (position f) (createdAt f) (updatedAt f).

Definition set_position (p : Z) (f : t) : t :=
  mk (id f) (name f) (color f) (icon f) (applicationIds f) p (createdAt f) (updatedAt f).
End Folder.

Module Settings.
Record t := mk {
  folders : list Folder.t;
  applicationMappings : gmap string string;
  lastScanTime : string;
  version : string;
}.
End Settings.

#[global] Instance App_eq_dec : EqDecision App.t.
Proof. solve_decision. Defined.
#[global] Instance Folder_eq_dec : EqDecision Folder.t.
Proof. solve_decision. Defined.
#[global] Instance Settings_eq_dec : EqDecision Settings.t.
Proof. solve_decision. Defined.

(** ** The key-value backend and the store monad *)

Inductive Key := STORAGE_KEY_FOLDERS | STORAGE_KEY_SETTINGS
               | STORAGE_KEY_APP_MAPPINGS | STORAGE_KEY_LAST_SCAN.

#[global] Instance Key_eq_dec : EqDecision Key.
Proof. solve_decision. Defined.

(** The four persisted records; [None] is a key with no item. *)
Record LocalStorage := mkStorage {
  launchmat_folders : option (list Folder.t);
  launchmat_settings : option Settings.t;
  launchmat_app_mappings : option (gmap string string);
  launchmat_last_scan : option string;
}.

#[global] Instance LocalStorage_eq_dec : EqDecision LocalStorage.
Proof. solve_decision. Defined.

Definition empty_storage : LocalStorage := mkStorage None None None None.

(** Which backend calls reject: [LocalStorage.getItem], [setItem] and
    [removeItem] are promises that may fail. *)
Record Faults := mkFaults {
  getItem_fails : Key → bool;
  setItem_fails : Key → bool;
  removeItem_fails : Key → bool;
}.

Definition no_faults : Faults :=
  mkFaults (λ _, false) (λ _, false) (λ _, false).

Record Clock := mkClock {
  toISOString : string;   (* new Date().toISOString() *)
  Date_now : N;           (* Date.now() *)
}.

Inductive Error :=
| StorageError (k : Key)
| SyntaxError
| TypeError.

Inductive Result (A : Type) :=
| Ok (a : A)
| Throw (e : Error).
Arguments Ok {A} a.
Arguments Throw {A} e.

Definition M (A : Type) : Type := LocalStorage → Result A * LocalStorage.

Definition ret {A} (a : A) : M A := λ s, (Ok a, s).
Definition throw {A} (e : Error) : M A := λ s, (Throw e, s).
Definition bind {A B} (m : M A) (k : A → M B) : M B :=
  λ s, match m s with
       | (Ok a, s') => k a s'
       | (Throw e, s') => (Throw e, s')
       end.
Definition try_catch {A} (m : M A) (handler : Error → M A) : M A :=
  λ s, match m s with
       | (Ok a, s') => (Ok a, s')
       | (Throw e, s') => handler e s'
       end.

#[global] Instance M_ret : MRet M := @ret.
#[global] Instance M_bind : MBind M := λ A B k m, bind m k.

Definition getItem {A} (ft : Faults) (k : Key) (slot : LocalStorage → option A)
  : M (option A) :=
  λ s, if getItem_fails ft k then (Throw (StorageError k), s) else (Ok (slot s), s).

Definition setItem (ft : Faults) (k : Key) (write : LocalStorage → LocalStorage)
  : M unit :=
  λ s, if setItem_fails ft k then (Throw (StorageError k), s) else (Ok tt, write s).

Definition removeItem (ft : Faults) (k : Key) (erase : LocalStorage → LocalStorage)
  : M unit :=
  λ s, if removeItem_fails ft k then (Throw (StorageError k), s) else (Ok tt, erase s).

Definition write_folders (v : option (list Folder.t)) (s : LocalStorage) :=
  mkStorage v (launchmat_settings s) (launchmat_app_mappings s) (launchmat_last_scan s).
Definition write_settings (v : option Settings.t) (s : LocalStorage) :=
  mkStorage (launchmat_folders s) v (launchmat_app_mappings s) (launchmat_last_scan s).
Definition write_app_mappings (v : option (gmap string string)) (s : LocalStorage) :=
  mkStorage (launchmat_folders s) (launchmat_settings s) v (launchmat_last_scan s).
Definition write_last_scan (v : option string) (s : LocalStorage) :=
  mkStorage (launchmat_folders s) (launchmat_settings s) (launchmat_app_mappings s) v.

(** ** [StorageManager] *)

Definition has_id (i : string) (f : Folder.t) : Prop := Folder.id f = i.
#[global] Instance has_id_dec i f : Decision (has_id i f).
Proof. unfold has_id. apply _. Defined.

(** [l.includes(a) ? l : l.push(a)] *)
Definition push_unique (l : list string) (a : string) : list string :=
  if decide (a ∈ l) then l else l ++ [a].

(** [object[key] = value] for a string [value] on a plain object, as
    [JSON.parse], [{}] or a spread gives it.  A key the object owns is
    overwritten and a new key is added, except [__proto__]: unless the object
    owns that key (as after [JSON.parse] of a text that has it), the
    assignment reaches the setter of [Object.prototype], which ignores a
    string, and the object is left as it is. *)
Definition assignable (key : string) (object : gmap string string) : Prop :=
  key ≠ "__proto__" ∨ is_Some (object !! key).
#[global] Instance assignable_dec key object : Decision (assignable key object).
Proof. unfold assignable. apply _. Defined.

Definition assign (key value : string) (object : gmap string string)
  : gmap string string :=
  if decide (assignable key object) then <[key := value]> object else object.

Definition defaultColors : list string :=
  [ "#FF6B6B"; "#4ECDC4"; "#45B7D1"; "#96CEB4";
    "#FECA57"; "#FF9FF3"; "#54A0FF"; "#5F27CD" ].

Definition createDefaultFolders (clock : Clock) : list Folder.t :=
  let color i := default "" (defaultColors !! i) in
  let now := toISOString clock in
  [ Folder.mk "folder_productivity" "Productivity" (color 0%nat) "briefcase" [] 0 now None;
    Folder.mk "folder_development" "Development" (color 1%nat) "code" [] 1 now None;
    Folder.mk "folder_graphics" "Graphics & Design" (color 2%nat) "paintbrush" [] 2 now None;
    Folder.mk "folder_entertainment" "Entertainment" (color 3%nat) "play" [] 3 now None;
    Folder.mk "folder_utilities" "Utilities" (color 4%nat) "wrench" [] 4 now None;
    Folder.mk "folder_games" "Games" (color 5%nat) "gamepad" [] 5 now None;
    Folder.mk "folder_communication" "Communication" (color 6%nat) "message-circle" [] 6 now None;
    Folder.mk "folder_other" "Other" (color 7%nat) "grid" [] 7 now None ].

Definition createDefaultSettings (clock : Clock) : Settings.t :=
  Settings.mk [] ∅ (toISOString clock) "1.0.0".

Section StorageManager.
Context (ft : Faults) (clock : Clock).

Definition loadFolders : M (list Folder.t) :=
  try_catch
    (foldersData ← getItem ft STORAGE_KEY_FOLDERS launchmat_folders;
     match foldersData with
     | None => mret (createDefaultFolders clock)
     | Some folders => mret folders
     end)
    (λ _, mret (createDefaultFolders clock)).

Definition saveFolders (folders : list Folder.t) : M unit :=
  try_catch
    (setItem ft STORAGE_KEY_FOLDERS (write_folders (Some folders)))
    (λ error, throw error).

Definition loadSettings : M Settings.t :=
  try_catch
    (settingsData ← getItem ft STORAGE_KEY_SETTINGS launchmat_settings;
     match settingsData with
     | None => mret (createDefaultSettings clock)
     | Some settings => mret settings
     end)
    (λ _, mret (createDefaultSettings clock)).

Definition saveSettings (settings : Settings.t) : M unit :=
  try_catch
    (setItem ft STORAGE_KEY_SETTINGS (write_settings (Some settings)))
    (λ error, throw error).

Definition loadApplicationMappings : M (gmap string string) :=
  try_catch
    (mappingsData ← getItem ft STORAGE_KEY_APP_MAPPINGS launchmat_app_mappings;
     mret (default ∅ mappingsData))
    (λ _, mret ∅).

Definition saveApplicationMappings (mappings : gmap string string) : M unit :=
  try_catch
    (setItem ft STORAGE_KEY_APP_MAPPINGS (write_app_mappings (Some mappings)))
    (λ error, throw error).

(** [await LocalStorage.getItem(...) || null]: the empty string is falsy. *)
Definition getLastScanTime : M (option string) :=
  try_catch
    (time ← getItem ft STORAGE_KEY_LAST_SCAN launchmat_last_scan;
     mret (match time with
           | Some t => if decide (t = "") then None else Some t
           | None => None
           end))
    (λ _, mret None).

(** The handler logs and returns: nothing is thrown again. *)
Definition setLastScanTime (time : string) : M unit :=
  try_catch
    (setItem ft STORAGE_KEY_LAST_SCAN (write_last_scan (Some time)))
    (λ _, mret tt).

(** [String.prototype.toLowerCase], on the UTF-8 bytes of the text.  The
    code only compares a lowered text with ASCII words
    ([categoryMapping[category]]) or searches ASCII words in it
    ([bundleId.includes(keyword)]), so what matters is which characters are
    lowered to ASCII ones: the letters [A-Z], the Kelvin sign U+212A (bytes
    E2 84 AA, lowered to [k]) and the dotted capital I U+0130 (bytes C4 B0,
    lowered to [i] followed by U+0307, bytes CC 87).  Every other character
    outside ASCII is lowered to a character outside ASCII, whose bytes no
    ASCII word contains; those are left as they are here. *)
Definition lower_ascii (c : ascii) : ascii :=
  let n := nat_of_ascii c in
  if (65 <=? n)%nat && (n <=? 90)%nat then ascii_of_nat (n + 32) else c.

Definition is_byte (n : nat) (c : ascii) : bool := (nat_of_ascii c =? n)%nat.

Fixpoint toLowerCase (s : string) : string :=
  match s with
  | EmptyString => EmptyString
  | String c s' =>
      match s' with
      | String c1 s'' =>
          if is_byte 196 c && is_byte 176 c1
          then String "i"%char
                 (String (ascii_of_nat 204) (String (ascii_of_nat 135)
                    (toLowerCase s'')))
          else match s'' with
               | String c2 rest =>
                   if is_byte 226 c && is_byte 132 c1 && is_byte 170 c2
                   then String "k"%char (toLowerCase rest)
                   else String (lower_ascii c) (toLowerCase s')
               | EmptyString => String (lower_ascii c) (toLowerCase s')
               end
      | EmptyString => String (lower_ascii c) EmptyString
      end
  end.

(** [a || b] on strings that may be undefined: undefined and the empty
    string are falsy. *)
Definition truthy (o : option string) : option string :=
  match o with
  | Some s => if decide (s = "") then None else Some s
  | None => None
  end.

Definition categoryMapping : list (string * string) :=
  [ ("productivity", "folder_productivity");
    ("development", "folder_development");
    ("graphics", "folder_graphics");
    ("entertainment", "folder_entertainment");
    ("utilities", "folder_utilities");
    ("games", "folder_games");
    ("communication", "folder_communication");
    ("finance", "folder_utilities");
    ("social", "folder_communication");
    ("other", "folder_other") ].

Definition lookup_assoc (k : string) (l : list (string * string)) : option string :=
  snd <$> List.find (λ kv, bool_decide (kv.1 = k)) l.

Definition getCategoryForApp (app : App.t) (folders : list Folder.t) : string :=
  let category := default "other" (truthy (toLowerCase <$> App.category app)) in
  let targetFolderId := default "folder_other" (lookup_assoc category categoryMapping) in
  match list_find (has_id targetFolderId) folders with
  | Some _ => targetFolderId
  | None => "folder_other"
  end.

(** One turn of the loop of [autoCategorizeNewApps] over the folder array
    and [updatedMappings]. *)
Definition categorize_step (st : list Folder.t * gmap string string) (app : App.t)
  : list Folder.t * gmap string string :=
  let '(folders, updatedMappings) := st in
  let targetFolderId := getCategoryForApp app folders in
  match list_find (has_id targetFolderId) folders with
  | Some (j, targetFolder) =>
      if decide (App.id app ∈ Folder.applicationIds targetFolder) then st
      else (<[j := Folder.set_applicationIds
                     (Folder.applicationIds targetFolder ++ [App.id app]) targetFolder]> folders,
            assign (App.id app) targetFolderId updatedMappings)
  | None => st
  end.

Definition uncategorizedApps (mappings : gmap string string) (applications : list App.t)
  : list App.t :=
  filter (λ app, mappings !! App.id app = None) applications.

(** [folders = [...existingFolders]] copies the array, not the folder
    objects: the loop mutates the objects that [existingFolders] holds too, so
    the array the handler returns has the content of [folders].  Nothing
    before the two saves can throw ([loadApplicationMappings] catches every
    failure itself), so the handler only ever runs after the loop. *)
Definition autoCategorizeNewApps (applications : list App.t)
    (existingFolders : list Folder.t) : M (list Folder.t) :=
  mappings ← loadApplicationMappings;
  let '(folders, updatedMappings) :=
    foldl categorize_step (existingFolders, mappings)
          (uncategorizedApps mappings applications) in
  try_catch
    (saveApplicationMappings updatedMappings;;
     saveFolders folders;;
     mret folders)
    (λ _, mret folders).

(** [folders.find(...)] hands out the folder object itself; an assignment to
    one of its fields is an update of the array at the index found. *)
Definition remove_from_folder (appId : string) (fromFolderId : option string)
    (folders : list Folder.t) : list Folder.t :=
  match truthy fromFolderId with
  | Some fid =>
      match list_find (has_id fid) folders with
      | Some (i, fromFolder) =>
          <[i := Folder.set_applicationIds
                   (filter (λ a, a ≠ appId) (Folder.applicationIds fromFolder)) fromFolder]>
            folders
      | None => folders
      end
  | None => folders
  end.

Definition add_to_folder (appId : string) (toFolderId : string)
    (folders : list Folder.t) : list Folder.t :=
  match list_find (has_id toFolderId) folders with
  | Some (j, toFolder) =>
      <[j := Folder.set_applicationIds
               (push_unique (Folder.applicationIds toFolder) appId) toFolder]> folders
  | None => folders
  end.

Definition moveAppToFolder (appId : string) (fromFolderId : option string)
    (toFolderId : string) : M unit :=
  try_catch
    (folders ← loadFolders;
     mappings ← loadApplicationMappings;
     let folders := remove_from_folder appId fromFolderId folders in
     let folders := add_to_folder appId toFolderId folders in
     let mappings := assign appId toFolderId mappings in
     saveFolders folders;;
     saveApplicationMappings mappings)
    (λ error, throw error).

Definition new_folder_id : string := "folder_" +:+ pretty (Date_now clock).

Definition createFolder (name color icon : string) : M Folder.t :=
  try_catch
    (folders ← loadFolders;
     let newFolder :=
       Folder.mk new_folder_id name color icon []
                 (Z.of_nat (length folders)) (toISOString clock) None in
     saveFolders (folders ++ [newFolder]);;
     mret newFolder)
    (λ error, throw error).

(** The loop of [deleteFolder] over [folder.applicationIds], on the
    application ids of the catch-all folder and on the mapping table. *)
Definition reassign_to_other (appIds : list string)
    (st : list string * gmap string string) : list string * gmap string string :=
  foldl (λ st appId, (push_unique st.1 appId, assign appId "folder_other" st.2)) st appIds.

Definition deleteFolder (folderId : string) : M unit :=
  try_catch
    (folders ← loadFolders;
     mappings ← loadApplicationMappings;
     match list_find (has_id folderId) folders with
     | None => mret tt
     | Some (folderIndex, folder) =>
         let '(folders, mappings) :=
           match list_find (has_id "folder_other") folders with
           | Some (o, otherFolder) =>
               let '(ids, mappings) :=
                 reassign_to_other (Folder.applicationIds folder)
                                   (Folder.applicationIds otherFolder, mappings) in
               (<[o := Folder.set_applicationIds ids otherFolder]> folders, mappings)
           | None => (folders, mappings)
           end in
         let folders := delete folderIndex folders in
         saveFolders folders;;
         saveApplicationMappings mappings
     end)
    (λ error, throw error).

Record FolderUpdates := mkUpdates {
  upd_name : option string;
  upd_color : option string;
  upd_icon : option string;
}.

(** [Object.assign(folder, updates, { updatedAt })] *)
Definition assign_updates (updates : FolderUpdates) (folder : Folder.t) : Folder.t :=
  Folder.mk (Folder.id folder)
            (default (Folder.name folder) (upd_name updates))
            (default (Folder.color folder) (upd_color updates))
            (default (Folder.icon folder) (upd_icon updates))
            (Folder.applicationIds folder) (Folder.position folder)
            (Folder.createdAt folder) (Some (toISOString clock)).

Definition updateFolder (folderId : string) (updates : FolderUpdates) : M unit :=
  try_catch
    (folders ← loadFolders;
     match list_find (has_id folderId) folders with
     | Some (i, folder) => saveFolders (<[i := assign_updates updates folder]> folders)
     | None => mret tt
     end)
    (λ error, throw error).

(** One call of the [forEach] callback of [reorderFolders]. *)
Definition reposition (folders : list Folder.t) (entry : nat * string) : list Folder.t :=
  match list_find (has_id entry.2) folders with
  | Some (i, folder) => <[i := Folder.set_position (Z.of_nat entry.1) folder]> folders
  | None => folders
  end.

(** [folders.sort((a, b) => a.position - b.position)]: [Array.prototype.sort]
    is stable, as is this insertion sort. *)
Fixpoint insert_by_position (f : Folder.t) (l : list Folder.t) : list Folder.t :=
  match l with
  | [] => [f]
  | g :: l' =>
      if decide (Folder.position g < Folder.position f)
      then g :: insert_by_position f l'
      else f :: g :: l'
  end.

Definition sort_by_position (l : list Folder.t) : list Folder.t :=
  foldr insert_by_position [] l.

Definition reorderFolders (folderIds : list string) : M unit :=
  try_catch
    (folders ← loadFolders;
     let folders := foldl reposition folders (imap pair folderIds) in
     saveFolders (sort_by_position folders))
    (λ error, throw error).

(** The object that [exportSettings] serialises and [importSettings] parses;
    a key that is missing from an imported text is [None]. *)
Record Snapshot := mkSnapshot {
  snap_folders : option (list Folder.t);
  snap_settings : option Settings.t;
  snap_mappings : option (gmap string string);
  snap_exportedAt : option string;
  snap_version : option string;
}.

Definition exportSettings : M Snapshot :=
  try_catch
    (folders ← loadFolders;
     settings ← loadSettings;
     mappings ← loadApplicationMappings;
     mret (mkSnapshot (Some folders) (Some settings) (Some mappings)
                      (Some (toISOString clock)) (Some "1.0.0")))
    (λ error, throw error).

Definition when_present {A} (o : option A) (k : A → M unit) : M unit :=
  match o with
  | Some a => k a
  | None => mret tt
  end.

(** What [JSON.parse(data)] does with the text: it throws, or gives [null],
    or gives another value, of which the code reads the fields [folders],
    [settings] and [mappings] (a number, a string, a boolean or an array has
    none of them and is the snapshot with nothing in it).  Reading a field of
    [null] throws. *)
Inductive ImportData :=
| Unparseable
| JsonNull
| Parsed (importData : Snapshot).

Definition importSettings (data : ImportData) : M unit :=
  try_catch
    (importData ← match data with
                  | Parsed d => mret d
                  | JsonNull => throw TypeError
                  | Unparseable => throw SyntaxError
                  end;
     when_present (snap_folders importData) saveFolders;;
     when_present (snap_settings importData) saveSettings;;
     when_present (snap_mappings importData) saveApplicationMappings)
    (λ error, throw error).

Definition clearAllData : M unit :=
  try_catch
    (removeItem ft STORAGE_KEY_FOLDERS (write_folders None);;
     removeItem ft STORAGE_KEY_SETTINGS (write_settings None);;
     removeItem ft STORAGE_KEY_APP_MAPPINGS (write_app_mappings None);;
     removeItem ft STORAGE_KEY_LAST_SCAN (write_last_scan None))
    (λ error, throw error).
End StorageManager.

(** ** [ApplicationScanner] *)

(** *** [generateAppId]

    [Buffer.from(appPath).toString('base64')] is the standard Base64 text
    (RFC 4648, with [=] padding) of the UTF-8 bytes of the path. *)

Definition base64_alphabet : list ascii :=
  list_ascii_of_string
    "ABCDEFGHIJKLMNOPQRSTUVWXYZabcdefghijklmnopqrstuvwxyz0123456789+/".

Definition base64_char (n : nat) : ascii :=
  default "="%char (base64_alphabet !! n).

(** The 6-bit groups of a byte sequence; the last group is filled with zero
    bits. *)
Fixpoint sextets (bytes : list nat) : list nat :=
  match bytes with
  | [] => []
  | [a] => [a / 4; (a mod 4) * 16]%nat
  | [a; b] => [a / 4; (a mod 4) * 16 + b / 16; (b mod 16) * 4]%nat
  | a :: b :: c :: rest =>
      [a / 4; (a mod 4) * 16 + b / 16; (b mod 16) * 4 + c / 64; c mod 64]%nat
        ++ sextets rest
  end.

Definition base64_padding (len : nat) : list ascii :=
  match (len mod 3)%nat with
  | 1%nat => ["="; "="]%char
  | 2%nat => ["="]%char
  | _ => []
  end.

Definition utf8_bytes (s : string) : list nat :=
  nat_of_ascii <$> list_ascii_of_string s.

Definition base64 (s : string) : list ascii :=
  (base64_char <$> sextets (utf8_bytes s)) ++ base64_padding (length (utf8_bytes s)).

(** The character class [[/+=]] of the regular expression. *)
Definition stripped (c : ascii) : Prop :=
  c = "/"%char ∨ c = "+"%char ∨ c = "="%char.
#[global] Instance stripped_dec c : Decision (stripped c).
Proof. unfold stripped. apply _. Defined.

Definition generateAppId (appPath : string) : string :=
  string_of_list_ascii (filter (λ c, ¬ stripped c) (base64 appPath)).

(** *** Discovery *)

(** The fields of [Info.plist] that the scanner reads. *)
Record Plist := mkPlist {
  CFBundleDisplayName : option string;
  CFBundleName : option string;
  CFBundleIdentifier : option string;
  CFBundleShortVersionString : option string;
  CFBundleVersion : option string;
  CFBundleIconFile : option string;
  LSApplicationCategoryType : option string;
}.

(** The platform under the scanner: Node's [path], [fs-extra], [plist] and the
    [du] command. [None] is a call that throws. *)
Record Host := mkHost {
  path_join : string → string → string;
  path_basename : string → string → string;
  pathExists : string → bool;
  readdir : string → option (list string);
  readFile : string → option string;
  stat_mtime : string → option string;
  plist_parse : string → option Plist;
  du_sk : string → option Z;
}.

Fixpoint includes (hay needle : string) : bool :=
  String.prefix needle hay ||
  match hay with
  | EmptyString => false
  | String _ hay' => includes hay' needle
  end.

Definition endsWith (s suffix : string) : bool :=
  String.prefix (String.rev suffix) (String.rev s).

Definition categoryMap : list (string * list string) :=
  [ ("Productivity", ["office"; "document"; "text"; "note"; "task"; "calendar"]);
    ("Development", ["xcode"; "code"; "terminal"; "git"; "developer"]);
    ("Graphics", ["photo"; "image"; "design"; "sketch"; "figma"; "adobe"]);
    ("Entertainment", ["music"; "video"; "media"; "netflix"; "spotify"]);
    ("Communication", ["mail"; "message"; "slack"; "discord"; "zoom"]);
    ("Utilities", ["utility"; "system"; "clean"; "monitor"; "activity"]);
    ("Games", ["game"]);
    ("Finance", ["bank"; "finance"; "money"; "budget"]);
    ("Social", ["social"; "facebook"; "twitter"; "instagram"]) ].

Definition categorizeApplication (plistData : Plist) : string :=
  let bundleId := default "" (truthy (toLowerCase <$> CFBundleIdentifier plistData)) in
  let category := default "" (truthy (LSApplicationCategoryType plistData)) in
  match List.find (λ entry, existsb (includes bundleId) entry.2) categoryMap with
  | Some (cat, _) => cat
  | None =>
      if includes category "productivity" then "Productivity"
      else if includes category "graphics" then "Graphics"
      else if includes category "utility" then "Utilities"
      else if includes category "game" then "Games"
      else "Other"
  end.

Section ApplicationScanner.
Context (host : Host) (clock : Clock).

Definition createFallbackApplication (appPath appName : string) : App.t :=
  App.mk (generateAppId appPath) appName ("unknown." +:+ appName) appPath
         None None (Some "Other") (toISOString clock) None.

Definition extractIconPath (appPath : string) (plistData : Plist) : option string :=
  match truthy (CFBundleIconFile plistData) with
  | None => None
  | Some iconFileName =>
      let resourcesPath := path_join host (path_join host appPath "Contents") "Resources" in
      let iconPath :=
        path_join host resourcesPath
          (if endsWith iconFileName ".icns" then iconFileName
           else iconFileName +:+ ".icns") in
      if pathExists host iconPath then Some iconPath else None
  end.

Definition calculateAppSize (appPath : string) : Z :=
  match du_sk host appPath with
  | Some sizeInKB => sizeInKB * 1024
  | None => 0
  end.

Definition or_else (o : option string) (d : string) : string :=
  default d (truthy o).

(** [None] is [null]: the handler of [parseApplication] logs and gives up on
    the bundle. *)
Definition parseApplication (appPath : string) : option App.t :=
  let appName := path_basename host appPath ".app" in
  let infoPlistPath :=
    path_join host (path_join host appPath "Contents") "Info.plist" in
  if negb (pathExists host infoPlistPath)
  then Some (createFallbackApplication appPath appName)
  else
    plistContent ← readFile host infoPlistPath;
    plistData ← plist_parse host plistContent;
    mtime ← stat_mtime host appPath;
    Some (App.mk
            (generateAppId appPath)
            (or_else (CFBundleDisplayName plistData)
                     (or_else (CFBundleName plistData) appName))
            (or_else (CFBundleIdentifier plistData) ("unknown." +:+ appName))
            appPath
            (match truthy (CFBundleShortVersionString plistData) with
             | Some v => Some v
             | None => CFBundleVersion plistData
             end)
            (extractIconPath appPath plistData)
            (Some (categorizeApplication plistData))
            mtime
            (Some (calculateAppSize appPath))).

Definition scanApplicationsInDirectory (directoryPath : string) : list App.t :=
  match readdir host directoryPath with
  | None => []
  | Some entries =>
      omap (λ entry, parseApplication (path_join host directoryPath entry))
           (filter (λ entry, endsWith entry ".app" = true) entries)
  end.
End ApplicationScanner.

(** ** Sequences of store operations *)

(** What [loadFolders] and [loadApplicationMappings] return when the backend
    answers (lemmas [loadFolders_ok] and [loadApplicationMappings_ok]). *)
Definition stored_folders (clock : Clock) (s : LocalStorage) : list Folder.t :=
  default (createDefaultFolders clock) (launchmat_folders s).

Definition stored_mappings (s : LocalStorage) : gmap string string :=
  default ∅ (launchmat_app_mappings s).

Inductive StoreOp :=
| MoveAppToFolder (appId : string) (fromFolderId : option string) (toFolderId : string)
| CreateFolder (name color icon : string)
| DeleteFolder (folderId : string)
| ReorderFolders (folderIds : list string)
| AutoCategorizeNewApps (applications : list App.t).

(** [AutoCategorizeNewApps] is called the way [initializeLaunchmat] calls it:
    on the folders that [loadFolders] has just returned. *)
Definition run_op (ft : Faults) (clock : Clock) (op : StoreOp) : M unit :=
  match op with
  | MoveAppToFolder appId fromFolderId toFolderId =>
      moveAppToFolder ft clock appId fromFolderId toFolderId
  | CreateFolder name color icon =>
      createFolder ft clock name color icon;; mret tt
  | DeleteFolder folderId => deleteFolder ft clock folderId
  | ReorderFolders folderIds => reorderFolders ft clock folderIds
  | AutoCategorizeNewApps applications =>
      existingFolders ← loadFolders ft clock;
      autoCategorizeNewApps ft applications existingFolders;; mret tt
  end.

(** The store after one operation, whether it returned or threw. *)
Definition exec_op (ft : Faults) (s : LocalStorage) (step : Clock * StoreOp)
  : LocalStorage :=
  (run_op ft step.1 step.2 s).2.

Definition exec_ops (ft : Faults) (steps : list (Clock * StoreOp)) (s : LocalStorage)
  : LocalStorage :=
  foldl (exec_op ft) s steps.

(** The stores reached after each operation of the sequence. *)
Fixpoint trace_ops (ft : Faults) (steps : list (Clock * StoreOp)) (s : LocalStorage)
  : list LocalStorage :=
  match steps with
  | [] => []
  | step :: steps' => exec_op ft s step :: trace_ops ft steps' (exec_op ft s step)
  end.

(** A condition on each operation of a sequence, in the store it starts from. *)
Fixpoint admissible (ok : Clock → StoreOp → LocalStorage → Prop)
    (steps : list (Clock * StoreOp)) (s : LocalStorage) : Prop :=
  match steps with
  | [] => True
  | step :: steps' =>
      ok step.1 step.2 s ∧ admissible ok steps' (exec_op no_faults s step)
  end.

(** ** Outcomes of a store call *)

Definition raises {A} (m : M A) (s : LocalStorage) : Prop :=
  ∃ e, (m s).1 = Throw e.

(** What [loadFolders] returns on any backend (lemma [loadFolders_total]). *)
Definition loaded_folders (ft : Faults) (clock : Clock) (s : LocalStorage)
  : list Folder.t :=
  if getItem_fails ft STORAGE_KEY_FOLDERS then createDefaultFolders clock
  else stored_folders clock s.

(** ** Invariants of the folder collection *)

(** The folders whose [applicationIds] hold [a]. *)
Definition holders (a : string) (folders : list Folder.t) : list Folder.t :=
  filter (λ f, a ∈ Folder.applicationIds f) folders.

(** Folder-membership exclusivity: every application id is in at most one
    folder. *)
Definition exclusive (folders : list Folder.t) : Prop :=
  ∀ a, (length (holders a folders) ≤ 1)%nat.

(** Every application id held by a folder is a key of the mapping table. *)
Definition covered (mappings : gmap string string) (folders : list Folder.t) : Prop :=
  ∀ f a, f ∈ folders → a ∈ Folder.applicationIds f → is_Some (mappings !! a).

Definition store_exclusive (s : LocalStorage) : Prop :=
  ∀ clock, exclusive (stored_folders clock s).

Definition store_covered (s : LocalStorage) : Prop :=
  ∀ clock, covered (stored_mappings s) (stored_folders clock s).

(** [folders.find(f => f.id === folderId)] is the folder at index [i]. *)
Definition found_at (folderId : string) (folders : list Folder.t) (i : nat) : Prop :=
  ∃ f, list_find (has_id folderId) folders = Some (i, f).

(** The condition under which an operation keeps membership exclusive: a move
    names the folder that holds the application (unless the target already
    does), a discovered list has each application id once, and the id that
    gets a mapping entry is one that [assign] records. *)
Definition membership_ok (clock : Clock) (op : StoreOp) (s : LocalStorage) : Prop :=
  match op with
  | MoveAppToFolder appId fromFolderId toFolderId =>
      assignable appId (stored_mappings s)
      ∧ ∀ i f, stored_folders clock s !! i = Some f →
               appId ∈ Folder.applicationIds f →
               (∃ fid, truthy fromFolderId = Some fid
                       ∧ found_at fid (stored_folders clock s) i)
               ∨ found_at toFolderId (stored_folders clock s) i
  | AutoCategorizeNewApps applications =>
      NoDup (App.id <$> applications) ∧ "__proto__" ∉ App.id <$> applications
  | _ => True
  end.

(** The [applicationIds] of the folders, in folder order: exclusivity and
    coverage only depend on them. *)
Definition memberships (folders : list Folder.t) : list (list string) :=
  Folder.applicationIds <$> folders.

(** No id is in the lists at two different indices. *)
Definition disjoint_lists (ls : list (list string)) : Prop :=
  ∀ i j l k a, ls !! i = Some l → ls !! j = Some k → a ∈ l → a ∈ k → i = j.

(** Every id in one of the lists is a key of the table. *)
Definition keyed (mappings : gmap string string) (ls : list (list string)) : Prop :=
  ∀ l a, l ∈ ls → a ∈ l → is_Some (mappings !! a).

(** ** Positions *)

Definition folder_ids (folders : list Folder.t) : list string :=
  Folder.id <$> folders.

(** Position density: the positions are exactly [0 .. count-1], as a
    multiset. *)
Definition dense (folders : list Folder.t) : Prop :=
  Folder.position <$> folders ≡ₚ Z.of_nat <$> seq 0 (length folders).

#[global] Instance dense_dec folders : Decision (dense folders).
Proof. unfold dense. apply _. Defined.

(** The store before anything was saved, or holding the default folders. *)
Definition seeded (s : LocalStorage) : Prop :=
  launchmat_folders s = None
  ∨ ∃ clock, launchmat_folders s = Some (createDefaultFolders clock).

(** The condition on the operations that touch positions: a created folder
    gets an id that no folder has yet (a later millisecond), and a reorder is
    given exactly the ids of the current folders. *)
Definition ordering_ok (clock : Clock) (op : StoreOp) (s : LocalStorage) : Prop :=
  match op with
  | CreateFolder _ _ _ => new_folder_id clock ∉ folder_ids (stored_folders clock s)
  | ReorderFolders folderIds => folderIds ≡ₚ folder_ids (stored_folders clock s)
  | DeleteFolder _ => True
  | _ => False
  end.

(** Whether the positions are settled after one more operation: a
    [deleteFolder] unsettles them, a [reorderFolders] settles them. *)
Definition settle (b : bool) (step : Clock * StoreOp) : bool :=
  match step.2 with
  | DeleteFolder _ => false
  | ReorderFolders _ => true
  | _ => b
  end.

(** No [deleteFolder] has run since the last [reorderFolders]. *)
Definition settled (steps : list (Clock * StoreOp)) : bool :=
  foldl settle true steps.

(** The folder ids are distinct and, when [b] holds, the positions dense. *)
Definition ordered_store (b : bool) (s : LocalStorage) : Prop :=
  ∀ clock, NoDup (folder_ids (stored_folders clock s))
           ∧ (b = true → dense (stored_folders clock s)).

(** ** Auto-categorisation *)

(** The loop of [autoCategorizeNewApps] has nothing to do for [app]: its
    target folder is missing, or already holds the application id. *)
Definition placed (app : App.t) (folders : list Folder.t) : Prop :=
  match list_find (has_id (getCategoryForApp app folders)) folders with
  | Some (_, targetFolder) => App.id app ∈ Folder.applicationIds targetFolder
  | None => True
  end.

(** The same folders in the same order, each holding at least the
    application ids it held. *)
Definition grows (folders folders' : list Folder.t) : Prop :=
  Forall2 (λ f g, Folder.id f = Folder.id g
                  ∧ Folder.applicationIds f ⊆ Folder.applicationIds g)
          folders folders'.

(** ** Application ids and descriptors *)

(** A Base64 text without the two characters that [generateAppId] removes
    from inside a text ([=] only ever pads the end). *)
Definition no_plus_slash (text : list ascii) : Prop :=
  Forall (λ c, c ≠ "/"%char ∧ c ≠ "+"%char) text.
#[global] Instance no_plus_slash_dec text : Decision (no_plus_slash text).
Proof. unfold no_plus_slash. apply _. Defined.

Definition descriptor_path (host : Host) (appPath : string) : string :=
  path_join host (path_join host appPath "Contents") "Info.plist".

Definition descriptor_missing (host : Host) (appPath : string) : Prop :=
  pathExists host (descriptor_path host appPath) = false.

(** The descriptor is there and [plist.parse] throws on its content. *)
Definition descriptor_unparseable (host : Host) (appPath : string) : Prop :=
  pathExists host (descriptor_path host appPath) = true
  ∧ ∃ plistContent,
      readFile host (descriptor_path host appPath) = Some plistContent
      ∧ plist_parse host plistContent = None.

(** ** Sample data *)

Definition all_fail : Faults := mkFaults (λ _, true) (λ _, true) (λ _, true).

(** A backend that can be read but refuses every write. *)
Definition writes_fail : Faults := mkFaults (λ _, false) (λ _, true) (λ _, false).

Definition sample_clock : Clock := mkClock "2024-01-01T00:00:00.000Z" 1704067200000.

Definition sample_app : App.t :=
  App.mk "app1" "Chess" "com.apple.Chess" "/Applications/Chess.app"
         None None (Some "Games") "2024-01-01T00:00:00.000Z" None.

(** Node's [path.join] and [path.basename] on plain absolute paths (no [.],
    [..] or doubled separators), for concrete hosts. *)
Definition posix_join (a b : string) : string := a +:+ "/" +:+ b.

Fixpoint last_segment (p : string) : string :=
  match p with
  | EmptyString => EmptyString
  | String c p' =>
      if includes p' "/" then last_segment p'
      else if decide (c = "/"%char) then p' else p
  end.

Definition posix_basename (p ext : string) : string :=
  let base := last_segment p in
  if endsWith base ext && negb (bool_decide (base = ext))
  then substring 0 (String.length base - String.length ext) base
  else base.

(** A host with two bundles in [/Applications]: [Broken.app], whose
    [Info.plist] is not a property list, and [Bare.app], which has none. *)
Definition sample_host : Host :=
  mkHost posix_join posix_basename
    (λ p, bool_decide (p = "/Applications/Broken.app/Contents/Info.plist"))
    (λ d, if decide (d = "/Applications") then Some ["Broken.app"; "Bare.app"; "notes.txt"]
          else None)
    (λ p, if decide (p = "/Applications/Broken.app/Contents/Info.plist")
          then Some "not a property list" else None)
    (λ _, Some "2023-06-01T12:00:00.000Z")
    (λ _, None)
    (λ _, None).

(** A host with one bundle, [/Applications/Xcode.app], whose descriptor
    parses. *)
Definition xcode_host : Host :=
  mkHost posix_join posix_basename
    (λ p, bool_decide (p = "/Applications/Xcode.app/Contents/Info.plist"))
    (λ d, if decide (d = "/Applications") then Some ["Xcode.app"] else None)
    (λ p, if decide (p = "/Applications/Xcode.app/Contents/Info.plist")
          then Some "<plist>" else None)
    (λ _, Some "2023-06-01T12:00:00.000Z")
    (λ c, if decide (c = "<plist>")
          then Some (mkPlist None (Some "Xcode") (Some "com.apple.dt.Xcode")
                             (Some "15.0") None None None)
          else None)
    (λ _, Some 1000).

(** The catch-all folder has been deleted, and an application put into
    "Games". *)
Definition store_without_catch_all : LocalStorage :=
  exec_ops no_faults
    [ (sample_clock, DeleteFolder "folder_other");
      (sample_clock, MoveAppToFolder "app1" None "folder_games") ]
    empty_storage.

(** An application put into the catch-all folder and then into "Games",
    each time without a source folder. *)
Definition store_with_app_in_two_folders : LocalStorage :=
  exec_ops no_faults
    [ (sample_clock, MoveAppToFolder "app1" None "folder_other");
      (sample_clock, MoveAppToFolder "app1" None "folder_games") ]
    empty_storage.

(** "app1" is in the catch-all folder, and in no other. *)
Definition store_with_app_in_catch_all : LocalStorage :=
  exec_ops no_faults
    [ (sample_clock, MoveAppToFolder "app1" None "folder_other") ]
    empty_storage.

(** The default folders with "app1" in "Development", as stored. *)
Definition store_with_app_in_development : LocalStorage :=
  exec_ops no_faults
    [ (sample_clock, MoveAppToFolder "app1" None "folder_development") ]
    empty_storage.

(** A session: discovery files "Chess" under "Games"; the user moves it to
    "Development", creates a folder and deletes "Development". *)
Definition sample_session : list (Clock * StoreOp) :=
  [ (sample_clock, AutoCategorizeNewApps [sample_app]);
    (sample_clock, MoveAppToFolder "app1" (Some "folder_games") "folder_development");
    (mkClock "2024-01-01T00:00:05.000Z" 1704067205000, CreateFolder "Work" "#FF6B6B" "star");
    (sample_clock, DeleteFolder "folder_development") ].

(** A session on the folders alone: two folders created a second apart, one
    deleted, then all reordered. *)
Definition sample_reordering : list (Clock * StoreOp) :=
  [ (mkClock "2024-01-01T00:00:05.000Z" 1704067205000, CreateFolder "Work" "#FF6B6B" "star");
    (mkClock "2024-01-01T00:00:06.000Z" 1704067206000, CreateFolder "Play" "#4ECDC4" "star");
    (sample_clock, DeleteFolder "folder_games");
    (sample_clock,
     ReorderFolders
       [ "folder_1704067206000"; "folder_other"; "folder_productivity";
         "folder_development"; "folder_graphics"; "folder_entertainment";
         "folder_utilities"; "folder_communication"; "folder_1704067205000" ]) ].

From stdpp Require Import sorting.
Local Open Scope string_scope.
Local Open Scope Z_scope.

(** * The rest of the scanner, the store's callers *)

(** ** [ApplicationScanner]: duplicates, full scan, comparison *)

(** [app.bundleIdentifier || app.name] *)
Definition app_key (app : App.t) : string :=
  if decide (App.bundleIdentifier app = "") then App.name app
  else App.bundleIdentifier app.

(** [l.filter(x => { if (seen.has(key(x))) return false; seen.add(key(x));
    return true; })]: also the order in which a [Set] built from [l] lists
    its elements. *)
Fixpoint filter_unseen {A} (key : A → string) (seen : gset string) (l : list A)
  : list A :=
  match l with
  | [] => []
  | x :: l' =>
      if decide (key x ∈ seen) then filter_unseen key seen l'
      else x :: filter_unseen key ({[key x]} ∪ seen) l'
  end.

Definition removeDuplicates (applications : list App.t) : list App.t :=
  filter_unseen app_key ∅ applications.

Record ApplicationScanResult := mkScanResult {
  scan_applications : list App.t;
  newApplications : list App.t;
  removedApplications : list string;
}.

(** [Array.from(new Set(ids))] *)
Definition set_elements (ids : list string) : list string :=
  filter_unseen (λ i, i) ∅ ids.

Definition compareApplications (currentApps previousApps : list App.t)
  : ApplicationScanResult :=
  let currentIds := App.id <$> currentApps in
  let previousIds := App.id <$> previousApps in
  mkScanResult currentApps
    (filter (λ app, App.id app ∉ previousIds) currentApps)
    (filter (λ i, i ∉ currentIds) (set_elements previousIds)).

Section FullScan.
(** [sort_by_name] stands for
    [l.sort((a, b) => a.name.localeCompare(b.name))], whose order is the
    locale's; [userApplicationsPath] is [path.join(process.env.HOME,
    "Applications")]. *)
Context (host : Host) (clock : Clock).
Context (sort_by_name : list App.t → list App.t) (userApplicationsPath : string).

Definition applicationsPath : string := "/Applications".

(** Nothing in the [try] block throws ([scanApplicationsInDirectory] has its
    own handler), so the handler that returns [[]] never runs. *)
Definition scanApplications : list App.t :=
  let systemApps := scanApplicationsInDirectory host clock applicationsPath in
  let userApps :=
    if pathExists host userApplicationsPath
    then scanApplicationsInDirectory host clock userApplicationsPath
    else [] in
  sort_by_name (removeDuplicates (systemApps ++ userApps)).
End FullScan.

(** The labels [categorizeApplication] can return. *)
Definition category_labels : list string :=
  [ "Productivity"; "Development"; "Graphics"; "Entertainment"; "Communication";
    "Utilities"; "Games"; "Finance"; "Social"; "Other" ].

(** The characters of an application id. *)
Definition alphanumeric (c : ascii) : Prop :=
  let n := nat_of_ascii c in
  (48 ≤ n ≤ 57 ∨ 65 ≤ n ≤ 90 ∨ 97 ≤ n ≤ 122)%nat.
#[global] Instance alphanumeric_dec c : Decision (alphanumeric c).
Proof. unfold alphanumeric. apply _. Defined.

(** ** Index of the folder that [folders.find(f => f.id === folderId)] returns *)

Definition found_index (folderId : string) (folders : list Folder.t) : option nat :=
  fst <$> list_find (has_id folderId) folders.

(** [fromFolder.applicationIds.filter(id => id !== appId)] and
    [toFolder.applicationIds.push(appId)] behind its [includes] test, as
    updates of one folder. *)
Definition without_app (appId : string) (folder : Folder.t) : Folder.t :=
  Folder.set_applicationIds
    (filter (λ a, a ≠ appId) (Folder.applicationIds folder)) folder.

Definition with_app (appId : string) (folder : Folder.t) : Folder.t :=
  Folder.set_applicationIds (push_unique (Folder.applicationIds folder) appId) folder.

(** The index of the folder a move takes the application from: none when
    [fromFolderId] is missing or empty ([if (fromFolderId)]), or names no
    folder. *)
Definition source_index (from : option string) (fs : list Folder.t) : option nat :=
  truthy from ≫= λ fid, found_index fid fs.

(** ** Further conditions on the folder collection *)

(** No folder lists an application id twice. *)
Definition duplicate_free (folders : list Folder.t) : Prop :=
  Forall (λ f, NoDup (Folder.applicationIds f)) folders.

Definition store_duplicate_free (s : LocalStorage) : Prop :=
  ∀ clock, duplicate_free (stored_folders clock s).

(** The folders are in ascending order of position. *)
Definition ascending (folders : list Folder.t) : Prop :=
  StronglySorted (λ f g, Folder.position f ≤ Folder.position g) folders.

(** A backend that stores the folder record and refuses the mapping record. *)
Definition mappings_write_fails : Faults :=
  mkFaults (λ _, false)
           (λ k, match k with STORAGE_KEY_APP_MAPPINGS => true | _ => false end)
           (λ _, false).

(** The mapping entry of an application, when there is one, names a folder
    that the folder list has and that holds the application. *)
Definition filed (mappings : gmap string string) (folders : list Folder.t)
    (a : string) : Prop :=
  ∀ v, mappings !! a = Some v →
       ∃ j f, list_find (has_id v) folders = Some (j, f)
              ∧ a ∈ Folder.applicationIds f.

(** ** The callers of the store: [quick-add.tsx] *)

Module QuickAdd.

(** [QuickAddState], the local copy of the store that the command shows. *)
Record State := mk {
  applications : list App.t;
  folders : list Folder.t;
  mappings : gmap string string;
  isLoading : bool;
}.

(** The callback of [prev.folders.map] in [moveAppToFolder]:
    [currentFolderId] is [state.mappings[app.id]], [undefined] ([None]) for
    an application without an entry.  (For an id that names a property of
    [Object.prototype], such as [constructor], the lookup gives a function or
    an object instead: it is truthy but equal to no folder id, so the store
    call and this callback do what they do for [undefined].) *)
Definition patch_folder (appId targetFolderId : string)
    (currentFolderId : option string) (folder : Folder.t) : Folder.t :=
  if decide (Folder.id folder = targetFolderId
             ∧ appId ∉ Folder.applicationIds folder)
  then Folder.set_applicationIds (Folder.applicationIds folder ++ [appId]) folder
  else if decide (Some (Folder.id folder) = currentFolderId)
       then Folder.set_applicationIds
              (filter (λ a, a ≠ appId) (Folder.applicationIds folder)) folder
       else folder.

(** The argument of [setState] after the store call.  The mappings are an
    object literal with a spread and the computed key [[app.id]], which
    defines the property whatever the key is: an insertion, not [assign]. *)
Definition patch_state (appId targetFolderId : string)
    (currentFolderId : option string) (prev : State) : State :=
  mk (applications prev)
     (patch_folder appId targetFolderId currentFolderId <$> folders prev)
     (<[appId := targetFolderId]> (mappings prev))
     (isLoading prev).

(** The handler: the store call, then the patch of the local state; its
    [catch] shows a toast and leaves the local state as it was. *)
Definition moveAppToFolder (ft : Faults) (clock : Clock) (app : App.t)
    (targetFolderId : string) (state : State) : M State :=
  let currentFolderId := mappings state !! App.id app in
  try_catch
    (moveAppToFolder ft clock (App.id app) currentFolderId targetFolderId;;
     mret (patch_state (App.id app) targetFolderId currentFolderId state))
    (λ _, mret state).

End QuickAdd.

(** ** The callers of the store: the Launchmat command *)

(** [Array.prototype.slice(start, end)]. *)
Definition slice {A} (l : list A) (start finish : Z) : list A :=
  let len := Z.of_nat (length l) in
  let k := if decide (start < 0) then Z.max (len + start) 0 else Z.min start len in
  let final := if decide (finish < 0) then Z.max (len + finish) 0
               else Z.min finish len in
  take (Z.to_nat (final - k)) (drop (Z.to_nat k) l).

(** [Math.ceil(a / b)] for integers [a] and [b ≠ 0] (the quotient of two
    array-sized integers is exact enough in a double for [Math.ceil]). *)
Definition ceil_div (a b : Z) : Z := - ((- a) / b).

Module Launchmat.

Record State := mk {
  applications : list App.t;
  folders : list Folder.t;
  currentFolder : option string;
  currentPage : Z;
  searchText : string;
  isLoading : bool;
}.

Definition set_isLoading (b : bool) (prev : State) : State :=
  mk (applications prev) (folders prev) (currentFolder prev) (currentPage prev)
     (searchText prev) b.

Definition set_folders (l : list Folder.t) (prev : State) : State :=
  mk (applications prev) l (currentFolder prev) (currentPage prev)
     (searchText prev) (isLoading prev).

Section Initialization.
Context (host : Host) (sort_by_name : list App.t → list App.t)
        (userApplicationsPath : string).

(** [initializeLaunchmat]: load, scan, categorize, show. *)
Definition initializeLaunchmat (ft : Faults) (clock : Clock) (state : State)
  : M State :=
  try_catch
    (existingFolders ← loadFolders ft clock;
     let applications :=
       scanApplications host clock sort_by_name userApplicationsPath in
     updatedFolders ← autoCategorizeNewApps ft applications existingFolders;
     mret (mk applications updatedFolders (currentFolder state)
              (currentPage state) (searchText state) false))
    (λ _, mret (set_isLoading false state)).

End Initialization.

(** [createNewFolder] builds the folder from the folders it shows and saves
    the list it shows with the folder added; it has no handler. *)
Definition createNewFolder (ft : Faults) (clock : Clock) (state : State)
  : M State :=
  let newFolder :=
    Folder.mk (new_folder_id clock) "New Folder" "#007AFF" "folder" []
              (Z.of_nat (length (folders state))) (toISOString clock) None in
  let updatedFolders := (folders state ++ [newFolder])%list in
  saveFolders ft updatedFolders;;
  mret (set_folders updatedFolders state).

(** [parseInt(preferences.itemsPerPage) || 28], from the result of
    [parseInt] ([None] is [NaN]). *)
Definition itemsPerPage (parsed : option Z) : Z :=
  match parsed with
  | Some n => if decide (n = 0) then 28 else n
  | None => 28
  end.

Definition totalPages {A} (filteredContent : list A) (itemsPerPage : Z) : Z :=
  ceil_div (Z.of_nat (length filteredContent)) itemsPerPage.

Definition currentPageItems {A} (filteredContent : list A) (itemsPerPage : Z)
    (currentPage : Z) : list A :=
  slice filteredContent (currentPage * itemsPerPage)
        ((currentPage + 1) * itemsPerPage).

Definition nextPage (totalPages currentPage : Z) : Z :=
  if decide (currentPage < totalPages - 1) then currentPage + 1 else 0.

Definition prevPage (totalPages currentPage : Z) : Z :=
  if decide (currentPage > 0) then currentPage - 1 else totalPages - 1.

End Launchmat.

(** * Properties *)

(** ** The store monad on a backend that answers *)

Ltac unfold_store :=
  unfold loadFolders, saveFolders, loadSettings, saveSettings,
         loadApplicationMappings, saveApplicationMappings,
         getLastScanTime, setLastScanTime, when_present,
         try_catch, throw, getItem, setItem, removeItem,
         mbind, M_bind, bind, mret, M_ret, ret in *.

(** Settle a decidable proposition by evaluating its decision procedure. *)
Ltac compute_decision :=
  refine (bool_decide_unpack _ _); vm_compute; exact I.

Lemma loadFolders_total ft clock s :
  loadFolders ft clock s = (Ok (loaded_folders ft clock s), s).
Proof.
  unfold_store. unfold loaded_folders, stored_folders.
  destruct (getItem_fails ft STORAGE_KEY_FOLDERS); [done|].
  by destruct (launchmat_folders s).
Qed.

Lemma loadFolders_ok clock s :
  loadFolders no_faults clock s = (Ok (stored_folders clock s), s).
Proof. apply loadFolders_total. Qed.

Lemma loadApplicationMappings_ok s :
  loadApplicationMappings no_faults s = (Ok (stored_mappings s), s).
Proof. reflexivity. Qed.

Lemma loadApplicationMappings_total ft s :
  ∃ mappings, loadApplicationMappings ft s = (Ok mappings, s).
Proof.
  unfold_store. destruct (getItem_fails ft STORAGE_KEY_APP_MAPPINGS); eauto.
Qed.

Lemma saveFolders_ok folders s :
  saveFolders no_faults folders s = (Ok tt, write_folders (Some folders) s).
Proof. reflexivity. Qed.

Lemma saveApplicationMappings_ok mappings s :
  saveApplicationMappings no_faults mappings s
  = (Ok tt, write_app_mappings (Some mappings) s).
Proof. reflexivity. Qed.

(** ** Default folders (C3) *)

(** C3, as stated, fails: on a fresh store [loadFolders] returns the default
    folders without writing them; the folder key still has no item. *)
Lemma loadFolders_does_not_persist :
  ¬ is_Some (launchmat_folders (loadFolders no_faults sample_clock empty_storage).2).
Proof. simpl. by intros [? ?]. Qed.

(** C3, amended: on a fresh store [loadFolders] returns exactly the eight
    default folders, in this order, with the well-known distinct ids, the
    positions 0 to 7, the eight distinct colors of the palette and no
    application ids; the store is left as it was, without a folder record. *)
Theorem loadFolders_fresh_store ft clock :
  ∃ folders,
    loadFolders ft clock empty_storage = (Ok folders, empty_storage)
    ∧ Folder.name <$> folders
      = [ "Productivity"; "Development"; "Graphics & Design"; "Entertainment";
          "Utilities"; "Games"; "Communication"; "Other" ]
    ∧ Folder.id <$> folders
      = [ "folder_productivity"; "folder_development"; "folder_graphics";
          "folder_entertainment"; "folder_utilities"; "folder_games";
          "folder_communication"; "folder_other" ]
    ∧ NoDup (Folder.id <$> folders)
    ∧ Folder.position <$> folders = [0; 1; 2; 3; 4; 5; 6; 7]
    ∧ Folder.color <$> folders = defaultColors
    ∧ NoDup defaultColors
    ∧ length defaultColors = 8%nat
    ∧ Forall (λ f, Folder.applicationIds f = []) folders
    ∧ launchmat_folders (loadFolders ft clock empty_storage).2 = None.
Proof.
  exists (createDefaultFolders clock).
  rewrite loadFolders_total. unfold loaded_folders, stored_folders. simpl.
  split_and!; try done.
  - by destruct (getItem_fails ft STORAGE_KEY_FOLDERS).
  - compute_decision.
  - compute_decision.
  - repeat constructor.
Qed.

(** ** Assignment to a key of the mapping table *)

Lemma assign_lookup_eq key value object :
  assignable key object → assign key value object !! key = Some value.
Proof. intros H. unfold assign. rewrite decide_True by done. apply lookup_insert_eq. Qed.

Lemma assign_lookup_ne key value object k :
  k ≠ key → assign key value object !! k = object !! k.
Proof. intros H. unfold assign. case_decide; [by rewrite lookup_insert_ne|done]. Qed.

Lemma assign_refused key value object :
  ¬ assignable key object → assign key value object = object.
Proof. intros H. unfold assign. by rewrite decide_False. Qed.

Lemma assign_is_Some key value object k :
  is_Some (object !! k) → is_Some (assign key value object !! k).
Proof.
  intros H. unfold assign. case_decide; [|done].
  rewrite lookup_insert. by case_decide.
Qed.

Lemma assign_assignable key value object k :
  assignable k (assign key value object) ↔ assignable k object.
Proof.
  unfold assignable. split.
  - intros [?|Hk]; [by left|].
    destruct (decide (k = "__proto__")) as [->|?]; [|by left]. right.
    unfold assign in Hk. case_decide as Ha; [|done].
    destruct (decide ("__proto__" = key)) as [<-|Hne].
    + by destruct Ha.
    + by rewrite lookup_insert_ne in Hk.
  - intros [?|Hk]; [by left|]. right. by apply assign_is_Some.
Qed.

Lemma assign_lookup_refused key value object k :
  ¬ assignable k object → assign key value object !! k = None.
Proof.
  intros Hk. destruct (decide (k = key)) as [->|Hne].
  - rewrite assign_refused by done.
    destruct (object !! key) eqn:E; [|done]. destruct Hk. right. by rewrite E.
  - rewrite assign_lookup_ne by done.
    destruct (object !! k) eqn:E; [|done]. destruct Hk. right. by rewrite E.
Qed.

Lemma assign_twice key value object :
  assign key value (assign key value object) = assign key value object.
Proof.
  destruct (decide (assignable key object)) as [Ha|Ha].
  - unfold assign at 1. rewrite decide_True by by apply assign_assignable.
    unfold assign. rewrite decide_True by done. apply insert_insert_eq.
  - rewrite (assign_refused key value object Ha). by apply assign_refused.
Qed.

(** ** Export and import (C8) *)


(** When the three records were stored, the round trip gives back the very
    same store. *)
Lemma export_import_same_store clock s snapshot :
  is_Some (launchmat_folders s) → is_Some (launchmat_settings s) →
  is_Some (launchmat_app_mappings s) →
  exportSettings no_faults clock s = (Ok snapshot, s) →
  importSettings no_faults (Parsed snapshot) s = (Ok tt, s).
Proof.
  destruct s as [fs st mp ls]. simpl. intros [f ->] [t ->] [m ->].
  unfold exportSettings, importSettings. unfold_store. simpl.
  intros [= <-]. reflexivity.
Qed.

(** ** Error policy (C9) *)

Section Policy.
Context (ft : Faults) (clock : Clock) (s : LocalStorage).

Lemma saveFolders_raises folders :
  setItem_fails ft STORAGE_KEY_FOLDERS = true →
  saveFolders ft folders s = (Throw (StorageError STORAGE_KEY_FOLDERS), s).
Proof. intros H. unfold_store. by rewrite H. Qed.

Lemma saveSettings_raises settings :
  setItem_fails ft STORAGE_KEY_SETTINGS = true →
  saveSettings ft settings s = (Throw (StorageError STORAGE_KEY_SETTINGS), s).
Proof. intros H. unfold_store. by rewrite H. Qed.

Lemma saveApplicationMappings_raises mappings :
  setItem_fails ft STORAGE_KEY_APP_MAPPINGS = true →
  saveApplicationMappings ft mappings s
  = (Throw (StorageError STORAGE_KEY_APP_MAPPINGS), s).
Proof. intros H. unfold_store. by rewrite H. Qed.

Lemma moveAppToFolder_raises appId fromFolderId toFolderId :
  setItem_fails ft STORAGE_KEY_FOLDERS = true
  ∨ setItem_fails ft STORAGE_KEY_APP_MAPPINGS = true →
  raises (moveAppToFolder ft clock appId fromFolderId toFolderId) s.
Proof.
  intros H. unfold raises, moveAppToFolder. unfold_store.
  destruct (getItem_fails ft STORAGE_KEY_FOLDERS),
           (getItem_fails ft STORAGE_KEY_APP_MAPPINGS),
           (launchmat_folders s); simpl;
    destruct (setItem_fails ft STORAGE_KEY_FOLDERS); simpl; eauto;
    destruct (setItem_fails ft STORAGE_KEY_APP_MAPPINGS); simpl; eauto;
    by destruct H.
Qed.

Lemma createFolder_raises name color icon :
  setItem_fails ft STORAGE_KEY_FOLDERS = true →
  raises (createFolder ft clock name color icon) s.
Proof.
  intros H. unfold raises, createFolder. unfold_store. rewrite H.
  destruct (getItem_fails ft STORAGE_KEY_FOLDERS), (launchmat_folders s);
    simpl; eauto.
Qed.

Lemma reorderFolders_raises folderIds :
  setItem_fails ft STORAGE_KEY_FOLDERS = true →
  raises (reorderFolders ft clock folderIds) s.
Proof.
  intros H. unfold raises, reorderFolders. unfold_store. rewrite H.
  destruct (getItem_fails ft STORAGE_KEY_FOLDERS), (launchmat_folders s);
    simpl; eauto.
Qed.

Lemma deleteFolder_unfold folderId :
  deleteFolder ft clock folderId s
  = match list_find (has_id folderId) (loaded_folders ft clock s) with
    | None => (Ok tt, s)
    | Some (folderIndex, folder) =>
        let '(folders, mappings) :=
          match list_find (has_id "folder_other") (loaded_folders ft clock s) with
          | Some (o, otherFolder) =>
              let '(ids, mappings) :=
                reassign_to_other (Folder.applicationIds folder)
                  (Folder.applicationIds otherFolder,
                   if getItem_fails ft STORAGE_KEY_APP_MAPPINGS then ∅
                   else stored_mappings s) in
              (<[o := Folder.set_applicationIds ids otherFolder]>
                 (loaded_folders ft clock s), mappings)
          | None => (loaded_folders ft clock s,
                     if getItem_fails ft STORAGE_KEY_APP_MAPPINGS then ∅
                     else stored_mappings s)
          end in
        if setItem_fails ft STORAGE_KEY_FOLDERS
        then (Throw (StorageError STORAGE_KEY_FOLDERS), s)
        else if setItem_fails ft STORAGE_KEY_APP_MAPPINGS
             then (Throw (StorageError STORAGE_KEY_APP_MAPPINGS),
                   write_folders (Some (delete folderIndex folders)) s)
             else (Ok tt, write_app_mappings (Some mappings)
                            (write_folders (Some (delete folderIndex folders)) s))
    end.
Proof.
  unfold deleteFolder.
  unfold try_catch at 1. unfold mbind at 1. unfold M_bind at 1. unfold bind at 1.
  rewrite loadFolders_total.
  unfold mbind at 1. unfold M_bind at 1. unfold bind at 1.
  assert (loadApplicationMappings ft s
          = (Ok (if getItem_fails ft STORAGE_KEY_APP_MAPPINGS then ∅
                 else stored_mappings s), s)) as ->.
  { unfold_store. by destruct (getItem_fails ft STORAGE_KEY_APP_MAPPINGS). }
  destruct (list_find (has_id folderId) _) as [[folderIndex folder]|]; [|done].
  destruct (list_find (has_id "folder_other") _) as [[o otherFolder]|].
  - destruct (reassign_to_other _ _) as [ids mappings]. unfold_store.
    destruct (setItem_fails ft STORAGE_KEY_FOLDERS); [done|].
    by destruct (setItem_fails ft STORAGE_KEY_APP_MAPPINGS).
  - unfold_store.
    destruct (setItem_fails ft STORAGE_KEY_FOLDERS); [done|].
    by destruct (setItem_fails ft STORAGE_KEY_APP_MAPPINGS).
Qed.

Lemma deleteFolder_raises folderId :
  setItem_fails ft STORAGE_KEY_FOLDERS = true
  ∨ setItem_fails ft STORAGE_KEY_APP_MAPPINGS = true →
  is_Some (list_find (has_id folderId) (loaded_folders ft clock s)) →
  raises (deleteFolder ft clock folderId) s.
Proof.
  intros H [[i f] Hf]. unfold raises. rewrite deleteFolder_unfold, Hf.
  destruct (list_find (has_id "folder_other") _) as [[o otherFolder]|];
    [destruct (reassign_to_other _ _) as [ids mappings]|];
    (destruct (setItem_fails ft STORAGE_KEY_FOLDERS); simpl; eauto;
     destruct (setItem_fails ft STORAGE_KEY_APP_MAPPINGS); simpl; eauto;
     by destruct H).
Qed.

Lemma updateFolder_raises folderId updates :
  setItem_fails ft STORAGE_KEY_FOLDERS = true →
  is_Some (list_find (has_id folderId) (loaded_folders ft clock s)) →
  raises (updateFolder ft clock folderId updates) s.
Proof.
  intros H [[i f] Hf]. unfold raises, updateFolder.
  unfold try_catch at 1. unfold mbind at 1. unfold M_bind at 1. unfold bind at 1.
  rewrite loadFolders_total, Hf. unfold_store. rewrite H. eauto.
Qed.

Lemma importSettings_raises snapshot :
  (is_Some (snap_folders snapshot) ∧ setItem_fails ft STORAGE_KEY_FOLDERS = true)
  ∨ (is_Some (snap_settings snapshot) ∧ setItem_fails ft STORAGE_KEY_SETTINGS = true)
  ∨ (is_Some (snap_mappings snapshot)
     ∧ setItem_fails ft STORAGE_KEY_APP_MAPPINGS = true) →
  raises (importSettings ft (Parsed snapshot)) s.
Proof.
  intros H. unfold raises, importSettings. unfold_store.
  destruct snapshot as [[fs|] [st|] [mp|] ea v]; simpl in *;
    destruct (setItem_fails ft STORAGE_KEY_FOLDERS); simpl; eauto;
    destruct (setItem_fails ft STORAGE_KEY_SETTINGS); simpl; eauto;
    destruct (setItem_fails ft STORAGE_KEY_APP_MAPPINGS); simpl; eauto;
    destruct H as [[H1 H2]|[[H1 H2]|[H1 H2]]]; try discriminate;
    by destruct H1.
Qed.

Lemma importSettings_rejects_bad_text :
  importSettings ft Unparseable s = (Throw SyntaxError, s).
Proof. reflexivity. Qed.

Lemma clearAllData_raises k :
  removeItem_fails ft k = true → raises (clearAllData ft) s.
Proof.
  intros H. unfold raises, clearAllData. unfold_store.
  destruct (removeItem_fails ft STORAGE_KEY_FOLDERS) eqn:E1; simpl; eauto.
  destruct (removeItem_fails ft STORAGE_KEY_SETTINGS) eqn:E2; simpl; eauto.
  destruct (removeItem_fails ft STORAGE_KEY_APP_MAPPINGS) eqn:E3; simpl; eauto.
  destruct (removeItem_fails ft STORAGE_KEY_LAST_SCAN) eqn:E4; simpl; eauto.
  destruct k; congruence.
Qed.

Lemma autoCategorizeNewApps_unfold applications existingFolders :
  autoCategorizeNewApps ft applications existingFolders s
  = let mappings := if getItem_fails ft STORAGE_KEY_APP_MAPPINGS then ∅
                    else stored_mappings s in
    let st := foldl categorize_step (existingFolders, mappings)
                    (uncategorizedApps mappings applications) in
    (Ok st.1,
     if setItem_fails ft STORAGE_KEY_APP_MAPPINGS then s
     else if setItem_fails ft STORAGE_KEY_FOLDERS
          then write_app_mappings (Some st.2) s
          else write_folders (Some st.1) (write_app_mappings (Some st.2) s)).
Proof.
  unfold autoCategorizeNewApps.
  unfold mbind at 1. unfold M_bind at 1. unfold bind at 1.
  assert (loadApplicationMappings ft s
          = (Ok (if getItem_fails ft STORAGE_KEY_APP_MAPPINGS then ∅
                 else stored_mappings s), s)) as ->.
  { unfold_store. by destruct (getItem_fails ft STORAGE_KEY_APP_MAPPINGS). }
  simpl. destruct (foldl categorize_step _ _) as [folders updatedMappings].
  unfold_store. simpl.
  destruct (setItem_fails ft STORAGE_KEY_APP_MAPPINGS); [done|].
  by destruct (setItem_fails ft STORAGE_KEY_FOLDERS).
Qed.

Lemma autoCategorizeNewApps_never_raises applications existingFolders :
  ¬ raises (autoCategorizeNewApps ft applications existingFolders) s.
Proof. intros [e H]. by rewrite autoCategorizeNewApps_unfold in H. Qed.

(** [setLastScanTime] does not pass a write failure on either: its handler
    only logs. *)
Lemma setLastScanTime_swallows time :
  setItem_fails ft STORAGE_KEY_LAST_SCAN = true →
  setLastScanTime ft time s = (Ok tt, s).
Proof. intros H. unfold_store. by rewrite H. Qed.

Lemma loadFolders_degrades :
  getItem_fails ft STORAGE_KEY_FOLDERS = true →
  loadFolders ft clock s = (Ok (createDefaultFolders clock), s).
Proof. intros H. rewrite loadFolders_total. unfold loaded_folders. by rewrite H. Qed.

Lemma loadSettings_degrades :
  getItem_fails ft STORAGE_KEY_SETTINGS = true →
  loadSettings ft clock s = (Ok (createDefaultSettings clock), s).
Proof. intros H. unfold_store. by rewrite H. Qed.

Lemma loadApplicationMappings_degrades :
  getItem_fails ft STORAGE_KEY_APP_MAPPINGS = true →
  loadApplicationMappings ft s = (Ok ∅, s).
Proof. intros H. unfold_store. by rewrite H. Qed.

Lemma getLastScanTime_degrades :
  getItem_fails ft STORAGE_KEY_LAST_SCAN = true →
  getLastScanTime ft s = (Ok None, s).
Proof. intros H. unfold_store. by rewrite H. Qed.
End Policy.

(** C9, as stated, fails: [autoCategorizeNewApps] is a compound mutation built
    on [saveApplicationMappings] and [saveFolders], and when the backend
    refuses every write it still returns its folder list (with "app1" placed
    in "Games", which the store never got) instead of failing. *)
Lemma autoCategorizeNewApps_hides_write_failure :
  setItem_fails writes_fail STORAGE_KEY_APP_MAPPINGS = true
  ∧ setItem_fails writes_fail STORAGE_KEY_FOLDERS = true
  ∧ ∃ folders,
      autoCategorizeNewApps writes_fail [sample_app]
        (createDefaultFolders sample_clock) empty_storage
      = (Ok folders, empty_storage)
      ∧ Folder.applicationIds <$> folders
        = [[]; []; []; []; []; ["app1"]; []; []].
Proof. split_and!; [done..|]. eexists. split; by vm_compute. Qed.

(** C9, amended: a write failure of the backend is raised again by
    [saveFolders], [saveSettings], [saveApplicationMappings] and by the
    compound mutations [moveAppToFolder], [createFolder], [reorderFolders],
    [deleteFolder] and [updateFolder] (when the folder exists),
    [importSettings] (for a record the snapshot holds) and [clearAllData];
    [autoCategorizeNewApps] never raises, it returns its folder list; a read
    failure is never raised: [loadFolders] returns the default folders,
    [loadSettings] the default settings, [loadApplicationMappings] the empty
    table and [getLastScanTime] null, the store being left as it was. *)
Theorem store_error_policy ft clock s :
  (setItem_fails ft STORAGE_KEY_FOLDERS = true →
     (∀ folders, raises (saveFolders ft folders) s)
     ∧ (∀ name color icon, raises (createFolder ft clock name color icon) s)
     ∧ (∀ folderIds, raises (reorderFolders ft clock folderIds) s)
     ∧ (∀ folderId updates,
          is_Some (list_find (has_id folderId) (loaded_folders ft clock s)) →
          raises (updateFolder ft clock folderId updates) s))
  ∧ (setItem_fails ft STORAGE_KEY_SETTINGS = true →
       ∀ settings, raises (saveSettings ft settings) s)
  ∧ (setItem_fails ft STORAGE_KEY_APP_MAPPINGS = true →
       ∀ mappings, raises (saveApplicationMappings ft mappings) s)
  ∧ (setItem_fails ft STORAGE_KEY_FOLDERS = true
     ∨ setItem_fails ft STORAGE_KEY_APP_MAPPINGS = true →
       (∀ appId fromFolderId toFolderId,
          raises (moveAppToFolder ft clock appId fromFolderId toFolderId) s)
       ∧ (∀ folderId,
            is_Some (list_find (has_id folderId) (loaded_folders ft clock s)) →
            raises (deleteFolder ft clock folderId) s))
  ∧ (∀ snapshot,
       (is_Some (snap_folders snapshot)
        ∧ setItem_fails ft STORAGE_KEY_FOLDERS = true)
       ∨ (is_Some (snap_settings snapshot)
          ∧ setItem_fails ft STORAGE_KEY_SETTINGS = true)
       ∨ (is_Some (snap_mappings snapshot)
          ∧ setItem_fails ft STORAGE_KEY_APP_MAPPINGS = true) →
       raises (importSettings ft (Parsed snapshot)) s)
  ∧ (∀ k, removeItem_fails ft k = true → raises (clearAllData ft) s)
  ∧ (∀ applications existingFolders,
       ¬ raises (autoCategorizeNewApps ft applications existingFolders) s)
  ∧ (getItem_fails ft STORAGE_KEY_FOLDERS = true →
       loadFolders ft clock s = (Ok (createDefaultFolders clock), s))
  ∧ (getItem_fails ft STORAGE_KEY_SETTINGS = true →
       loadSettings ft clock s = (Ok (createDefaultSettings clock), s))
  ∧ (getItem_fails ft STORAGE_KEY_APP_MAPPINGS = true →
       loadApplicationMappings ft s = (Ok ∅, s))
  ∧ (getItem_fails ft STORAGE_KEY_LAST_SCAN = true →
       getLastScanTime ft s = (Ok None, s)).
Proof.
  split_and!.
  - intros H. split_and!; intros.
    + eexists. by rewrite saveFolders_raises.
    + by apply createFolder_raises.
    + by apply reorderFolders_raises.
    + by apply updateFolder_raises.
  - intros H ?. eexists. by rewrite saveSettings_raises.
  - intros H ?. eexists. by rewrite saveApplicationMappings_raises.
  - intros H. split; intros.
    + by apply moveAppToFolder_raises.
    + by apply deleteFolder_raises.
  - apply importSettings_raises.
  - apply clearAllData_raises.
  - apply autoCategorizeNewApps_never_raises.
  - apply loadFolders_degrades.
  - apply loadSettings_degrades.
  - apply loadApplicationMappings_degrades.
  - apply getLastScanTime_degrades.
Qed.

Lemma store_error_policy_witness :
  raises (saveFolders all_fail []) empty_storage
  ∧ raises (deleteFolder all_fail sample_clock "folder_games") empty_storage
  ∧ loadApplicationMappings all_fail empty_storage = (Ok ∅, empty_storage).
Proof.
  pose proof (store_error_policy all_fail sample_clock empty_storage)
    as (Hf & _ & _ & Hm & _ & _ & _ & _ & _ & Hr & _).
  split_and!.
  - apply (Hf eq_refl).
  - apply (Hm (or_introl eq_refl)). vm_compute. eauto.
  - apply (Hr eq_refl).
Defined.

(** ** Application ids (C4) *)

Lemma base64_alphabet_NoDup : NoDup base64_alphabet.
Proof. compute_decision. Qed.

Lemma base64_alphabet_lookup n :
  (n < 64)%nat → base64_alphabet !! n = Some (base64_char n).
Proof.
  intros Hn. unfold base64_char.
  destruct (base64_alphabet !! n) as [c|] eqn:E; [done|].
  apply lookup_ge_None in E. change (length base64_alphabet) with 64%nat in E. lia.
Qed.

Lemma base64_char_inj n m :
  (n < 64)%nat → (m < 64)%nat → base64_char n = base64_char m → n = m.
Proof.
  intros Hn Hm E.
  eapply (NoDup_lookup _ _ _ _ base64_alphabet_NoDup).
  - by apply base64_alphabet_lookup.
  - rewrite E. by apply base64_alphabet_lookup.
Qed.

Lemma base64_char_kept n : (n < 62)%nat → ¬ stripped (base64_char n).
Proof.
  intros Hn.
  assert (Forall (λ k, ¬ stripped (base64_char k)) (seq 0 62)) as HF
    by compute_decision.
  rewrite Forall_forall in HF. apply HF, elem_of_seq. lia.
Qed.

Lemma base64_char_plus_slash n :
  (n < 64)%nat →
  base64_char n ≠ "/"%char ∧ base64_char n ≠ "+"%char → (n < 62)%nat.
Proof.
  intros Hn [H1 H2].
  destruct (decide (n = 62%nat)) as [->|]; [by destruct H2|].
  destruct (decide (n = 63%nat)) as [->|]; [by destruct H1|].
  lia.
Qed.

(** Induction over a byte sequence three bytes at a time, the way Base64
    consumes it. *)
Lemma list_ind3 {A} (P : list A → Prop) :
  P [] → (∀ a, P [a]) → (∀ a b, P [a; b]) →
  (∀ a b c l, P l → P (a :: b :: c :: l)) →
  ∀ l, P l.
Proof.
  intros H0 H1 H2 H3.
  assert (∀ l, P l ∧ (∀ a, P (a :: l)) ∧ (∀ a b, P (a :: b :: l))) as H.
  { induction l as [|x l (IH0 & IH1 & IH2)]; [by auto|].
    split_and!; auto. }
  intros l. apply H.
Qed.

Ltac divmod_lia :=
  zify; Z.div_mod_to_equations; lia.

#[local] Opaque Nat.div Nat.modulo.

Lemma sextets_bound bytes :
  Forall (λ b, b < 256)%nat bytes → Forall (λ n, n < 64)%nat (sextets bytes).
Proof.
  induction bytes as [|a|a b|a b c l IH] using list_ind3; intros HF;
    cbn [sextets app].
  - constructor.
  - inversion_clear HF. rewrite !Forall_cons. split_and!; [divmod_lia..|done].
  - inversion_clear HF as [|?? Ha HF']. inversion_clear HF' as [|?? Hb _].
    rewrite !Forall_cons. split_and!; [divmod_lia..|done].
  - inversion_clear HF as [|?? Ha HF']. inversion_clear HF' as [|?? Hb HF''].
    inversion_clear HF'' as [|?? Hc Hl].
    rewrite !Forall_cons. split_and!; [divmod_lia..|by apply IH].
Qed.

Lemma sextets_inj bytes1 bytes2 :
  Forall (λ b, b < 256)%nat bytes1 → Forall (λ b, b < 256)%nat bytes2 →
  sextets bytes1 = sextets bytes2 → bytes1 = bytes2.
Proof.
  revert bytes2.
  induction bytes1 as [|a|a b|a b c l IH] using list_ind3;
    intros bytes2 H1 H2;
    destruct bytes2 as [|a' [|b' [|c' l']]]; cbn [sextets app];
    intros E; try discriminate E.
  - done.
  - injection E as E1 E2. inversion_clear H1. inversion_clear H2.
    f_equal. divmod_lia.
  - injection E as E1 E2 E3.
    inversion_clear H1 as [|?? Ha H1']. inversion_clear H1' as [|?? Hb _].
    inversion_clear H2 as [|?? Ha' H2']. inversion_clear H2' as [|?? Hb' _].
    assert (a = a') as -> by divmod_lia.
    assert (b = b') as -> by divmod_lia. done.
  - injection E as E1 E2 E3 E4.
    inversion_clear H1 as [|?? Ha H1']. inversion_clear H1' as [|?? Hb H1''].
    inversion_clear H1'' as [|?? Hc Hl].
    inversion_clear H2 as [|?? Ha' H2']. inversion_clear H2' as [|?? Hb' H2''].
    inversion_clear H2'' as [|?? Hc' Hl'].
    assert (a = a') as -> by divmod_lia.
    assert (b = b') as -> by divmod_lia.
    assert (c = c') as -> by divmod_lia.
    f_equal. f_equal. f_equal. by apply IH.
Qed.

#[local] Transparent Nat.div Nat.modulo.

Lemma utf8_bytes_bound s : Forall (λ b, b < 256)%nat (utf8_bytes s).
Proof.
  unfold utf8_bytes. apply Forall_fmap, Forall_forall. intros c _.
  apply nat_ascii_bounded.
Qed.

Lemma utf8_bytes_inj s1 s2 : utf8_bytes s1 = utf8_bytes s2 → s1 = s2.
Proof.
  unfold utf8_bytes. intros E.
  rewrite <- (string_of_list_ascii_of_string s1),
          <- (string_of_list_ascii_of_string s2).
  f_equal. revert E. generalize (list_ascii_of_string s1) (list_ascii_of_string s2).
  induction l as [|c l IH]; intros [|c' l'] E; try discriminate E; [done|].
  injection E as Ec El. f_equal; [|by apply IH].
  by rewrite <- (ascii_nat_embedding c), Ec, ascii_nat_embedding.
Qed.

Lemma base64_chars_inj l1 l2 :
  Forall (λ n, n < 64)%nat l1 → Forall (λ n, n < 64)%nat l2 →
  base64_char <$> l1 = base64_char <$> l2 → l1 = l2.
Proof.
  revert l2. induction l1 as [|n l1 IH]; intros [|m l2] H1 H2 E;
    try discriminate E; [done|].
  injection E as En El. inversion_clear H1. inversion_clear H2.
  f_equal; [by apply base64_char_inj|by apply IH].
Qed.

Lemma base64_padding_stripped len :
  filter (λ c, ¬ stripped c) (base64_padding len) = [].
Proof.
  unfold base64_padding. by destruct (len mod 3)%nat as [|[|[|?]]].
Qed.

Lemma base64_chars_kept l :
  Forall (λ n, n < 64)%nat l → no_plus_slash (base64_char <$> l) →
  filter (λ c, ¬ stripped c) (base64_char <$> l) = base64_char <$> l.
Proof.
  induction 1 as [|n l Hn Hl IH]; [done|].
  rewrite fmap_cons. intros [Hc Hrest]%Forall_cons.
  rewrite filter_cons_True; [by rewrite IH|].
  by apply base64_char_kept, base64_char_plus_slash.
Qed.

(** Without [+] and [/] in the Base64 text, the id is the text without its
    padding. *)
Lemma generateAppId_plain appPath :
  no_plus_slash (base64 appPath) →
  generateAppId appPath
  = string_of_list_ascii (base64_char <$> sextets (utf8_bytes appPath)).
Proof.
  unfold generateAppId, base64, no_plus_slash. intros [H _]%Forall_app.
  rewrite filter_app, base64_padding_stripped, app_nil_r.
  f_equal. apply base64_chars_kept; [|done].
  apply sextets_bound, utf8_bytes_bound.
Qed.

(** C4, as stated, fails: two bundle paths that differ in one character get
    the same id, because [+] and [/] are removed from the Base64 text. *)
Lemma generateAppId_collision :
  "/Applications/?.app" ≠ "/Applications/>.app"
  ∧ generateAppId "/Applications/?.app" = generateAppId "/Applications/>.app".
Proof. split; [discriminate|by vm_compute]. Qed.

(** C4, amended: [generateAppId] is a function of the path alone (equal
    paths give equal ids), and two paths whose Base64 texts contain neither
    [+] nor [/] get the same id only when they are the same path. *)
Theorem generateAppId_stable_and_injective appPath1 appPath2 :
  (appPath1 = appPath2 → generateAppId appPath1 = generateAppId appPath2)
  ∧ (no_plus_slash (base64 appPath1) → no_plus_slash (base64 appPath2) →
     generateAppId appPath1 = generateAppId appPath2 → appPath1 = appPath2).
Proof.
  split; [by intros ->|]. intros H1 H2 E.
  rewrite !generateAppId_plain in E by done.
  apply utf8_bytes_inj, sextets_inj; [apply utf8_bytes_bound..|].
  apply base64_chars_inj; [apply sextets_bound, utf8_bytes_bound..|].
  by rewrite <- (list_ascii_of_string_of_list_ascii (_ <$> sextets (utf8_bytes appPath1))),
             E, list_ascii_of_string_of_list_ascii.
Qed.

Lemma generateAppId_stable_and_injective_witness :
  generateAppId "/Applications/Safari.app" = generateAppId "/Applications/Safari.app"
  ∧ "/Applications/Safari.app" = "/Applications/Safari.app".
Proof.
  pose proof (generateAppId_stable_and_injective
                "/Applications/Safari.app" "/Applications/Safari.app") as [Hs Hi].
  split.
  - apply Hs. reflexivity.
  - apply Hi.
    + compute_decision.
    + compute_decision.
    + reflexivity.
Defined.

(** ** Discovery fallback (C5) *)

(** C5, as stated, fails: a bundle whose descriptor is present but does not
    parse gets no record at all; [parseApplication] returns null and the scan
    of the directory leaves the bundle out. *)
Lemma unparseable_descriptor_is_dropped :
  descriptor_unparseable sample_host "/Applications/Broken.app"
  ∧ parseApplication sample_host sample_clock "/Applications/Broken.app" = None
  ∧ App.path <$> scanApplicationsInDirectory sample_host sample_clock "/Applications"
    = ["/Applications/Bare.app"].
Proof.
  split_and!; [|by vm_compute..].
  split; [by vm_compute|]. exists "not a property list". by vm_compute.
Qed.

Lemma parseApplication_missing host clock appPath :
  descriptor_missing host appPath →
  parseApplication host clock appPath
  = Some (createFallbackApplication clock appPath
            (path_basename host appPath ".app")).
Proof.
  unfold descriptor_missing, descriptor_path, parseApplication. by intros ->.
Qed.

Lemma parseApplication_unparseable host clock appPath :
  descriptor_unparseable host appPath →
  parseApplication host clock appPath = None.
Proof.
  unfold descriptor_unparseable, descriptor_path, parseApplication.
  intros [-> (content & -> & Hparse)]. simpl. by rewrite Hparse.
Qed.

(** C5, amended: a bundle without a descriptor gets the fallback record,
    built from its path and file name only (bundle identifier
    [unknown.<name>], category "Other", no version, icon or size), and the
    scan of its directory contains that record; a bundle whose descriptor is
    present but does not parse gets no record ([parseApplication] returns
    null), which does not stop the scan. *)
Theorem discovery_fallback host clock :
  (∀ appPath,
     descriptor_missing host appPath →
     ∃ app,
       parseApplication host clock appPath = Some app
       ∧ App.id app = generateAppId appPath
       ∧ App.name app = path_basename host appPath ".app"
       ∧ App.bundleIdentifier app = "unknown." +:+ path_basename host appPath ".app"
       ∧ App.path app = appPath
       ∧ App.category app = Some "Other"
       ∧ App.version app = None ∧ App.icon app = None ∧ App.size app = None)
  ∧ (∀ appPath,
       descriptor_unparseable host appPath →
       parseApplication host clock appPath = None)
  ∧ (∀ directoryPath entries entry,
       readdir host directoryPath = Some entries →
       entry ∈ entries → endsWith entry ".app" = true →
       descriptor_missing host (path_join host directoryPath entry) →
       createFallbackApplication clock (path_join host directoryPath entry)
         (path_basename host (path_join host directoryPath entry) ".app")
       ∈ scanApplicationsInDirectory host clock directoryPath).
Proof.
  split_and!.
  - intros appPath H. eexists. split; [by apply parseApplication_missing|].
    by split_and!.
  - intros. by apply parseApplication_unparseable.
  - intros directoryPath entries entry Hdir Hin Happ Hmiss.
    unfold scanApplicationsInDirectory. rewrite Hdir.
    apply list_elem_of_omap. exists entry. split.
    + by apply list_elem_of_filter.
    + by apply parseApplication_missing.
Qed.

Lemma discovery_fallback_witness :
  (∃ app,
     parseApplication sample_host sample_clock "/Applications/Bare.app" = Some app
     ∧ App.name app = "Bare"
     ∧ App.bundleIdentifier app = "unknown.Bare"
     ∧ App.category app = Some "Other")
  ∧ parseApplication sample_host sample_clock "/Applications/Broken.app" = None.
Proof.
  pose proof (discovery_fallback sample_host sample_clock) as (Hm & Hu & _).
  split.
  - destruct (Hm "/Applications/Bare.app")
      as (app & Happ & _ & Hname & Hbundle & _ & Hcat & _); [by vm_compute|].
    exists app. split_and!; [done| |  |done].
    + rewrite Hname. by vm_compute.
    + rewrite Hbundle. by vm_compute.
  - apply Hu. split; [by vm_compute|].
    exists "not a property list". by vm_compute.
Defined.

(** ** Deleting a folder (C6, C10) *)

Lemma reassign_to_other_spec appIds ids mappings :
  let st := reassign_to_other appIds (ids, mappings) in
  (∀ a, a ∈ st.1 ↔ a ∈ ids ∨ a ∈ appIds)
  ∧ (∀ a, a ∈ appIds → assignable a mappings → st.2 !! a = Some "folder_other")
  ∧ (∀ a, a ∉ appIds → st.2 !! a = mappings !! a)
  ∧ (∀ a, ¬ assignable a mappings → st.2 !! a = None).
Proof.
  unfold reassign_to_other.
  revert ids mappings. induction appIds as [|x appIds IH]; intros ids mappings.
  - cbn [foldl fst snd]. split_and!; [set_solver| |done|].
    + intros a Ha. by apply elem_of_nil in Ha.
    + intros a Ha. destruct (mappings !! a) eqn:E; [|done].
      destruct Ha. right. by rewrite E.
  - cbn [foldl fst snd].
    destruct (IH (push_unique ids x) (assign x "folder_other" mappings))
      as (IH1 & IH2 & IH3 & IH4).
    split_and!.
    + intros a. rewrite IH1. unfold push_unique.
      destruct (decide (x ∈ ids)); set_solver.
    + intros a Ha Hok.
      destruct (decide (a ∈ appIds)) as [Hin|Hout].
      { apply IH2; [done|]. by apply assign_assignable. }
      rewrite IH3 by done. apply elem_of_cons in Ha as [->|?]; [|done].
      by apply assign_lookup_eq.
    + intros a Ha. apply not_elem_of_cons in Ha as [Hne Hout].
      rewrite IH3 by done. by apply assign_lookup_ne.
    + intros a Ha. apply IH4. by rewrite assign_assignable.
Qed.

(** When every id is already there, the loop pushes nothing. *)
Lemma reassign_to_other_same appIds ids mappings :
  appIds ⊆ ids → (reassign_to_other appIds (ids, mappings)).1 = ids.
Proof.
  unfold reassign_to_other.
  revert mappings. induction appIds as [|x appIds IH]; intros mappings Hsub; [done|].
  simpl. unfold push_unique at 2. rewrite decide_True by set_solver.
  apply IH. set_solver.
Qed.

Lemma delete_insert_same {A} (l : list A) i x : delete i (<[i:=x]> l) = delete i l.
Proof.
  revert i. induction l as [|y l IH]; intros [|i]; simpl; [done..|].
  f_equal. apply IH.
Qed.

Lemma lookup_delete_list {A} (l : list A) d j :
  delete d l !! j = if decide (j < d)%nat then l !! j else l !! S j.
Proof.
  case_decide; [by apply list_lookup_delete_lt|apply list_lookup_delete_ge; lia].
Qed.

(** The first folder with a given id stays the first one when another index
    is deleted. *)
Lemma list_find_delete_other {A} (P : A → Prop) `{∀ x, Decision (P x)}
    (l : list A) o x d :
  list_find P l = Some (o, x) → d ≠ o →
  list_find P (delete d l) = Some (if decide (d < o)%nat then pred o else o, x).
Proof.
  intros (Hlook & HP & Hmin)%list_find_Some Hne. apply list_find_Some.
  split_and!; [|done|].
  - rewrite lookup_delete_list.
    destruct (decide (d < o)%nat).
    + rewrite decide_False by lia. by replace (S (pred o)) with o by lia.
    + rewrite decide_True by lia. done.
  - intros j y. rewrite lookup_delete_list. intros Hj Hlt.
    destruct (decide (j < d)%nat); eapply Hmin; try done;
      destruct (decide (d < o)%nat); lia.
Qed.

Lemma deleteFolder_ok clock s folderId :
  deleteFolder no_faults clock folderId s
  = match list_find (has_id folderId) (stored_folders clock s) with
    | None => (Ok tt, s)
    | Some (folderIndex, folder) =>
        match list_find (has_id "folder_other") (stored_folders clock s) with
        | Some (o, otherFolder) =>
            let st := reassign_to_other (Folder.applicationIds folder)
                        (Folder.applicationIds otherFolder, stored_mappings s) in
            (Ok tt,
             write_app_mappings (Some st.2)
               (write_folders
                  (Some (delete folderIndex
                           (<[o := Folder.set_applicationIds st.1 otherFolder]>
                              (stored_folders clock s)))) s))
        | None =>
            (Ok tt,
             write_app_mappings (Some (stored_mappings s))
               (write_folders (Some (delete folderIndex (stored_folders clock s))) s))
        end
    end.
Proof.
  rewrite deleteFolder_unfold. unfold loaded_folders. simpl.
  destruct (list_find (has_id folderId) _) as [[d folder]|]; [|done].
  destruct (list_find (has_id "folder_other") _) as [[o other]|]; [|done].
  by destruct (reassign_to_other _ _).
Qed.

Lemma folder_ids_insert folders o f f' :
  folders !! o = Some f → Folder.id f' = Folder.id f →
  folder_ids (<[o := f']> folders) = folder_ids folders.
Proof.
  intros Hlook Hid. unfold folder_ids. rewrite list_fmap_insert, Hid.
  apply list_insert_id. by rewrite list_lookup_fmap, Hlook.
Qed.

Lemma NoDup_delete_lookup {A} (l : list A) d x :
  NoDup l → l !! d = Some x → x ∉ delete d l.
Proof.
  intros Hnd Hlook.
  rewrite <- (take_drop_middle l d x Hlook) in Hnd.
  apply NoDup_app in Hnd as (_ & Hdisj & Hnd).
  apply NoDup_cons in Hnd as [Hnotin _].
  rewrite delete_take_drop. intros [Hin|Hin]%elem_of_app; [|done].
  apply (Hdisj _ Hin). by left.
Qed.

Lemma found_not_other folders i f j g (x y : string) :
  list_find (has_id x) folders = Some (i, f) →
  list_find (has_id y) folders = Some (j, g) →
  x ≠ y → i ≠ j.
Proof.
  intros (Hf & Hx & _)%list_find_Some (Hg & Hy & _)%list_find_Some Hne ->.
  unfold has_id in *. congruence.
Qed.

(** C6, as stated, fails: in a store that has lost its catch-all folder,
    deleting "Games" removes the folder with its application, which is then in
    no folder, and the mapping table still sends it to the deleted folder. *)
Lemma deleteFolder_without_catch_all :
  (∃ i f, list_find (has_id "folder_games")
                    (stored_folders sample_clock store_without_catch_all)
          = Some (i, f)
          ∧ "app1" ∈ Folder.applicationIds f)
  ∧ ∃ s', deleteFolder no_faults sample_clock "folder_games" store_without_catch_all
          = (Ok tt, s')
          ∧ stored_mappings s' !! "app1" = Some "folder_games"
          ∧ Forall (λ f, "app1" ∉ Folder.applicationIds f)
                   (stored_folders sample_clock s').
Proof.
  split.
  - eexists _, _. split; [by vm_compute|]. simpl. by left.
  - eexists. split_and!; [by vm_compute|by vm_compute|].
    compute_decision.
Qed.

(** C6, amended: when the store holds a folder with the given id and also the
    catch-all folder, and the id is not "folder_other", [deleteFolder] removes
    the record found, and every application id of the deleted folder is in
    the [applicationIds] of the catch-all folder and mapped to "folder_other"
    (the id "__proto__" only when the mapping table already has an entry for
    it: otherwise the assignment records nothing and it stays without one);
    with distinct folder ids no folder has the deleted id afterwards.  When no
    folder has the id, the call returns and the store is unchanged. *)
Theorem deleteFolder_reassigns clock s folderId :
  (∀ d folder o otherFolder,
     list_find (has_id folderId) (stored_folders clock s) = Some (d, folder) →
     list_find (has_id "folder_other") (stored_folders clock s)
     = Some (o, otherFolder) →
     folderId ≠ "folder_other" →
     ∃ s' otherFolder' o',
       deleteFolder no_faults clock folderId s = (Ok tt, s')
       ∧ launchmat_folders s'
         = Some (delete d (<[o := otherFolder']> (stored_folders clock s)))
       ∧ list_find (has_id "folder_other") (stored_folders clock s')
         = Some (o', otherFolder')
       ∧ (∀ a, a ∈ Folder.applicationIds folder →
               a ∈ Folder.applicationIds otherFolder'
               ∧ (assignable a (stored_mappings s) →
                  stored_mappings s' !! a = Some "folder_other")
               ∧ (¬ assignable a (stored_mappings s) →
                  stored_mappings s' !! a = None))
       ∧ (NoDup (folder_ids (stored_folders clock s)) →
          folderId ∉ folder_ids (stored_folders clock s')))
  ∧ (list_find (has_id folderId) (stored_folders clock s) = None →
     deleteFolder no_faults clock folderId s = (Ok tt, s)).
Proof.
  split.
  - intros d folder o otherFolder Hd Ho Hne.
    rewrite deleteFolder_ok, Hd, Ho.
    destruct (reassign_to_other_spec (Folder.applicationIds folder)
                (Folder.applicationIds otherFolder) (stored_mappings s))
      as (Hids & Hmap & _ & Hnot).
    set (st := reassign_to_other _ _) in *.
    pose proof (found_not_other _ _ _ _ _ _ _ Hd Ho Hne) as Hdo.
    pose proof Ho as (Holook & Hoid & Homin)%list_find_Some.
    pose proof Hd as (Hdlook & Hdid & _)%list_find_Some.
    eexists _, (Folder.set_applicationIds st.1 otherFolder), _.
    split_and!; [reflexivity|reflexivity| | |].
    + unfold stored_folders at 1. simpl.
      apply list_find_delete_other; [|done].
      apply list_find_Some. split_and!; [|done|].
      * apply list_lookup_insert_eq. by eapply lookup_lt_Some.
      * intros j y Hj Hlt. rewrite list_lookup_insert_ne in Hj by lia.
        by eapply Homin.
    + intros a Ha. split_and!; [|by apply Hmap|by apply Hnot].
      simpl. apply Hids. by right.
    + intros Hnd. unfold stored_folders at 1. simpl.
      unfold folder_ids. rewrite list_fmap_delete.
      fold (folder_ids (<[o:=Folder.set_applicationIds st.1 otherFolder]>
                          (stored_folders clock s))).
      rewrite (folder_ids_insert _ _ otherFolder) by done.
      apply NoDup_delete_lookup; [done|].
      unfold folder_ids. by rewrite list_lookup_fmap, Hdlook, <- Hdid.
  - intros Hnone. by rewrite deleteFolder_ok, Hnone.
Qed.

Lemma deleteFolder_reassigns_witness :
  ∃ s' other,
    deleteFolder no_faults sample_clock "folder_development"
      store_with_app_in_development = (Ok tt, s')
    ∧ Folder.id other = "folder_other"
    ∧ other ∈ stored_folders sample_clock s'
    ∧ "app1" ∈ Folder.applicationIds other
    ∧ stored_mappings s' !! "app1" = Some "folder_other"
    ∧ "folder_development" ∉ folder_ids (stored_folders sample_clock s').
Proof.
  destruct (deleteFolder_reassigns sample_clock store_with_app_in_development
              "folder_development") as [H _].
  edestruct H as (s' & other & o' & Hrun & _ & Hfind & Happs & Hgone).
  - by vm_compute.
  - by vm_compute.
  - discriminate.
  - exists s', other.
    apply list_find_Some in Hfind as (Hlook & Hid & _).
    destruct (Happs "app1") as (Hin & Hmap & _); [simpl; by left|].
    split_and!; [done|done| |done| |].
    + by eapply list_elem_of_lookup_2.
    + apply Hmap. by left.
    + apply Hgone. compute_decision.
Defined.

(** C10, as stated, fails: an application that is also in another folder
    (here "Games", after two moves without a source folder) is still in that
    folder once the catch-all folder is deleted. *)
Lemma catch_all_deletion_keeps_other_copy :
  (∃ o other, list_find (has_id "folder_other")
                (stored_folders sample_clock store_with_app_in_two_folders)
              = Some (o, other)
              ∧ "app1" ∈ Folder.applicationIds other)
  ∧ ∃ s', deleteFolder no_faults sample_clock "folder_other"
            store_with_app_in_two_folders = (Ok tt, s')
          ∧ ∃ i f, list_find (has_id "folder_games") (stored_folders sample_clock s')
                   = Some (i, f)
                   ∧ "app1" ∈ Folder.applicationIds f.
Proof.
  split.
  - eexists _, _. split; [by vm_compute|]. simpl. by left.
  - eexists. split; [by vm_compute|].
    eexists _, _. split; [by vm_compute|]. simpl. by left.
Qed.

(** C10, amended: [deleteFolder("folder_other")] on a store that holds the
    catch-all folder removes that folder; every application id it held is
    mapped to "folder_other" afterwards (the id "__proto__" only when the
    mapping table already has an entry for it: otherwise it stays without
    one), and is in no folder any more provided it was in no other folder
    before the call; with distinct folder ids, no folder has the id
    "folder_other" afterwards. *)
Theorem deleteFolder_catch_all clock s o otherFolder :
  list_find (has_id "folder_other") (stored_folders clock s)
  = Some (o, otherFolder) →
  ∃ s',
    deleteFolder no_faults clock "folder_other" s = (Ok tt, s')
    ∧ launchmat_folders s' = Some (delete o (stored_folders clock s))
    ∧ (∀ a, a ∈ Folder.applicationIds otherFolder →
            (assignable a (stored_mappings s) →
             stored_mappings s' !! a = Some "folder_other")
            ∧ (¬ assignable a (stored_mappings s) →
               stored_mappings s' !! a = None))
    ∧ (∀ a, a ∈ Folder.applicationIds otherFolder →
            (∀ j f, stored_folders clock s !! j = Some f →
                    a ∈ Folder.applicationIds f → j = o) →
            ∀ f, f ∈ stored_folders clock s' → a ∉ Folder.applicationIds f)
    ∧ (NoDup (folder_ids (stored_folders clock s)) →
       "folder_other" ∉ folder_ids (stored_folders clock s')).
Proof.
  intros Ho. rewrite deleteFolder_ok, Ho.
  destruct (reassign_to_other_spec (Folder.applicationIds otherFolder)
              (Folder.applicationIds otherFolder) (stored_mappings s))
    as (_ & Hmap & _ & Hnot).
  pose proof (reassign_to_other_same (Folder.applicationIds otherFolder)
                (Folder.applicationIds otherFolder) (stored_mappings s)) as Hsame.
  set (st := reassign_to_other _ _) in *.
  pose proof Ho as (Holook & Hoid & _)%list_find_Some.
  eexists. split_and!; [reflexivity| | | |].
  - simpl. by rewrite delete_insert_same.
  - intros a Ha. split; [by apply Hmap|by apply Hnot].
  - intros a Ha Honly f Hf Hin.
    unfold stored_folders in Hf at 1. simpl in Hf.
    rewrite delete_insert_same in Hf.
    apply list_elem_of_lookup in Hf as [j Hj].
    rewrite list_lookup_delete in Hj.
    specialize (Honly _ _ Hj Hin). case_decide; lia.
  - intros Hnd. unfold stored_folders at 1. simpl.
    rewrite delete_insert_same. unfold folder_ids. rewrite list_fmap_delete.
    apply NoDup_delete_lookup; [done|].
    by rewrite list_lookup_fmap, Holook, <- Hoid.
Qed.

Lemma deleteFolder_catch_all_witness :
  ∃ s',
    deleteFolder no_faults sample_clock "folder_other" store_with_app_in_catch_all
    = (Ok tt, s')
    ∧ stored_mappings s' !! "app1" = Some "folder_other"
    ∧ (∀ f, f ∈ stored_folders sample_clock s' → "app1" ∉ Folder.applicationIds f)
    ∧ length (stored_folders sample_clock s') = 7%nat.
Proof.
  edestruct (deleteFolder_catch_all sample_clock store_with_app_in_catch_all)
    as (s' & Hrun & Hfolders & Hmap & Hnone & _).
  - by vm_compute.
  - exists s'. split_and!; [done| | |].
    + apply Hmap; [simpl; by left|by left].
    + apply Hnone; [simpl; by left|].
      intros j f Hj Hin.
      assert (Forall (λ jf : nat * Folder.t,
                        "app1" ∈ Folder.applicationIds jf.2 → jf.1 = 7%nat)
                (imap pair (stored_folders sample_clock store_with_app_in_catch_all)))
        as Hall by compute_decision.
      rewrite Forall_lookup in Hall.
      apply (Hall j (j, f)); [|done]. by rewrite list_lookup_imap, Hj.
    + unfold stored_folders at 1. by rewrite Hfolders.
Defined.

(** ** Auto-categorisation is idempotent (C7) *)

Lemma grows_refl folders : grows folders folders.
Proof. apply Forall_Forall2_diag, Forall_forall. by intros. Qed.

Lemma grows_trans fs1 fs2 fs3 : grows fs1 fs2 → grows fs2 fs3 → grows fs1 fs3.
Proof.
  unfold grows. intros H12. revert fs3.
  induction H12 as [|f g fs1 fs2 [Hid Hsub] _ IH]; intros fs3 H23;
    inversion_clear H23 as [|?? h fs3' [Hid' Hsub'] Hrest]; constructor.
  - split; [congruence|set_solver].
  - by apply IH.
Qed.

Lemma grows_find_Some fs fs' t j f :
  grows fs fs' → list_find (has_id t) fs = Some (j, f) →
  ∃ g, list_find (has_id t) fs' = Some (j, g)
       ∧ Folder.applicationIds f ⊆ Folder.applicationIds g.
Proof.
  intros Hg (Hlook & Hid & Hmin)%list_find_Some.
  destruct (Forall2_lookup_l _ _ _ _ _ Hg Hlook) as (g & Hg' & Hidg & Hsub).
  exists g. split; [|done]. apply list_find_Some. split_and!; [done| |].
  - unfold has_id in *. congruence.
  - intros k y Hk Hlt Hy.
    destruct (Forall2_lookup_r _ _ _ _ _ Hg Hk) as (x & Hx & Hidx & _).
    apply (Hmin k x Hx Hlt). unfold has_id in *. congruence.
Qed.

Lemma grows_find_None fs fs' t :
  grows fs fs' → list_find (has_id t) fs = None → list_find (has_id t) fs' = None.
Proof.
  intros Hg Hnone. rewrite list_find_None in *.
  apply Forall_forall. intros g [k Hk]%list_elem_of_lookup Hy.
  destruct (Forall2_lookup_r _ _ _ _ _ Hg Hk) as (x & Hx & Hidx & _).
  rewrite Forall_forall in Hnone.
  apply (Hnone x); [by eapply list_elem_of_lookup_2|].
  unfold has_id in *. congruence.
Qed.

Lemma grows_getCategoryForApp app fs fs' :
  grows fs fs' → getCategoryForApp app fs = getCategoryForApp app fs'.
Proof.
  intros Hg. unfold getCategoryForApp.
  destruct (list_find _ fs) as [[j f]|] eqn:E.
  - destruct (grows_find_Some _ _ _ _ _ Hg E) as (g & -> & _). done.
  - by rewrite (grows_find_None _ _ _ Hg E).
Qed.

Lemma placed_grows app fs fs' : grows fs fs' → placed app fs → placed app fs'.
Proof.
  intros Hg. unfold placed. rewrite <- (grows_getCategoryForApp app fs fs' Hg).
  destruct (list_find _ fs) as [[j f]|] eqn:E.
  - destruct (grows_find_Some _ _ _ _ _ Hg E) as (g & -> & Hsub). set_solver.
  - by rewrite (grows_find_None _ _ _ Hg E).
Qed.

Lemma grows_insert fs j f ids :
  fs !! j = Some f → Folder.applicationIds f ⊆ ids →
  grows fs (<[j := Folder.set_applicationIds ids f]> fs).
Proof.
  intros Hlook Hsub. apply Forall2_same_length_lookup.
  split; [by rewrite length_insert|].
  intros k x y Hx Hy.
  destruct (decide (j = k)) as [->|Hne].
  - rewrite list_lookup_insert_eq in Hy by by eapply lookup_lt_Some.
    by simplify_eq.
  - rewrite list_lookup_insert_ne in Hy by done. by simplify_eq.
Qed.

Lemma categorize_step_grows fs um app :
  grows fs (categorize_step (fs, um) app).1.
Proof.
  unfold categorize_step.
  destruct (list_find _ fs) as [[j tf]|] eqn:E; [|apply grows_refl].
  case_decide; [apply grows_refl|]. simpl.
  apply list_find_Some in E as (Hlook & _). apply grows_insert; [done|set_solver].
Qed.

Lemma categorize_step_placed fs um app :
  placed app (categorize_step (fs, um) app).1.
Proof.
  pose proof (categorize_step_grows fs um app) as Hg. revert Hg.
  unfold categorize_step.
  destruct (list_find _ fs) as [[j tf]|] eqn:E.
  - case_decide as Hin.
    + intros _. simpl. unfold placed. by rewrite E.
    + simpl. intros Hg. unfold placed.
      rewrite <- (grows_getCategoryForApp app _ _ Hg).
      destruct (grows_find_Some _ _ _ _ _ Hg E) as (g & Hfind & _).
      rewrite Hfind. apply list_find_Some in Hfind as (Hlook & _).
      apply list_find_Some in E as (Hlook' & _).
      rewrite list_lookup_insert_eq in Hlook by by eapply lookup_lt_Some.
      simplify_eq. simpl. set_solver.
  - intros _. simpl. unfold placed. by rewrite E.
Qed.

Lemma categorize_step_keys fs um app k :
  is_Some (um !! k) → is_Some ((categorize_step (fs, um) app).2 !! k).
Proof.
  unfold categorize_step.
  destruct (list_find _ fs) as [[j tf]|]; [|done].
  case_decide; [done|]. simpl. intros Hk. by apply assign_is_Some.
Qed.

(** After the loop every application it went through is placed, the folders
    have only grown, and no key of the mapping table is lost. *)
Lemma categorize_loop apps fs um :
  let st := foldl categorize_step (fs, um) apps in
  (∀ app, app ∈ apps → placed app st.1)
  ∧ grows fs st.1
  ∧ (∀ k, is_Some (um !! k) → is_Some (st.2 !! k)).
Proof.
  revert fs um. induction apps as [|app apps IH]; intros fs um; cbn [foldl].
  - split_and!; [|apply grows_refl|done]. intros app Ha. by apply elem_of_nil in Ha.
  - pose proof (categorize_step_grows fs um app) as Hg.
    pose proof (categorize_step_placed fs um app) as Hp.
    pose proof (categorize_step_keys fs um app) as Hk.
    destruct (categorize_step (fs, um) app) as [fs' um'] eqn:E. simpl in *.
    destruct (IH fs' um') as (IH1 & IH2 & IH3).
    split_and!.
    + intros a [->|Ha]%elem_of_cons; [|by apply IH1].
      by eapply placed_grows.
    + by eapply grows_trans.
    + intros k Hin. by apply IH3, Hk.
Qed.

Lemma categorize_step_noop fs um app :
  placed app fs → categorize_step (fs, um) app = (fs, um).
Proof.
  unfold placed, categorize_step.
  destruct (list_find _ fs) as [[j tf]|]; [|done].
  intros Hin. by rewrite decide_True.
Qed.

Lemma categorize_loop_noop apps fs um :
  (∀ app, app ∈ apps → placed app fs) →
  foldl categorize_step (fs, um) apps = (fs, um).
Proof.
  induction apps as [|app apps IH]; intros Hp; [done|]. cbn [foldl].
  rewrite categorize_step_noop by (apply Hp; by left).
  apply IH. intros a Ha. apply Hp. by right.
Qed.

(** Whenever the mapping table can be read (writes may fail), a second run
    on the folders the first run returned changes nothing. *)
Lemma autoCategorizeNewApps_rerun ft applications existingFolders s :
  getItem_fails ft STORAGE_KEY_APP_MAPPINGS = false →
  ∃ folders s1,
    autoCategorizeNewApps ft applications existingFolders s = (Ok folders, s1)
    ∧ autoCategorizeNewApps ft applications folders s1 = (Ok folders, s1).
Proof.
  intros Hread. rewrite autoCategorizeNewApps_unfold, Hread. simpl.
  destruct (categorize_loop (uncategorizedApps (stored_mappings s) applications)
              existingFolders (stored_mappings s)) as (Hplaced & _ & Hkeys).
  set (st := foldl categorize_step _ _) in *.
  eexists _, _. split; [reflexivity|].
  rewrite autoCategorizeNewApps_unfold, Hread. simpl.
  assert (∀ m, (∀ k, is_Some (stored_mappings s !! k) → is_Some (m !! k)) →
               foldl categorize_step (st.1, m) (uncategorizedApps m applications)
               = (st.1, m)) as Hnoop.
  { intros m Hm. apply categorize_loop_noop. intros app Ha. apply Hplaced.
    unfold uncategorizedApps in *. apply list_elem_of_filter in Ha as [Hnone Hin].
    apply list_elem_of_filter. split; [|done].
    destruct (stored_mappings s !! App.id app) eqn:E; [|done].
    destruct (Hm (App.id app)) as [? ?]; [by eexists|congruence]. }
  destruct (setItem_fails ft STORAGE_KEY_APP_MAPPINGS).
  - by rewrite Hnoop.
  - destruct (setItem_fails ft STORAGE_KEY_FOLDERS).
    + change (stored_mappings (write_app_mappings (Some st.2) s)) with st.2.
      rewrite Hnoop by done. by destruct s.
    + change (stored_mappings (write_folders (Some st.1)
                                 (write_app_mappings (Some st.2) s))) with st.2.
      rewrite Hnoop by done. by destruct s.
Qed.

(** C7: for every application list, folder list and store, the first run of
    [autoCategorizeNewApps] returns folders and saves them with the mapping
    table; a second run with the same applications, on the folders the first
    run returned (which are the stored folders), returns the same folders and
    leaves the store, hence folders and mapping table, exactly as the first
    run left it. *)
Theorem autoCategorizeNewApps_idempotent applications existingFolders s clock :
  ∃ folders mappings s1,
    autoCategorizeNewApps no_faults applications existingFolders s = (Ok folders, s1)
    ∧ launchmat_folders s1 = Some folders
    ∧ launchmat_app_mappings s1 = Some mappings
    ∧ loadFolders no_faults clock s1 = (Ok folders, s1)
    ∧ autoCategorizeNewApps no_faults applications folders s1 = (Ok folders, s1).
Proof.
  destruct (autoCategorizeNewApps_rerun no_faults applications existingFolders s)
    as (folders & s1 & Hrun & Hrerun); [done|].
  pose proof Hrun as Hstore. rewrite autoCategorizeNewApps_unfold in Hstore.
  simpl in Hstore. injection Hstore as Hfolders Hs1.
  exists folders, (foldl categorize_step (existingFolders, stored_mappings s)
                     (uncategorizedApps (stored_mappings s) applications)).2, s1.
  split_and!; [done| | | |done].
  - by rewrite <- Hs1, <- Hfolders.
  - by rewrite <- Hs1.
  - rewrite loadFolders_ok. unfold stored_folders.
    by rewrite <- Hs1, <- Hfolders.
Qed.

(** ** Folder-membership exclusivity (C1) *)

Lemma holders_cons a f fs :
  holders a (f :: fs)
  = if decide (a ∈ Folder.applicationIds f) then f :: holders a fs
    else holders a fs.
Proof. unfold holders. by rewrite filter_cons. Qed.

Lemma holders_nil_iff a fs :
  holders a fs = [] ↔ ∀ l, l ∈ memberships fs → a ∉ l.
Proof.
  unfold memberships. induction fs as [|f fs IH].
  - split; [|done]. intros _ l Hl. by apply elem_of_nil in Hl.
  - rewrite holders_cons, fmap_cons. case_decide as Hin.
    + split; [done|]. intros H. destruct (H (Folder.applicationIds f)); [by left|done].
    + rewrite IH. split.
      * intros H l [->|Hl]%elem_of_cons; [done|by apply H].
      * intros H l Hl. apply H. by right.
Qed.

(** Exclusivity, counted per application id, is disjointness of the
    membership lists. *)
Lemma exclusive_disjoint fs : exclusive fs ↔ disjoint_lists (memberships fs).
Proof.
  unfold exclusive, disjoint_lists, memberships. induction fs as [|f fs IH].
  - split; [|by intros; simpl; lia]. intros _ i j l k a Hi. by destruct i.
  - split.
    + intros Hex i j l k a Hi Hj Hl Hk.
      assert (∀ a, (length (holders a fs) ≤ 1)%nat) as Hex'.
      { intros b. specialize (Hex b). rewrite holders_cons in Hex.
        case_decide; simpl in Hex; lia. }
      assert (∀ n m, (Folder.applicationIds <$> fs) !! n = Some m → a ∈ m →
                     a ∈ Folder.applicationIds f → False) as Hclash.
      { intros n m Hn Hm Hf. specialize (Hex a). rewrite holders_cons in Hex.
        rewrite decide_True in Hex by done. simpl in Hex.
        assert (holders a fs = []) as Hnil
          by (destruct (holders a fs); [done|simpl in Hex; lia]).
        rewrite holders_nil_iff in Hnil.
        apply (Hnil m); [|done]. by eapply list_elem_of_lookup_2. }
      destruct i as [|i], j as [|j]; simpl in *; simplify_eq; [done|..].
      * by destruct (Hclash j k).
      * by destruct (Hclash i l).
      * f_equal. by eapply (proj1 IH Hex').
    + intros Hdis a. rewrite holders_cons.
      assert (∀ a, (length (holders a fs) ≤ 1)%nat) as Hex'.
      { apply (proj2 IH). intros i j l k b Hi Hj Hl Hk.
        assert (S i = S j) by (by eapply (Hdis (S i) (S j))). lia. }
      case_decide as Hin; [|done].
      assert (holders a fs = []) as ->; [|simpl; lia].
      apply holders_nil_iff. intros l [n Hn]%list_elem_of_lookup Hl.
      assert (0%nat = S n) by (by eapply (Hdis 0%nat (S n))). lia.
Qed.

Lemma covered_keyed m fs : covered m fs ↔ keyed m (memberships fs).
Proof.
  unfold covered, keyed, memberships. split.
  - intros H l a (f & -> & Hf)%list_elem_of_fmap. by apply H.
  - intros H f a Hf. apply H, list_elem_of_fmap. by exists f.
Qed.

Lemma memberships_insert fs i f ids :
  memberships (<[i := Folder.set_applicationIds ids f]> fs)
  = <[i := ids]> (memberships fs).
Proof. unfold memberships. by rewrite list_fmap_insert. Qed.

Lemma memberships_set_position fs i f p :
  fs !! i = Some f →
  memberships (<[i := Folder.set_position p f]> fs) = memberships fs.
Proof.
  intros Hlook. unfold memberships. rewrite list_fmap_insert. simpl.
  apply list_insert_id. by rewrite list_lookup_fmap, Hlook.
Qed.

(** *** Disjointness under the updates the operations make *)

Lemma disjoint_lists_snoc_nil ls : disjoint_lists ls → disjoint_lists (ls ++ [[]]).
Proof.
  intros Hdis i j l k a Hi Hj Hl Hk.
  apply lookup_app_Some in Hi as [Hi|[_ Hi]]; last first.
  { apply list_lookup_singleton_Some in Hi as [_ <-]. by apply elem_of_nil in Hl. }
  apply lookup_app_Some in Hj as [Hj|[_ Hj]]; last first.
  { apply list_lookup_singleton_Some in Hj as [_ <-]. by apply elem_of_nil in Hk. }
  by eapply Hdis.
Qed.

Lemma disjoint_lists_delete ls d : disjoint_lists ls → disjoint_lists (delete d ls).
Proof.
  intros Hdis i j l k a. rewrite !list_lookup_delete. intros Hi Hj Hl Hk.
  specialize (Hdis _ _ _ _ _ Hi Hj Hl Hk). repeat case_decide; lia.
Qed.

(** Ids move into the list at [o] only from the list at [d], which is then
    deleted. *)
Lemma disjoint_lists_merge ls d o from into into' :
  disjoint_lists ls → ls !! d = Some from → ls !! o = Some into →
  (∀ a, a ∈ into' → a ∈ into ∨ a ∈ from) →
  disjoint_lists (delete d (<[o := into']> ls)).
Proof.
  intros Hdis Hd Ho Hinto i j l k a. rewrite !list_lookup_delete.
  set (i' := if decide (i < d)%nat then i else S i).
  set (j' := if decide (j < d)%nat then j else S j).
  intros Hi Hj Hl Hk.
  assert (i' ≠ d ∧ j' ≠ d) as [Hid Hjd] by (unfold i', j'; repeat case_decide; lia).
  assert (∀ n m, n ≠ d → <[o := into']> ls !! n = Some m → a ∈ m →
                 ∃ n' m', ls !! n' = Some m' ∧ a ∈ m' ∧ (n' = n ∨ (n' = d ∧ n = o)))
    as Horigin.
  { intros n m Hnd Hn Hm.
    apply list_lookup_insert_Some in Hn as [(-> & <- & _)|[Hno Hn]].
    - destruct (Hinto _ Hm); [exists n, into|exists d, from]; naive_solver.
    - exists n, m. naive_solver. }
  destruct (Horigin _ _ Hid Hi Hl) as (i0 & l0 & Hi0 & Hl0 & Hci).
  destruct (Horigin _ _ Hjd Hj Hk) as (j0 & k0 & Hj0 & Hk0 & Hcj).
  pose proof (Hdis _ _ _ _ _ Hi0 Hj0 Hl0 Hk0).
  assert (i' = j') by (destruct Hci as [?|[? ?]], Hcj as [?|[? ?]]; lia).
  unfold i', j' in *. repeat case_decide; lia.
Qed.

(** Adding to the list at [j] an id that no other list holds. *)
Lemma disjoint_lists_add ls j l l' a :
  disjoint_lists ls → ls !! j = Some l →
  (∀ b, b ∈ l' → b ∈ l ∨ b = a) →
  (∀ n m, ls !! n = Some m → a ∈ m → n = j) →
  disjoint_lists (<[j := l']> ls).
Proof.
  intros Hdis Hj Hl' Honly i1 i2 m1 m2 b Hi1 Hi2 Hm1 Hm2.
  assert (∀ n m, <[j := l']> ls !! n = Some m → b ∈ m →
                 (∃ m', ls !! n = Some m' ∧ b ∈ m') ∨ (n = j ∧ b = a)) as Horigin.
  { intros n m Hn Hm.
    apply list_lookup_insert_Some in Hn as [(-> & <- & _)|[Hno Hn]]; [|by eauto].
    destruct (Hl' _ Hm); [left; by eauto|by right]. }
  destruct (Horigin _ _ Hi1 Hm1) as [(m1' & H1 & Hb1)|[E1 Ea1]],
           (Horigin _ _ Hi2 Hm2) as [(m2' & H2 & Hb2)|[E2 Ea2]]; subst.
  - by eapply Hdis.
  - by eapply Honly.
  - symmetry. by eapply Honly.
  - done.
Qed.

Lemma disjoint_lists_shrink ls i l l' :
  disjoint_lists ls → ls !! i = Some l → l' ⊆ l →
  disjoint_lists (<[i := l']> ls).
Proof.
  intros Hdis Hi Hsub i1 i2 m1 m2 b Hi1 Hi2 Hm1 Hm2.
  assert (∀ n m, <[i := l']> ls !! n = Some m → b ∈ m →
                 ∃ m', ls !! n = Some m' ∧ b ∈ m') as Horigin.
  { intros n m Hn Hm.
    apply list_lookup_insert_Some in Hn as [(-> & <- & _)|[Hno Hn]]; [|by eauto].
    exists l. split; [done|set_solver]. }
  destruct (Horigin _ _ Hi1 Hm1) as (m1' & H1 & Hb1),
           (Horigin _ _ Hi2 Hm2) as (m2' & H2 & Hb2).
  by eapply Hdis.
Qed.

Lemma elem_of_list_insert_inv {A} (l : list A) i x y :
  y ∈ <[i := x]> l → y = x ∨ y ∈ l.
Proof.
  intros [n Hn]%list_elem_of_lookup.
  apply list_lookup_insert_Some in Hn as [(_ & -> & _)|[_ Hn]]; [by left|].
  right. by eapply list_elem_of_lookup_2.
Qed.

(** Coverage carries over to new lists and a new table when no key is lost
    and every id in a new list is old or a key. *)
Lemma keyed_transfer m m' ls ls' :
  keyed m ls →
  (∀ k, is_Some (m !! k) → is_Some (m' !! k)) →
  (∀ l' b, l' ∈ ls' → b ∈ l' → (∃ l, l ∈ ls ∧ b ∈ l) ∨ is_Some (m' !! b)) →
  keyed m' ls'.
Proof.
  intros Hk Hmono Horigin l' b Hl' Hb.
  destruct (Horigin _ _ Hl' Hb) as [(l & Hl & Hbl)|?]; [|done].
  by eapply Hmono, Hk.
Qed.

(** The index at which a folder id is found only depends on the ids. *)
Lemma found_at_ids x fs i :
  found_at x fs i ↔ fst <$> list_find (λ k, k = x) (folder_ids fs) = Some i.
Proof.
  unfold found_at, folder_ids. rewrite list_find_fmap.
  change ((λ k, k = x) ∘ Folder.id) with (has_id x).
  destruct (list_find (has_id x) fs) as [[j f]|]; simpl.
  - split; [by intros (g & [= -> ->])|intros [= ->]; by eauto].
  - split; [by intros (g & ?)|done].
Qed.

Lemma found_at_same_ids x fs fs' i :
  folder_ids fs = folder_ids fs' → found_at x fs i → found_at x fs' i.
Proof. intros E. rewrite !found_at_ids. by rewrite E. Qed.

Lemma folder_ids_set_applicationIds fs i f ids :
  fs !! i = Some f →
  folder_ids (<[i := Folder.set_applicationIds ids f]> fs) = folder_ids fs.
Proof. intros H. by apply (folder_ids_insert _ _ f). Qed.

Lemma folder_ids_set_position fs i f p :
  fs !! i = Some f →
  folder_ids (<[i := Folder.set_position p f]> fs) = folder_ids fs.
Proof. intros H. by apply (folder_ids_insert _ _ f). Qed.

(** *** [moveAppToFolder] *)

Lemma remove_from_folder_ids a from fs :
  folder_ids (remove_from_folder a from fs) = folder_ids fs.
Proof.
  unfold remove_from_folder. destruct (truthy from) as [fid|]; [|done].
  destruct (list_find _ fs) as [[i ff]|] eqn:E; [|done].
  apply list_find_Some in E as (Hlook & _).
  by apply folder_ids_set_applicationIds.
Qed.

(** After the removal the lists are still disjoint, every list is a part of
    the list it was, and the source folder does not hold the id. *)
Lemma remove_from_folder_memberships a from fs :
  disjoint_lists (memberships fs) →
  disjoint_lists (memberships (remove_from_folder a from fs))
  ∧ (∀ n l', memberships (remove_from_folder a from fs) !! n = Some l' →
             ∃ l, memberships fs !! n = Some l ∧ l' ⊆ l
                  ∧ (a ∈ l' → ¬ ∃ fid, truthy from = Some fid ∧ found_at fid fs n)).
Proof.
  intros Hdis. unfold remove_from_folder.
  destruct (truthy from) as [fid|]; last first.
  { split; [done|]. intros n l' Hn. exists l'. split_and!; [done..|].
    by intros _ (? & ? & _). }
  destruct (list_find _ fs) as [[i ff]|] eqn:E; last first.
  { split; [done|]. intros n l' Hn. exists l'. split_and!; [done..|].
    intros _ (? & [= <-] & (g & Hg)). congruence. }
  pose proof E as (Hlook & _)%list_find_Some.
  assert (memberships fs !! i = Some (Folder.applicationIds ff)) as Hi
    by (unfold memberships; by rewrite list_lookup_fmap, Hlook).
  rewrite memberships_insert. split.
  - eapply disjoint_lists_shrink; [done..|].
    intros b Hb. by apply list_elem_of_filter in Hb as [_ ?].
  - intros n l' Hn.
    apply list_lookup_insert_Some in Hn as [(<- & <- & _)|[Hne Hn]].
    + eexists. split_and!; [done| |].
      * intros b Hb. by apply list_elem_of_filter in Hb as [_ ?].
      * intros Hin. by apply list_elem_of_filter in Hin as [? _].
    + exists l'. split_and!; [done..|].
      intros _ (? & [= <-] & (g & Hg)). congruence.
Qed.

Lemma push_unique_elem l a b : b ∈ push_unique l a ↔ b ∈ l ∨ b = a.
Proof. unfold push_unique. case_decide; set_solver. Qed.

Lemma moved_folders_exclusive a from to fs :
  exclusive fs →
  (∀ i f, fs !! i = Some f → a ∈ Folder.applicationIds f →
          (∃ fid, truthy from = Some fid ∧ found_at fid fs i) ∨ found_at to fs i) →
  exclusive (add_to_folder a to (remove_from_folder a from fs)).
Proof.
  rewrite !exclusive_disjoint. intros Hdis Hok.
  destruct (remove_from_folder_memberships a from fs Hdis) as [Hdis1 Hpart].
  pose proof (remove_from_folder_ids a from fs) as Hids.
  set (fs1 := remove_from_folder a from fs) in *.
  unfold add_to_folder.
  destruct (list_find (has_id to) fs1) as [[j tf]|] eqn:E; [|done].
  pose proof E as (Hlook & _)%list_find_Some.
  rewrite memberships_insert.
  eapply disjoint_lists_add; [done| | |].
  - unfold memberships. by rewrite list_lookup_fmap, Hlook.
  - intros b. by rewrite push_unique_elem.
  - intros n l' Hn Hin.
    destruct (Hpart _ _ Hn) as (l & Hl & Hsub & Hnot).
    unfold memberships in Hl. rewrite list_lookup_fmap in Hl.
    destruct (fs !! n) as [f|] eqn:Hf; [|done]. simpl in Hl. simplify_eq.
    destruct (Hok n f Hf (Hsub _ Hin)) as [Hfrom|Hto].
    + by destruct (Hnot Hin).
    + apply (found_at_same_ids _ _ fs1) in Hto; [|done].
      destruct Hto as (g & Hg). congruence.
Qed.

Lemma moved_folders_covered a from to fs m :
  assignable a m → covered m fs →
  covered (assign a to m) (add_to_folder a to (remove_from_folder a from fs)).
Proof.
  rewrite !covered_keyed. intros Hok Hk.
  eapply keyed_transfer; [done| |].
  - intros k Hin. by apply assign_is_Some.
  - intros l' b Hl' Hb.
    destruct (decide (b = a)) as [->|Hne];
      [right; by rewrite assign_lookup_eq|].
    left.
    assert (∀ l1, l1 ∈ memberships (remove_from_folder a from fs) → b ∈ l1 →
                  ∃ l, l ∈ memberships fs ∧ b ∈ l) as Hrem.
    { intros l1 Hl1 Hb1. unfold remove_from_folder in Hl1.
      destruct (truthy from) as [fid|]; [|by eauto].
      destruct (list_find _ fs) as [[i ff]|] eqn:E; [|by eauto].
      apply list_find_Some in E as (Hlook & _).
      rewrite memberships_insert in Hl1.
      apply elem_of_list_insert_inv in Hl1 as [->|?]; [|by eauto].
      exists (Folder.applicationIds ff). split.
      - apply list_elem_of_fmap. exists ff. split; [done|].
        by eapply list_elem_of_lookup_2.
      - by apply list_elem_of_filter in Hb1 as [_ ?]. }
    unfold add_to_folder in Hl'.
    destruct (list_find (has_id to) _) as [[j tf]|] eqn:E; [|by eauto].
    apply list_find_Some in E as (Hlook & _).
    rewrite memberships_insert in Hl'.
    apply elem_of_list_insert_inv in Hl' as [->|?]; [|by eauto].
    apply push_unique_elem in Hb as [Hb|?]; [|done].
    apply (Hrem (Folder.applicationIds tf)); [|done].
    apply list_elem_of_fmap. exists tf. split; [done|].
    by eapply list_elem_of_lookup_2.
Qed.

(** *** [createFolder] *)

Lemma created_folders_exclusive fs f :
  Folder.applicationIds f = [] → exclusive fs → exclusive (fs ++ [f]).
Proof.
  rewrite !exclusive_disjoint. intros Hnil Hdis.
  unfold memberships. rewrite fmap_app. simpl. rewrite Hnil.
  by apply disjoint_lists_snoc_nil.
Qed.

Lemma created_folders_covered m fs f :
  Folder.applicationIds f = [] → covered m fs → covered m (fs ++ [f]).
Proof.
  intros Hnil Hc g a [Hg|Hg]%elem_of_app Ha; [by eapply Hc|].
  apply list_elem_of_singleton in Hg as ->. rewrite Hnil in Ha.
  by apply elem_of_nil in Ha.
Qed.

(** *** [deleteFolder] *)

Lemma deleted_folders_invariant fs m d folder :
  fs !! d = Some folder → exclusive fs → covered m fs →
  match list_find (has_id "folder_other") fs with
  | Some (o, otherFolder) =>
      let st := reassign_to_other (Folder.applicationIds folder)
                  (Folder.applicationIds otherFolder, m) in
      exclusive (delete d (<[o := Folder.set_applicationIds st.1 otherFolder]> fs))
      ∧ covered st.2 (delete d (<[o := Folder.set_applicationIds st.1 otherFolder]> fs))
  | None => exclusive (delete d fs) ∧ covered m (delete d fs)
  end.
Proof.
  rewrite !exclusive_disjoint, covered_keyed. intros Hd Hdis Hk.
  destruct (list_find _ fs) as [[o other]|] eqn:E.
  - pose proof E as (Ho & _)%list_find_Some.
    destruct (reassign_to_other_spec (Folder.applicationIds folder)
                (Folder.applicationIds other) m) as (Hids & Hmap & Hkeep & _).
    set (st := reassign_to_other _ _) in *. cbn zeta.
    rewrite exclusive_disjoint, covered_keyed.
    unfold memberships at 1 2. rewrite !list_fmap_delete.
    fold (memberships (<[o:=Folder.set_applicationIds st.1 other]> fs)).
    rewrite memberships_insert. split.
    + eapply disjoint_lists_merge; [done|..].
      * unfold memberships. by rewrite list_lookup_fmap, Hd.
      * unfold memberships. by rewrite list_lookup_fmap, Ho.
      * intros a. by rewrite Hids.
    + assert (∀ k, is_Some (m !! k) → is_Some (st.2 !! k)) as Hmono.
      { intros k Hin.
        destruct (decide (k ∈ Folder.applicationIds folder)).
        - rewrite Hmap; [done|done|by right].
        - by rewrite Hkeep. }
      eapply keyed_transfer; [done..|].
      intros l' b Hl'%list_elem_of_delete_inv Hb.
      apply elem_of_list_insert_inv in Hl' as [->|?]; [|left; by eauto].
      right. apply Hids in Hb as [Hb|Hb].
      * apply Hmono, (Hk (Folder.applicationIds other)); [|done].
        apply list_elem_of_fmap. exists other. split; [done|].
        by eapply list_elem_of_lookup_2.
      * apply Hmono, (Hk (Folder.applicationIds folder)); [|done].
        apply list_elem_of_fmap. exists folder. split; [done|].
        by eapply list_elem_of_lookup_2.
  - rewrite exclusive_disjoint, covered_keyed.
    unfold memberships at 1 2. rewrite !list_fmap_delete. split.
    + by apply disjoint_lists_delete.
    + intros l a Hl%list_elem_of_delete_inv. by apply Hk.
Qed.

(** *** [reorderFolders] *)

Lemma reposition_memberships fs entry :
  memberships (reposition fs entry) = memberships fs.
Proof.
  unfold reposition. destruct (list_find _ fs) as [[i f]|] eqn:E; [|done].
  apply list_find_Some in E as (Hlook & _). by apply memberships_set_position.
Qed.

Lemma reposition_ids fs entry : folder_ids (reposition fs entry) = folder_ids fs.
Proof.
  unfold reposition. destruct (list_find _ fs) as [[i f]|] eqn:E; [|done].
  apply list_find_Some in E as (Hlook & _). by apply folder_ids_set_position.
Qed.

Lemma repositions_memberships entries fs :
  memberships (foldl reposition fs entries) = memberships fs.
Proof.
  revert fs. induction entries as [|e entries IH]; intros fs; [done|].
  cbn [foldl]. by rewrite IH, reposition_memberships.
Qed.

Lemma repositions_ids entries fs :
  folder_ids (foldl reposition fs entries) = folder_ids fs.
Proof.
  revert fs. induction entries as [|e entries IH]; intros fs; [done|].
  cbn [foldl]. by rewrite IH, reposition_ids.
Qed.

Lemma insert_by_position_perm f l : insert_by_position f l ≡ₚ f :: l.
Proof.
  induction l as [|g l IH]; [done|]. simpl. case_decide; [|done].
  rewrite IH. apply Permutation_swap.
Qed.

Lemma sort_by_position_perm l : sort_by_position l ≡ₚ l.
Proof.
  induction l as [|f l IH]; [done|]. simpl.
  by rewrite insert_by_position_perm, IH.
Qed.

Lemma exclusive_perm fs fs' : fs ≡ₚ fs' → exclusive fs → exclusive fs'.
Proof. intros Hp Hex a. unfold holders. rewrite <- Hp. apply Hex. Qed.

Lemma covered_perm m fs fs' : fs ≡ₚ fs' → covered m fs → covered m fs'.
Proof. intros Hp Hc f a Hf. apply Hc. by rewrite Hp. Qed.

Lemma exclusive_same_memberships fs fs' :
  memberships fs = memberships fs' → exclusive fs → exclusive fs'.
Proof. intros E. rewrite !exclusive_disjoint. by rewrite E. Qed.

Lemma covered_same_memberships m fs fs' :
  memberships fs = memberships fs' → covered m fs → covered m fs'.
Proof. intros E. rewrite !covered_keyed. by rewrite E. Qed.

Lemma reordered_folders_invariant m fs folderIds :
  exclusive fs → covered m fs →
  exclusive (sort_by_position (foldl reposition fs (imap pair folderIds)))
  ∧ covered m (sort_by_position (foldl reposition fs (imap pair folderIds))).
Proof.
  intros Hex Hc. split.
  - eapply exclusive_perm; [symmetry; apply sort_by_position_perm|].
    eapply exclusive_same_memberships; [|done].
    by rewrite repositions_memberships.
  - eapply covered_perm; [symmetry; apply sort_by_position_perm|].
    eapply covered_same_memberships; [|done].
    by rewrite repositions_memberships.
Qed.

(** *** [autoCategorizeNewApps] *)

Lemma categorize_step_invariant fs um app :
  exclusive fs → covered um fs → um !! App.id app = None →
  App.id app ≠ "__proto__" →
  exclusive (categorize_step (fs, um) app).1
  ∧ covered (categorize_step (fs, um) app).2 (categorize_step (fs, um) app).1
  ∧ (∀ k, k ≠ App.id app →
          (categorize_step (fs, um) app).2 !! k = um !! k).
Proof.
  intros Hex Hc Hnone Hid. unfold categorize_step.
  destruct (list_find _ fs) as [[j tf]|] eqn:E; [|done].
  case_decide as Hin; [done|]. cbn [fst snd].
  pose proof E as (Hlook & _)%list_find_Some.
  assert (assignable (App.id app) um) as Hok by by left.
  split_and!.
  - revert Hex. rewrite !exclusive_disjoint, memberships_insert. intros Hdis.
    eapply (disjoint_lists_add _ _ _ _ (App.id app)); [done| | |].
    + unfold memberships. by rewrite list_lookup_fmap, Hlook.
    + intros b. simpl. set_solver.
    + intros n l Hn Hl. exfalso.
      apply covered_keyed in Hc.
      destruct (Hc l (App.id app)) as [? ?]; [|done|congruence].
      by eapply list_elem_of_lookup_2.
  - revert Hc. rewrite !covered_keyed, memberships_insert. intros Hk.
    eapply keyed_transfer; [done| |].
    + intros k Hk'. by apply assign_is_Some.
    + intros l' b Hl' Hb.
      apply elem_of_list_insert_inv in Hl' as [->|?]; [|left; by eauto].
      apply elem_of_app in Hb as [Hb|Hb];
        [|apply list_elem_of_singleton in Hb as ->;
          right; by rewrite assign_lookup_eq].
      left. exists (Folder.applicationIds tf). split; [|done].
      apply list_elem_of_fmap. exists tf. split; [done|].
      by eapply list_elem_of_lookup_2.
  - intros k Hne. by rewrite assign_lookup_ne.
Qed.

Lemma categorized_folders_invariant apps fs um :
  exclusive fs → covered um fs →
  NoDup (App.id <$> apps) → (∀ app, app ∈ apps → um !! App.id app = None) →
  "__proto__" ∉ App.id <$> apps →
  exclusive (foldl categorize_step (fs, um) apps).1
  ∧ covered (foldl categorize_step (fs, um) apps).2
            (foldl categorize_step (fs, um) apps).1.
Proof.
  revert fs um.
  induction apps as [|app apps IH]; intros fs um Hex Hc Hnd Hnew Hproto; [done|].
  cbn [foldl]. rewrite fmap_cons, not_elem_of_cons in Hproto.
  destruct Hproto as [Hproto Hrest].
  destruct (categorize_step_invariant fs um app) as (Hex' & Hc' & Hkeep);
    [done|done|apply Hnew; by left|done|].
  destruct (categorize_step (fs, um) app) as [fs' um']. simpl in *.
  apply NoDup_cons in Hnd as [Hnotin Hnd].
  apply IH; [done..| |done].
  intros a Ha. rewrite Hkeep.
  - apply Hnew. by right.
  - intros E. apply Hnotin. rewrite <- E. apply list_elem_of_fmap. by exists a.
Qed.

Lemma uncategorizedApps_ids m apps a :
  a ∈ App.id <$> uncategorizedApps m apps → a ∈ App.id <$> apps.
Proof.
  intros (app & -> & [_ Hin]%list_elem_of_filter)%list_elem_of_fmap.
  apply list_elem_of_fmap. by exists app.
Qed.

Lemma uncategorizedApps_NoDup m apps :
  NoDup (App.id <$> apps) → NoDup (App.id <$> uncategorizedApps m apps).
Proof.
  unfold uncategorizedApps. induction apps as [|a apps IH]; [done|].
  rewrite fmap_cons, NoDup_cons. intros [Hnotin Hnd].
  rewrite filter_cons. case_decide; [|by apply IH].
  rewrite fmap_cons, NoDup_cons. split; [|by apply IH].
  intros (b & Hb & Hin)%list_elem_of_fmap. apply Hnotin.
  apply list_elem_of_fmap. exists b. split; [done|].
  by apply list_elem_of_filter in Hin as [_ ?].
Qed.

(** *** The operations on a backend that answers *)

Lemma moveAppToFolder_ok clock s appId fromFolderId toFolderId :
  moveAppToFolder no_faults clock appId fromFolderId toFolderId s
  = (Ok tt,
     write_app_mappings (Some (assign appId toFolderId (stored_mappings s)))
       (write_folders
          (Some (add_to_folder appId toFolderId
                   (remove_from_folder appId fromFolderId (stored_folders clock s))))
          s)).
Proof.
  unfold moveAppToFolder.
  unfold try_catch at 1. unfold mbind at 1. unfold M_bind at 1. unfold bind at 1.
  by rewrite loadFolders_ok.
Qed.

Lemma createFolder_ok clock s name color icon :
  createFolder no_faults clock name color icon s
  = let newFolder :=
      Folder.mk (new_folder_id clock) name color icon []
                (Z.of_nat (length (stored_folders clock s))) (toISOString clock) None in
    (Ok newFolder,
     write_folders (Some (stored_folders clock s ++ [newFolder])%list) s).
Proof.
  unfold createFolder.
  unfold try_catch at 1. unfold mbind at 1. unfold M_bind at 1. unfold bind at 1.
  by rewrite loadFolders_ok.
Qed.

Lemma reorderFolders_ok clock s folderIds :
  reorderFolders no_faults clock folderIds s
  = (Ok tt,
     write_folders
       (Some (sort_by_position
                (foldl reposition (stored_folders clock s) (imap pair folderIds))))
       s).
Proof.
  unfold reorderFolders.
  unfold try_catch at 1. unfold mbind at 1. unfold M_bind at 1. unfold bind at 1.
  by rewrite loadFolders_ok.
Qed.

Lemma autoCategorizeNewApps_ok s applications existingFolders :
  autoCategorizeNewApps no_faults applications existingFolders s
  = let st := foldl categorize_step (existingFolders, stored_mappings s)
                    (uncategorizedApps (stored_mappings s) applications) in
    (Ok st.1, write_folders (Some st.1) (write_app_mappings (Some st.2) s)).
Proof. by rewrite autoCategorizeNewApps_unfold. Qed.

Lemma exec_op_ok clock op s :
  exec_op no_faults s (clock, op)
  = match op with
    | MoveAppToFolder appId fromFolderId toFolderId =>
        (moveAppToFolder no_faults clock appId fromFolderId toFolderId s).2
    | CreateFolder name color icon =>
        (createFolder no_faults clock name color icon s).2
    | DeleteFolder folderId => (deleteFolder no_faults clock folderId s).2
    | ReorderFolders folderIds => (reorderFolders no_faults clock folderIds s).2
    | AutoCategorizeNewApps applications =>
        (autoCategorizeNewApps no_faults applications (stored_folders clock s) s).2
    end.
Proof.
  unfold exec_op, run_op. cbn [fst snd]. destruct op; try done.
  - unfold mbind, M_bind, bind. rewrite createFolder_ok. done.
  - unfold mbind at 1. unfold M_bind at 1. unfold bind at 1.
    rewrite loadFolders_ok.
    unfold mbind, M_bind, bind. by rewrite autoCategorizeNewApps_ok.
Qed.

Lemma store_invariant_folders s fs :
  exclusive fs → covered (stored_mappings s) fs →
  store_exclusive (write_folders (Some fs) s)
  ∧ store_covered (write_folders (Some fs) s).
Proof. intros Hex Hc. split; intros c; done. Qed.

Lemma store_invariant_both s fs m :
  exclusive fs → covered m fs →
  store_exclusive (write_app_mappings (Some m) (write_folders (Some fs) s))
  ∧ store_covered (write_app_mappings (Some m) (write_folders (Some fs) s)).
Proof. intros Hex Hc. split; intros c; done. Qed.

(** One operation keeps membership exclusive and covered by the mapping
    table. *)
Lemma membership_step clock op s :
  store_exclusive s → store_covered s → membership_ok clock op s →
  store_exclusive (exec_op no_faults s (clock, op))
  ∧ store_covered (exec_op no_faults s (clock, op)).
Proof.
  intros Hexs Hcs Hok. pose proof (Hexs clock) as Hex.
  pose proof (Hcs clock) as Hc. rewrite exec_op_ok. destruct op as [a from to|n c i|folderId|ids|apps];
    simpl in Hok.
  - rewrite moveAppToFolder_ok. cbn [snd]. destruct Hok as [Hassign Hsource].
    apply store_invariant_both;
      [by apply moved_folders_exclusive|by apply moved_folders_covered].
  - rewrite createFolder_ok. cbn [snd].
    apply store_invariant_folders;
      [by apply created_folders_exclusive|by apply created_folders_covered].
  - rewrite deleteFolder_ok.
    destruct (list_find (has_id folderId) _) as [[d folder]|] eqn:E; last first.
    { done. }
    pose proof E as (Hd & _)%list_find_Some.
    pose proof (deleted_folders_invariant _ _ _ _ Hd Hex Hc) as Hinv.
    destruct (list_find (has_id "folder_other") _) as [[o other]|];
      cbn [snd]; destruct Hinv; by apply store_invariant_both.
  - rewrite reorderFolders_ok. cbn [snd].
    destruct (reordered_folders_invariant (stored_mappings s) _ ids Hex Hc).
    by apply store_invariant_folders.
  - rewrite autoCategorizeNewApps_ok. cbn [snd]. destruct Hok as [Hnd Hproto].
    destruct (categorized_folders_invariant
                (uncategorizedApps (stored_mappings s) apps)
                (stored_folders clock s) (stored_mappings s)) as [Hex' Hc'];
      [done|done|by apply uncategorizedApps_NoDup| | |].
    + intros app Ha. unfold uncategorizedApps in Ha.
      by apply list_elem_of_filter in Ha as [? _].
    + intros Hin. by apply Hproto, (uncategorizedApps_ids (stored_mappings s)).
    + split; intros c'; done.
Qed.

(** Exclusivity can be checked on the ids that occur in the folders. *)
Lemma exclusive_check fs :
  Forall (λ a, (length (holders a fs) ≤ 1)%nat) (mjoin (memberships fs)) →
  exclusive fs.
Proof.
  intros HF a. destruct (holders a fs) as [|f hs] eqn:E; [simpl; lia|].
  rewrite <- E. rewrite Forall_forall in HF. apply HF.
  assert (f ∈ holders a fs) as Hf by (rewrite E; by left).
  apply list_elem_of_filter in Hf as [Ha Hf].
  apply list_elem_of_join. exists (Folder.applicationIds f). split; [done|].
  apply list_elem_of_fmap. by exists f.
Qed.

Lemma empty_storage_invariant :
  store_exclusive empty_storage ∧ store_covered empty_storage.
Proof.
  split; intros c.
  - apply exclusive_check. simpl. constructor.
  - intros f a Hf Ha. exfalso.
    assert (Forall (λ f, Folder.applicationIds f = []) (createDefaultFolders c)) as HF
      by (repeat constructor).
    rewrite Forall_forall in HF. rewrite (HF f Hf) in Ha. by apply elem_of_nil in Ha.
Qed.

(** C1, as stated, fails: [moveAppToFolder] with no source folder adds the
    application to the target and leaves it in the folder that held it. *)
Lemma moveAppToFolder_without_source_duplicates :
  store_exclusive
    (exec_ops no_faults
       [(sample_clock, MoveAppToFolder "app1" None "folder_other")] empty_storage)
  ∧ ¬ store_exclusive
        (exec_op no_faults
           (exec_ops no_faults
              [(sample_clock, MoveAppToFolder "app1" None "folder_other")]
              empty_storage)
           (sample_clock, MoveAppToFolder "app1" None "folder_games")).
Proof.
  split.
  - intros c. apply exclusive_check. compute_decision.
  - intros H. specialize (H sample_clock "app1"). vm_compute in H. lia.
Qed.

(** C1, amended: on a backend that answers, start from a store in which every
    application id is in at most one folder and every id held by a folder is a
    key of the mapping table.  Run any sequence of [moveAppToFolder],
    [createFolder], [deleteFolder], [reorderFolders] and
    [autoCategorizeNewApps] (on the stored folders) in which every move names
    as source the folder that holds the application, unless only the target
    holds it, and is for an id the mapping table records (any id but
    "__proto__", or one the table has an entry for), and every discovered
    list has each application id once and not the id "__proto__".  Then
    after each operation every application id is in at most one folder (and
    still a key of the mapping table). *)
Theorem membership_exclusive_preserved steps s :
  store_exclusive s → store_covered s →
  admissible membership_ok steps s →
  Forall (λ s', store_exclusive s' ∧ store_covered s')
         (trace_ops no_faults steps s).
Proof.
  revert s. induction steps as [|[clock op] steps IH]; intros s Hex Hc Hadm;
    [constructor|].
  destruct Hadm as [Hok Hadm]. cbn [trace_ops].
  destruct (membership_step clock op s Hex Hc Hok) as [Hex' Hc'].
  constructor; [done|]. by apply IH.
Qed.

Lemma membership_exclusive_preserved_witness :
  Forall (λ s', store_exclusive s' ∧ store_covered s')
         (trace_ops no_faults sample_session empty_storage).
Proof.
  apply membership_exclusive_preserved.
  - apply empty_storage_invariant.
  - apply empty_storage_invariant.
  - split; [|split; [|split; [|split]]]; try exact I.
    + simpl. split; compute_decision.
    + split; [by left|].
      intros i f Hi Hin. left. exists "folder_games". split; [done|].
      vm_compute in Hi.
      do 8 (destruct i as [|i];
            [injection Hi as <-; first [by apply elem_of_nil in Hin
                                        | eexists; by vm_compute]|]).
      discriminate Hi.
Defined.

(** ** Position density (C2) *)

(** C2, as stated, fails: [deleteFolder] does not renumber, so deleting
    "Games" from the default folders leaves the positions 0-4, 6, 7. *)
Lemma deleteFolder_leaves_position_gap :
  admissible ordering_ok [(sample_clock, DeleteFolder "folder_games")] empty_storage
  ∧ Folder.position
      <$> stored_folders sample_clock
            (exec_ops no_faults [(sample_clock, DeleteFolder "folder_games")]
                      empty_storage)
    = [0; 1; 2; 3; 4; 6; 7]
  ∧ ¬ dense (stored_folders sample_clock
               (exec_ops no_faults [(sample_clock, DeleteFolder "folder_games")]
                         empty_storage)).
Proof.
  split_and!; [done|by vm_compute|].
  intros H. apply (bool_decide_pack _) in H. by vm_compute in H.
Qed.

(** A list of [n] distinct positions, all among [0 .. n-1], is a permutation
    of [0 .. n-1]. *)
Lemma positions_pigeonhole (ps : list Z) :
  NoDup ps → (∀ p, p ∈ ps → ∃ i, (i < length ps)%nat ∧ p = Z.of_nat i) →
  ps ≡ₚ Z.of_nat <$> seq 0 (length ps).
Proof.
  intros Hnd Hbound. apply submseteq_length_Permutation.
  - apply NoDup_submseteq; [done|]. intros p (i & Hi & ->)%Hbound.
    apply list_elem_of_fmap. exists i. split; [done|]. apply elem_of_seq. lia.
  - by rewrite length_fmap, length_seq.
Qed.

Lemma NoDup_lookup_ids fs n m f g :
  NoDup (folder_ids fs) → fs !! n = Some f → fs !! m = Some g →
  Folder.id f = Folder.id g → n = m.
Proof.
  intros Hnd Hn Hm E. eapply (NoDup_lookup _ _ _ _ Hnd).
  - unfold folder_ids. by rewrite list_lookup_fmap, Hn.
  - unfold folder_ids. rewrite list_lookup_fmap, Hm. simpl. by rewrite E.
Qed.

(** What the [forEach] of [reorderFolders] does when the folder ids are
    distinct and the ids it is given are distinct ids of folders: the folder
    whose id is at index [i] gets position [g i], the others keep theirs. *)
Lemma repositions_spec (g : nat → nat) folderIds fs :
  NoDup (folder_ids fs) → NoDup folderIds →
  (∀ x, x ∈ folderIds → x ∈ folder_ids fs) →
  ∀ n f', foldl reposition fs (imap (λ i x, (g i, x)) folderIds) !! n = Some f' →
    ∃ f, fs !! n = Some f ∧ Folder.id f' = Folder.id f
         ∧ ((∃ i, folderIds !! i = Some (Folder.id f)
                  ∧ Folder.position f' = Z.of_nat (g i))
            ∨ (Folder.id f ∉ folderIds ∧ Folder.position f' = Folder.position f)).
Proof.
  revert g fs. induction folderIds as [|x ids IH]; intros g fs Hnd Hndi Hsub n f' Hn.
  { exists f'. split_and!; [done..|]. right. split; [|done]. apply not_elem_of_nil. }
  rewrite imap_cons in Hn. cbn [foldl] in Hn.
  apply NoDup_cons in Hndi as [Hx Hndi].
  assert (x ∈ folder_ids fs) as (fx & Hfx & Hin)%list_elem_of_fmap
    by (apply Hsub; by left).
  destruct (list_find_elem_of (has_id x) fs fx Hin) as [[j f0] Hfind]; [done|].
  pose proof Hfind as (Hj & Hid0 & _)%list_find_Some.
  unfold reposition at 2 in Hn. cbn [snd fst] in Hn. rewrite Hfind in Hn.
  change ((λ i x, (g i, x)) ∘ S) with (λ i (x : string), ((g ∘ S) i, x)) in Hn.
  apply IH in Hn as (f1 & Hf1 & Hid1 & Hcase); [..|done|]; last first.
  { intros y Hy. rewrite folder_ids_set_position by done. apply Hsub. by right. }
  { by rewrite folder_ids_set_position. }
  apply list_lookup_insert_Some in Hf1 as [(<- & <- & _)|[Hne Hf1]].
  - exists f0. split_and!; [done|done|]. left. exists 0%nat. split.
    + simpl. by rewrite Hid0.
    + destruct Hcase as [(i & Hi & _)|[_ Hpos]]; [|done].
      simpl in Hi. rewrite Hid0 in Hi. destruct Hx. by eapply list_elem_of_lookup_2.
  - exists f1. split_and!; [done|done|].
    destruct Hcase as [(i & Hi & Hpos)|[Hnot Hpos]].
    + left. by exists (S i).
    + right. split; [|done]. apply not_elem_of_cons. split; [|done].
      intros E. apply Hne. eapply NoDup_lookup_ids; [done..|].
      unfold has_id in Hid0. congruence.
Qed.

Lemma repositions_dense folderIds fs :
  NoDup (folder_ids fs) → folderIds ≡ₚ folder_ids fs →
  dense (foldl reposition fs (imap pair folderIds)).
Proof.
  intros Hnd Hperm.
  assert (NoDup folderIds) as Hndi by by rewrite Hperm.
  assert (length folderIds = length fs) as Hlen
    by (rewrite Hperm; unfold folder_ids; by rewrite length_fmap).
  pose proof (repositions_spec (λ i, i) folderIds fs Hnd Hndi) as Hspec.
  change (imap (λ i x, (i, x)) folderIds) with (imap pair folderIds) in Hspec.
  assert (∀ x, x ∈ folderIds → x ∈ folder_ids fs) as Hsub
    by (intros x; by rewrite Hperm).
  specialize (Hspec Hsub).
  set (fs' := foldl reposition fs (imap pair folderIds)) in *.
  assert (length fs' = length fs) as Hlen'.
  { rewrite <- (length_fmap Folder.id fs'), <- (length_fmap Folder.id fs).
    fold (folder_ids fs') (folder_ids fs). unfold fs'. by rewrite repositions_ids. }
  assert (∀ n f', fs' !! n = Some f' →
            ∃ f i, fs !! n = Some f ∧ folderIds !! i = Some (Folder.id f)
                   ∧ Folder.position f' = Z.of_nat i) as Hpos.
  { intros n f' Hn. destruct (Hspec n f' Hn) as (f & Hf & _ & [(i & Hi & Hp)|[Hnot _]]).
    - by exists f, i.
    - destruct Hnot. rewrite Hperm. apply list_elem_of_fmap. exists f.
      split; [done|]. by eapply list_elem_of_lookup_2. }
  unfold dense. rewrite <- (length_fmap Folder.position fs').
  apply positions_pigeonhole.
  - apply NoDup_alt. intros n m p. rewrite !list_lookup_fmap.
    destruct (fs' !! n) as [f1|] eqn:E1; [|done].
    destruct (fs' !! m) as [f2|] eqn:E2; [|done]. simpl. intros [= <-] [= Hp].
    destruct (Hpos _ _ E1) as (g1 & i1 & Hg1 & Hi1 & Hp1).
    destruct (Hpos _ _ E2) as (g2 & i2 & Hg2 & Hi2 & Hp2).
    assert (i1 = i2) as -> by lia.
    eapply NoDup_lookup_ids; [done..|]. congruence.
  - intros p (f' & -> & [n Hn]%list_elem_of_lookup)%list_elem_of_fmap.
    destruct (Hpos _ _ Hn) as (f & i & _ & Hi & Hp).
    exists i. split; [|done]. rewrite length_fmap, Hlen', <- Hlen.
    by eapply lookup_lt_Some.
Qed.

Lemma dense_perm fs fs' : fs ≡ₚ fs' → dense fs → dense fs'.
Proof. unfold dense. intros Hp. by rewrite Hp. Qed.

Lemma dense_snoc fs f :
  Folder.position f = Z.of_nat (length fs) → dense fs → dense (fs ++ [f]).
Proof.
  unfold dense. intros Hpos Hd.
  rewrite fmap_app, length_app, Nat.add_1_r, seq_S, fmap_app. simpl.
  by rewrite Hd, Hpos.
Qed.

Lemma seeded_ordered s : seeded s → ordered_store true s.
Proof.
  intros Hs clock.
  assert (∀ c, NoDup (folder_ids (createDefaultFolders c))
               ∧ dense (createDefaultFolders c)) as Hdef.
  { intros c. split; [compute_decision|].
    unfold dense. simpl. done. }
  unfold stored_folders. destruct Hs as [->|[c ->]]; cbn [default];
    (split; [|intros _]); apply Hdef.
Qed.

Lemma ordered_store_folders b s fs :
  NoDup (folder_ids fs) → (b = true → dense fs) →
  ordered_store b (write_folders (Some fs) s).
Proof. intros Hnd Hd c. done. Qed.

Lemma ordered_store_both b s fs m :
  NoDup (folder_ids fs) → (b = true → dense fs) →
  ordered_store b (write_app_mappings (Some m) (write_folders (Some fs) s)).
Proof. intros Hnd Hd c. done. Qed.

(** One operation on the folders keeps the ids distinct; it keeps the
    positions dense unless it is a [deleteFolder], and makes them dense when
    it is a [reorderFolders]. *)
Lemma ordering_step clock op s b :
  ordered_store b s → ordering_ok clock op s →
  ordered_store (settle b (clock, op)) (exec_op no_faults s (clock, op)).
Proof.
  intros Hord Hok. destruct (Hord clock) as [Hnd Hdense].
  rewrite exec_op_ok. destruct op as [a from to|n c i|folderId|ids|apps];
    simpl in Hok; try done; unfold settle; cbn [snd].
  - rewrite createFolder_ok. cbn [snd]. apply ordered_store_folders.
    + unfold folder_ids. rewrite fmap_app. apply NoDup_app. split_and!; [done| |].
      * intros x Hx [->|Hnil%elem_of_nil]%elem_of_cons; [|done]. by apply Hok.
      * apply NoDup_singleton.
    + intros ->. apply dense_snoc; [done|by apply Hdense].
  - rewrite deleteFolder_ok.
    destruct (list_find (has_id folderId) _) as [[d folder]|] eqn:E; last first.
    { intros c'. split; [apply Hord|done]. }
    destruct (list_find (has_id "folder_other") _) as [[o other]|] eqn:Eo;
      cbn [snd]; (apply ordered_store_both; [|done]).
    + apply list_find_Some in Eo as (Ho & _).
      unfold folder_ids. rewrite list_fmap_delete.
      fold (folder_ids (<[o:=Folder.set_applicationIds
              (reassign_to_other (Folder.applicationIds folder)
                 (Folder.applicationIds other, stored_mappings s)).1 other]>
              (stored_folders clock s))).
      rewrite folder_ids_set_applicationIds by done.
      eapply sublist_NoDup; [done|apply sublist_delete].
    + unfold folder_ids. rewrite list_fmap_delete.
      eapply sublist_NoDup; [done|apply sublist_delete].
  - rewrite reorderFolders_ok. cbn [snd]. apply ordered_store_folders.
    + unfold folder_ids. rewrite sort_by_position_perm.
      fold (folder_ids (foldl reposition (stored_folders clock s) (imap pair ids))).
      by rewrite repositions_ids.
    + intros _. eapply dense_perm; [symmetry; apply sort_by_position_perm|].
      by apply repositions_dense.
Qed.

Lemma ordering_run steps s b :
  ordered_store b s → admissible ordering_ok steps s →
  ordered_store (foldl settle b steps) (exec_ops no_faults steps s).
Proof.
  revert s b. induction steps as [|[clock op] steps IH]; intros s b Hord Hadm;
    [done|].
  destruct Hadm as [Hok Hadm]. cbn [foldl exec_ops]. apply IH; [|done].
  by apply ordering_step.
Qed.

(** C2, amended: on a backend that answers, after any sequence of
    [createFolder], [deleteFolder] and [reorderFolders] operations that
    starts from the seeded default state, in which every [reorderFolders] is
    given exactly the current folder ids and every [createFolder] gets an id
    no folder has yet (it runs at a later millisecond), the positions of the
    stored folders are exactly [0 .. count-1] provided no [deleteFolder] has
    run since the last [reorderFolders]: [deleteFolder] does not renumber the
    remaining folders. *)
Theorem position_density steps s clock :
  seeded s → admissible ordering_ok steps s → settled steps = true →
  dense (stored_folders clock (exec_ops no_faults steps s)).
Proof.
  intros Hs Hadm Hsettled.
  destruct (ordering_run steps s true (seeded_ordered s Hs) Hadm clock) as [_ Hd].
  by apply Hd.
Qed.

Lemma position_density_witness :
  dense (stored_folders sample_clock
           (exec_ops no_faults sample_reordering empty_storage)).
Proof.
  apply position_density.
  - by left.
  - split; [|split; [|split; [|split]]]; try exact I;
      unfold ordering_ok; cbn [fst snd];
      compute_decision.
  - reflexivity.
Defined.

(** ** Scenarios of the specification, run on the model *)

(** A bundle whose identifier contains "xcode" is categorised as
    "Development"; [autoCategorizeNewApps] puts its id into
    [folder_development] and maps it there. *)
Example scenario_xcode :
  ∃ app folders s',
    scanApplicationsInDirectory xcode_host sample_clock "/Applications" = [app]
    ∧ App.name app = "Xcode"
    ∧ App.category app = Some "Development"
    ∧ autoCategorizeNewApps no_faults [app] (createDefaultFolders sample_clock)
        empty_storage = (Ok folders, s')
    ∧ (∃ i f, list_find (has_id "folder_development") folders = Some (i, f)
              ∧ Folder.applicationIds f = [App.id app])
    ∧ stored_mappings s' !! App.id app = Some "folder_development".
Proof.
  eexists _, _, _. split_and!; [by vm_compute..| |by vm_compute].
  eexists _, _. split; by vm_compute.
Qed.

(** [moveAppToFolder("app1", "folder_development", "folder_games")] removes
    "app1" from "Development", appends it to "Games" and maps it there. *)
Example scenario_move :
  ∃ s',
    moveAppToFolder no_faults sample_clock "app1" (Some "folder_development")
      "folder_games" store_with_app_in_development = (Ok tt, s')
    ∧ Folder.applicationIds <$> stored_folders sample_clock s'
      = [[]; []; []; []; []; ["app1"]; []; []]
    ∧ stored_mappings s' !! "app1" = Some "folder_games".
Proof. eexists. split_and!; by vm_compute. Qed.

(** [deleteFolder("folder_games")] when it holds "app1": the folder is gone,
    "app1" is in the catch-all folder and mapped to it. *)
Example scenario_delete :
  ∃ s',
    deleteFolder no_faults sample_clock "folder_games"
      (exec_ops no_faults
         [(sample_clock, MoveAppToFolder "app1" None "folder_games")] empty_storage)
    = (Ok tt, s')
    ∧ Folder.id <$> stored_folders sample_clock s'
      = [ "folder_productivity"; "folder_development"; "folder_graphics";
          "folder_entertainment"; "folder_utilities"; "folder_communication";
          "folder_other" ]
    ∧ Folder.applicationIds <$> stored_folders sample_clock s'
      = [[]; []; []; []; []; []; ["app1"]]
    ∧ stored_mappings s' !! "app1" = Some "folder_other".
Proof. eexists. split_and!; by vm_compute. Qed.

(** After a [deleteFolder], [createFolder] numbers the new folder with the
    folder count, a position that "Other" already has. *)
Example scenario_create_after_delete :
  Folder.position
    <$> stored_folders sample_clock
          (exec_ops no_faults
             [ (sample_clock, DeleteFolder "folder_games");
               (sample_clock, CreateFolder "Work" "#FF6B6B" "star") ]
             empty_storage)
  = [0; 1; 2; 3; 4; 6; 7; 7].
Proof. by vm_compute. Qed.

(** The id that the mapping object does not take: moved into "Games",
    "__proto__" gets no mapping entry, so a later discovery files it again,
    under its category, and it is in two folders. *)
Lemma scenario_proto_id :
  let app := App.mk "__proto__" "Proto" "com.example.proto" "/Applications/Proto.app"
                    None None (Some "Development") "2024-01-01T00:00:00.000Z" None in
  let s1 := exec_op no_faults empty_storage
              (sample_clock, MoveAppToFolder "__proto__" None "folder_games") in
  let s2 := exec_op no_faults s1 (sample_clock, AutoCategorizeNewApps [app]) in
  stored_mappings s1 !! "__proto__" = None
  ∧ memberships (stored_folders sample_clock s1)
    = [[]; []; []; []; []; ["__proto__"]; []; []]
  ∧ stored_mappings s2 !! "__proto__" = None
  ∧ memberships (stored_folders sample_clock s2)
    = [[]; ["__proto__"]; []; []; []; ["__proto__"]; []; []].
Proof. split_and!; by vm_compute. Qed.

(** * Further properties *)

(** ** Duplicates and comparison of scans *)

Section FilterUnseen.
Context {A : Type} (key : A → string).

Lemma filter_unseen_elem seen l x :
  x ∈ filter_unseen key seen l → x ∈ l ∧ key x ∉ seen.
Proof.
  revert seen. induction l as [|y l IH]; intros seen; simpl.
  - by intros ?%elem_of_nil.
  - case_decide as Hseen.
    + intros [? ?]%IH. split; [by right|done].
    + intros [->|[? ?]%IH]%elem_of_cons; [split; [by left|done]|].
      split; [by right|set_solver].
Qed.

Lemma filter_unseen_sublist seen l : filter_unseen key seen l `sublist_of` l.
Proof.
  revert seen. induction l as [|y l IH]; intros seen; simpl; [done|].
  case_decide; [by apply sublist_cons|by apply sublist_skip].
Qed.

Lemma filter_unseen_NoDup seen l : NoDup (key <$> filter_unseen key seen l).
Proof.
  revert seen. induction l as [|y l IH]; intros seen; simpl; [constructor|].
  case_decide; [done|]. rewrite fmap_cons. apply NoDup_cons. split; [|done].
  intros (x & Hk & [_ Hx]%filter_unseen_elem)%list_elem_of_fmap.
  rewrite <- Hk in Hx. set_solver.
Qed.

(** Every key that was not seen before is kept, with the first element that
    has it. *)
Lemma filter_unseen_first seen l x :
  x ∈ l → key x ∉ seen →
  ∃ i y, list_find (λ z, key z = key x) l = Some (i, y)
         ∧ y ∈ filter_unseen key seen l.
Proof.
  revert seen. induction l as [|z l IH]; intros seen Hin Hseen.
  { by apply elem_of_nil in Hin. }
  destruct (decide (key z = key x)) as [E|Hne].
  - exists 0%nat, z. split.
    + simpl. by rewrite decide_True.
    + simpl. rewrite decide_False by (by rewrite E). by left.
  - apply elem_of_cons in Hin as [->|Hin]; [done|].
    assert (key x ∉ {[key z]} ∪ seen) as Hseen' by set_solver.
    simpl. rewrite decide_False by done. case_decide.
    + destruct (IH seen Hin Hseen) as (i & y & -> & Hy). simpl. eauto.
    + destruct (IH _ Hin Hseen') as (i & y & -> & Hy). simpl.
      eexists _, _. split; [done|]. by right.
Qed.

(** What is kept is the first element of the list with its key. *)
Lemma filter_unseen_is_first seen l x :
  x ∈ filter_unseen key seen l →
  ∃ i, list_find (λ z, key z = key x) l = Some (i, x).
Proof.
  revert seen. induction l as [|z l IH]; intros seen; simpl.
  { by intros ?%elem_of_nil. }
  case_decide as Hz.
  - intros Hx. pose proof Hx as [_ Hseen]%filter_unseen_elem.
    destruct (IH _ Hx) as [i ->].
    rewrite decide_False by (intros E; by rewrite E in Hz). simpl. eauto.
  - intros [->|Hx]%elem_of_cons.
    + exists 0%nat. by rewrite decide_True.
    + pose proof Hx as [_ Hseen]%filter_unseen_elem.
      destruct (IH _ Hx) as [i ->].
      rewrite decide_False by set_solver. simpl. eauto.
Qed.

Lemma filter_unseen_id seen l :
  NoDup (key <$> l) → (∀ x, x ∈ l → key x ∉ seen) →
  filter_unseen key seen l = l.
Proof.
  revert seen. induction l as [|z l IH]; intros seen Hnd Hseen; [done|].
  simpl. rewrite fmap_cons in Hnd. apply NoDup_cons in Hnd as [Hz Hnd].
  rewrite decide_False by (apply Hseen; by left). f_equal.
  apply IH; [done|]. intros x Hx.
  assert (key x ≠ key z).
  { intros E. apply Hz. rewrite <- E. apply list_elem_of_fmap. by exists x. }
  assert (key x ∉ seen) by (apply Hseen; by right). set_solver.
Qed.
End FilterUnseen.

(** X1: [removeDuplicates] keeps the applications in their order, with distinct
    keys, the first application of each key and nothing else; applying it
    again changes nothing. *)
Theorem removeDuplicates_keeps_first applications :
  NoDup (app_key <$> removeDuplicates applications)
  ∧ removeDuplicates applications `sublist_of` applications
  ∧ (∀ app, app ∈ applications →
       ∃ i kept, list_find (λ a, app_key a = app_key app) applications
                 = Some (i, kept)
                 ∧ kept ∈ removeDuplicates applications)
  ∧ (∀ kept, kept ∈ removeDuplicates applications →
       ∃ i, list_find (λ a, app_key a = app_key kept) applications
            = Some (i, kept))
  ∧ removeDuplicates (removeDuplicates applications)
    = removeDuplicates applications.
Proof.
  unfold removeDuplicates. split_and!.
  - apply filter_unseen_NoDup.
  - apply filter_unseen_sublist.
  - intros app Hin. apply filter_unseen_first; [done|set_solver].
  - apply filter_unseen_is_first.
  - apply filter_unseen_id; [apply filter_unseen_NoDup|set_solver].
Qed.

Lemma set_elements_spec ids :
  NoDup (set_elements ids) ∧ ∀ i, i ∈ set_elements ids ↔ i ∈ ids.
Proof.
  unfold set_elements. split.
  - pose proof (filter_unseen_NoDup (λ i : string, i) ∅ ids) as H.
    by rewrite list_fmap_id in H.
  - intros i. split.
    + by intros [? _]%filter_unseen_elem.
    + intros Hin.
      destruct (filter_unseen_first (λ i : string, i) ∅ ids i Hin)
        as (n & y & (_ & Hy & _)%list_find_Some & Hkept); [set_solver|].
      by subst.
Qed.

(** X2: [compareApplications] is a set difference by id, in both directions: the
    new applications are the current ones whose id no previous application
    has; the removed ids are the previous ids no current application has,
    each listed once; a scan compared with itself has neither. *)
Theorem compareApplications_difference currentApps previousApps :
  scan_applications (compareApplications currentApps previousApps) = currentApps
  ∧ (∀ app, app ∈ newApplications (compareApplications currentApps previousApps)
            ↔ app ∈ currentApps ∧ App.id app ∉ App.id <$> previousApps)
  ∧ (∀ i, i ∈ removedApplications (compareApplications currentApps previousApps)
          ↔ i ∈ App.id <$> previousApps ∧ i ∉ App.id <$> currentApps)
  ∧ NoDup (removedApplications (compareApplications currentApps previousApps))
  ∧ newApplications (compareApplications currentApps currentApps) = []
  ∧ removedApplications (compareApplications currentApps currentApps) = [].
Proof.
  destruct (set_elements_spec (App.id <$> previousApps)) as [Hnd Hel].
  destruct (set_elements_spec (App.id <$> currentApps)) as [_ Hel'].
  unfold compareApplications. simpl. split_and!.
  - done.
  - intros app. rewrite list_elem_of_filter. tauto.
  - intros i. rewrite list_elem_of_filter, Hel. tauto.
  - by apply NoDup_filter.
  - apply elem_of_nil_inv. intros app [Hnot Hin]%list_elem_of_filter.
    apply Hnot, list_elem_of_fmap. by exists app.
  - apply elem_of_nil_inv. intros i [Hnot Hin]%list_elem_of_filter.
    by apply Hnot, Hel'.
Qed.

(** ** What application ids and records look like *)

(** X3: An application id consists of letters and digits only, whatever the
    path: it can serve as a key or file name without escaping. *)
Theorem generateAppId_alphanumeric appPath :
  Forall alphanumeric (list_ascii_of_string (generateAppId appPath)).
Proof.
  unfold generateAppId. rewrite list_ascii_of_string_of_list_ascii.
  apply Forall_forall. intros c [Hkeep Hin]%list_elem_of_filter.
  unfold base64 in Hin. apply elem_of_app in Hin as [Hin|Hin].
  - apply list_elem_of_fmap in Hin as (n & -> & Hn).
    assert (n < 64)%nat as Hlt.
    { pose proof (sextets_bound _ (utf8_bytes_bound appPath)) as HF.
      rewrite Forall_forall in HF. by apply HF. }
    assert (Forall (λ k, stripped (base64_char k) ∨ alphanumeric (base64_char k))
                   (seq 0 64)) as HF by compute_decision.
    rewrite Forall_forall in HF.
    destruct (HF n) as [?|?]; [apply elem_of_seq; lia|done..].
  - destruct Hkeep. unfold base64_padding in Hin.
    assert (c = "="%char) as ->; [|unfold stripped; auto].
    destruct (length (utf8_bytes appPath) mod 3)%nat as [|[|[|?]]];
      set_solver.
Qed.

Lemma categorizeApplication_label plistData :
  categorizeApplication plistData ∈ category_labels.
Proof.
  unfold categorizeApplication.
  destruct (List.find _ categoryMap) as [[cat kws]|] eqn:E.
  - apply find_some in E as [Hin _].
    apply list_elem_of_In in Hin.
    assert (Forall (λ entry, entry.1 ∈ category_labels) categoryMap) as HF
      by compute_decision.
    rewrite Forall_forall in HF. by apply (HF (cat, kws)).
  - repeat case_match; compute_decision.
Qed.

Lemma or_else_truthy o d : d ≠ "" → or_else o d ≠ "".
Proof.
  unfold or_else, truthy. intros Hd. destruct o as [s|]; [|done].
  by case_decide.
Qed.

Lemma parseApplication_fields host clock appPath app :
  parseApplication host clock appPath = Some app →
  App.path app = appPath
  ∧ App.id app = generateAppId appPath
  ∧ App.bundleIdentifier app ≠ ""
  ∧ ∃ label, App.category app = Some label ∧ label ∈ category_labels.
Proof.
  unfold parseApplication. intros Hparse.
  destruct (negb _).
  - injection Hparse as <-. simpl. split_and!; [done..|].
    exists "Other". split; [done|compute_decision].
  - destruct (readFile host _) as [content|]; [|done]. simpl in Hparse.
    destruct (plist_parse host content) as [plistData|]; [|done].
    simpl in Hparse. destruct (stat_mtime host appPath); [|done].
    injection Hparse as <-. simpl. split_and!; [done..| |].
    + by apply or_else_truthy.
    + eexists. split; [done|apply categorizeApplication_label].
Qed.

(** X4: Every record [parseApplication] produces, from a descriptor or as a
    fallback, carries the path it was asked for and the id derived from it,
    a bundle identifier that is not empty (so [removeDuplicates] compares
    records by bundle identifier) and one of the ten category labels. *)
Theorem parseApplication_record host clock appPath app :
  parseApplication host clock appPath = Some app →
  App.path app = appPath
  ∧ App.id app = generateAppId appPath
  ∧ App.bundleIdentifier app ≠ ""
  ∧ app_key app = App.bundleIdentifier app
  ∧ ∃ label, App.category app = Some label ∧ label ∈ category_labels.
Proof.
  intros Hparse.
  destruct (parseApplication_fields host clock appPath app Hparse)
    as (Hp & Hi & Hb & Hc).
  split_and!; [done..| |done].
  unfold app_key. by rewrite decide_False.
Qed.

Lemma parseApplication_record_witness :
  ∃ app,
    parseApplication xcode_host sample_clock "/Applications/Xcode.app" = Some app
    ∧ App.path app = "/Applications/Xcode.app"
    ∧ App.bundleIdentifier app ≠ "".
Proof.
  eexists. split; [by vm_compute|].
  destruct (parseApplication_record xcode_host sample_clock
              "/Applications/Xcode.app" _ eq_refl) as (Hp & _ & Hb & _).
  done.
Defined.

(** X5: The scanner's labels and the store's folders fit: while the default
    folders are there, an application labelled by [categorizeApplication] is
    filed in a folder that exists, and in the catch-all folder only when its
    label is "Other". *)
Theorem category_has_folder clock plistData app folders :
  App.category app = Some (categorizeApplication plistData) →
  folder_ids (createDefaultFolders clock) ⊆ folder_ids folders →
  getCategoryForApp app folders ∈ folder_ids folders
  ∧ (getCategoryForApp app folders = "folder_other" →
     categorizeApplication plistData = "Other").
Proof.
  intros Hcat Hdefaults.
  pose proof (categorizeApplication_label plistData) as Hlabel.
  set (target := λ label,
         default "folder_other"
           (lookup_assoc (default "other" (truthy (Some (toLowerCase label))))
                         categoryMapping)).
  assert (Forall (λ label,
            target label ∈ folder_ids (createDefaultFolders clock)
            ∧ (target label = "folder_other" → label = "Other"))
            category_labels) as HF by compute_decision.
  rewrite Forall_forall in HF.
  destruct (HF _ Hlabel) as (Hin & Hother).
  assert (getCategoryForApp app folders
          = match list_find (has_id (target (categorizeApplication plistData)))
                            folders with
            | Some _ => target (categorizeApplication plistData)
            | None => "folder_other"
            end) as ->
    by (unfold getCategoryForApp; by rewrite Hcat).
  apply Hdefaults in Hin. generalize dependent (target (categorizeApplication plistData)).
  intros fid Hin Hother.
  pose proof Hin as (f & Hid & Hf)%list_elem_of_fmap.
  destruct (list_find_elem_of (has_id fid) folders f Hf) as [[j g] ->]; done.
Qed.

Lemma category_has_folder_witness :
  getCategoryForApp sample_app (createDefaultFolders sample_clock)
  ∈ folder_ids (createDefaultFolders sample_clock).
Proof.
  apply (category_has_folder sample_clock
           (mkPlist None None (Some "com.example.game") None None None None)
           sample_app (createDefaultFolders sample_clock)).
  - by vm_compute.
  - done.
Defined.

(** ** Scanning directories *)

Lemma length_omap_le {A B} (f : A → option B) (l : list A) :
  (length (omap f l) ≤ length l)%nat.
Proof.
  induction l as [|x l IH]; [done|].
  change (omap f (x :: l))
    with (match f x with Some y => y :: omap f l | None => omap f l end).
  destruct (f x); simpl; lia.
Qed.

(** X6: A directory that cannot be listed gives no application and no failure;
    otherwise every record comes from an entry of the listing whose name ends
    in [.app], with the path of that entry, and there are at most as many
    records as such entries: other entries are never looked at. *)
Theorem scanApplicationsInDirectory_entries host clock directoryPath :
  (readdir host directoryPath = None →
   scanApplicationsInDirectory host clock directoryPath = [])
  ∧ (∀ entries,
       readdir host directoryPath = Some entries →
       (∀ app, app ∈ scanApplicationsInDirectory host clock directoryPath →
          ∃ entry, entry ∈ entries ∧ endsWith entry ".app" = true
                   ∧ parseApplication host clock (path_join host directoryPath entry)
                     = Some app
                   ∧ App.path app = path_join host directoryPath entry)
       ∧ (length (scanApplicationsInDirectory host clock directoryPath)
          ≤ length (filter (λ entry, endsWith entry ".app" = true) entries))%nat).
Proof.
  unfold scanApplicationsInDirectory. split; [by intros ->|].
  intros entries ->. split.
  - intros app (entry & [Happ Hin]%list_elem_of_filter & Hparse)%list_elem_of_omap.
    exists entry. split_and!; [done..|].
    by destruct (parseApplication_fields _ _ _ _ Hparse) as (-> & _).
  - apply length_omap_le.
Qed.

Lemma scanApplicationsInDirectory_entries_witness :
  scanApplicationsInDirectory sample_host sample_clock "/Library" = []
  ∧ (length (scanApplicationsInDirectory sample_host sample_clock "/Applications")
     ≤ 2)%nat.
Proof.
  destruct (scanApplicationsInDirectory_entries sample_host sample_clock "/Library")
    as [Hnone _].
  destruct (scanApplicationsInDirectory_entries sample_host sample_clock "/Applications")
    as [_ Hsome].
  split; [by apply Hnone|].
  by destruct (Hsome ["Broken.app"; "Bare.app"; "notes.txt"] eq_refl) as [_ Hlen].
Defined.

Lemma scanned_key host clock directoryPath app :
  app ∈ scanApplicationsInDirectory host clock directoryPath →
  app_key app = App.bundleIdentifier app.
Proof.
  unfold scanApplicationsInDirectory. destruct (readdir host directoryPath);
    [|by intros ?%elem_of_nil].
  intros (entry & _ & Hparse)%list_elem_of_omap.
  destruct (parseApplication_fields _ _ _ _ Hparse) as (_ & _ & Hb & _).
  unfold app_key. by rewrite decide_False.
Qed.

(** X7: The full scan, whatever order the locale sort puts the records in:
    no two records share a bundle identifier; every application found in
    either directory is represented by a record with its bundle identifier;
    and a record from the user's directory is only kept when no application
    of the system directory has its bundle identifier. *)
Theorem scanApplications_distinct host clock sort_by_name userApplicationsPath :
  (∀ l, sort_by_name l ≡ₚ l) →
  let systemApps := scanApplicationsInDirectory host clock applicationsPath in
  let userApps :=
    if pathExists host userApplicationsPath
    then scanApplicationsInDirectory host clock userApplicationsPath else [] in
  let result := scanApplications host clock sort_by_name userApplicationsPath in
  NoDup (App.bundleIdentifier <$> result)
  ∧ (∀ app, app ∈ systemApps ∨ app ∈ userApps →
       ∃ kept, kept ∈ result
               ∧ App.bundleIdentifier kept = App.bundleIdentifier app)
  ∧ (∀ kept, kept ∈ result →
       kept ∈ systemApps
       ∨ (kept ∈ userApps
          ∧ ∀ app, app ∈ systemApps →
                   App.bundleIdentifier app ≠ App.bundleIdentifier kept)).
Proof.
  intros Hsort systemApps userApps result.
  assert (∀ app, app ∈ (systemApps ++ userApps)%list →
                 app_key app = App.bundleIdentifier app) as Hkey.
  { intros app [Hin|Hin]%elem_of_app; [by eapply scanned_key|].
    unfold userApps in Hin. destruct (pathExists host userApplicationsPath);
      [by eapply scanned_key|by apply elem_of_nil in Hin]. }
  pose proof (filter_unseen_NoDup app_key ∅ (systemApps ++ userApps)%list) as Hnd.
  assert (∀ app, app ∈ (systemApps ++ userApps)%list →
            ∃ i kept, list_find (λ a, app_key a = app_key app)
                        (systemApps ++ userApps)%list = Some (i, kept)
                      ∧ kept ∈ removeDuplicates (systemApps ++ userApps)%list)
    as Hfirst.
  { intros app Hin. apply filter_unseen_first; [done|set_solver]. }
  pose proof (filter_unseen_is_first app_key ∅ (systemApps ++ userApps)%list)
    as Hkept.
  fold (removeDuplicates (systemApps ++ userApps)%list) in Hnd, Hkept.
  assert (∀ app, app ∈ result ↔ app ∈ removeDuplicates (systemApps ++ userApps)%list)
    as Hres by (intros app; unfold result, scanApplications; by rewrite Hsort).
  assert (∀ app, app ∈ removeDuplicates (systemApps ++ userApps)%list →
                 app ∈ (systemApps ++ userApps)%list) as Hback.
  { intros app Hin. unfold removeDuplicates in Hin.
    by apply filter_unseen_elem in Hin as [? _]. }
  split_and!.
  - unfold result, scanApplications. rewrite Hsort.
    fold systemApps. fold userApps.
    erewrite list_fmap_ext; [exact Hnd|]. intros i app Hi. symmetry.
    apply Hkey, Hback. by eapply list_elem_of_lookup_2.
  - intros app Hin. apply elem_of_app in Hin.
    destruct (Hfirst app Hin) as (i & kept & (_ & Hk & _)%list_find_Some & Hkin).
    exists kept. split; [by apply Hres|].
    rewrite <- !Hkey; [done|done|by apply Hback].
  - intros kept Hin%Hres. pose proof (Hback _ Hin) as Hall.
    destruct (Hkept _ Hin) as (i & (Hi & _ & Hmin)%list_find_Some).
    apply lookup_app_Some in Hi as [Hi|[Hlen Hi]].
    + left. by eapply list_elem_of_lookup_2.
    + right. split; [by eapply list_elem_of_lookup_2|].
      intros app [j Hj]%list_elem_of_lookup E.
      apply (Hmin j app).
      * by apply lookup_app_l_Some.
      * apply lookup_lt_Some in Hj. lia.
      * rewrite !Hkey; [done|done|]. apply elem_of_app. left.
        by eapply list_elem_of_lookup_2.
Qed.

Lemma scanApplications_distinct_witness :
  NoDup (App.bundleIdentifier
           <$> scanApplications sample_host sample_clock (λ l, l)
                 "/Users/me/Applications").
Proof.
  destruct (scanApplications_distinct sample_host sample_clock (λ l, l)
              "/Users/me/Applications") as [H _]; [done|exact H].
Defined.

(** ** Saving, loading and clearing *)

(** X8: On a backend that answers, what is saved is what is loaded next: the
    folder list (an empty list too: defaults are only built when the key has
    no item), the settings and the mapping table; and the scan time, except
    that the empty string reads back as null. *)
Theorem save_then_load clock s folders settings mappings time :
  (saveFolders no_faults folders;; loadFolders no_faults clock) s
  = (Ok folders, write_folders (Some folders) s)
  ∧ (saveSettings no_faults settings;; loadSettings no_faults clock) s
    = (Ok settings, write_settings (Some settings) s)
  ∧ (saveApplicationMappings no_faults mappings;;
     loadApplicationMappings no_faults) s
    = (Ok mappings, write_app_mappings (Some mappings) s)
  ∧ (setLastScanTime no_faults time;; getLastScanTime no_faults) s
    = (Ok (if decide (time = "") then None else Some time),
       write_last_scan (Some time) s).
Proof. split_and!; reflexivity. Qed.

Lemma clearAllData_unfold ft s :
  clearAllData ft s
  = if removeItem_fails ft STORAGE_KEY_FOLDERS
    then (Throw (StorageError STORAGE_KEY_FOLDERS), s)
    else if removeItem_fails ft STORAGE_KEY_SETTINGS
    then (Throw (StorageError STORAGE_KEY_SETTINGS), write_folders None s)
    else if removeItem_fails ft STORAGE_KEY_APP_MAPPINGS
    then (Throw (StorageError STORAGE_KEY_APP_MAPPINGS),
          write_settings None (write_folders None s))
    else if removeItem_fails ft STORAGE_KEY_LAST_SCAN
    then (Throw (StorageError STORAGE_KEY_LAST_SCAN),
          write_app_mappings None (write_settings None (write_folders None s)))
    else (Ok tt, empty_storage).
Proof.
  unfold clearAllData. unfold_store.
  destruct (removeItem_fails ft STORAGE_KEY_FOLDERS); [done|].
  destruct (removeItem_fails ft STORAGE_KEY_SETTINGS); [done|].
  destruct (removeItem_fails ft STORAGE_KEY_APP_MAPPINGS); [done|].
  by destruct (removeItem_fails ft STORAGE_KEY_LAST_SCAN).
Qed.

(** X9: [clearAllData] removes the four keys one after the other.  When every
    removal succeeds the store is empty whatever it held, and the next loads
    give the default folders, the empty mapping table and no scan time.  When
    a removal fails the call fails, and the keys removed before it stay
    removed: the folders are gone although settings, mappings and scan time
    are still there. *)
Theorem clearAllData_resets ft clock s :
  ((∀ k, removeItem_fails ft k = false) →
   clearAllData ft s = (Ok tt, empty_storage)
   ∧ loadFolders no_faults clock empty_storage
     = (Ok (createDefaultFolders clock), empty_storage)
   ∧ loadApplicationMappings no_faults empty_storage = (Ok ∅, empty_storage)
   ∧ getLastScanTime no_faults empty_storage = (Ok None, empty_storage))
  ∧ (removeItem_fails ft STORAGE_KEY_FOLDERS = false →
     removeItem_fails ft STORAGE_KEY_SETTINGS = true →
     clearAllData ft s
     = (Throw (StorageError STORAGE_KEY_SETTINGS),
        mkStorage None (launchmat_settings s) (launchmat_app_mappings s)
                  (launchmat_last_scan s))).
Proof.
  rewrite clearAllData_unfold. split.
  - intros H. by rewrite !H.
  - by intros -> ->.
Qed.

Lemma clearAllData_resets_witness :
  clearAllData no_faults store_with_app_in_two_folders = (Ok tt, empty_storage)
  ∧ launchmat_folders
      (clearAllData
         (mkFaults (λ _, false) (λ _, false)
                   (λ k, bool_decide (k = STORAGE_KEY_SETTINGS)))
         store_with_app_in_two_folders).2 = None.
Proof.
  split.
  - by destruct (clearAllData_resets no_faults sample_clock
                   store_with_app_in_two_folders) as [[-> _] _].
  - destruct (clearAllData_resets
                (mkFaults (λ _, false) (λ _, false)
                          (λ k, bool_decide (k = STORAGE_KEY_SETTINGS)))
                sample_clock store_with_app_in_two_folders) as [_ ->]; done.
Defined.

(** ** [exportSettings] and [importSettings] *)

(** X10: [exportSettings] never fails and never changes the store, whatever the
    backend does: its three loads absorb every failure. *)
Theorem exportSettings_total ft clock s :
  ∃ snapshot,
    exportSettings ft clock s = (Ok snapshot, s)
    ∧ is_Some (snap_folders snapshot) ∧ is_Some (snap_settings snapshot)
    ∧ is_Some (snap_mappings snapshot)
    ∧ snap_version snapshot = Some "1.0.0".
Proof.
  unfold exportSettings. unfold_store.
  destruct (getItem_fails ft STORAGE_KEY_FOLDERS),
           (getItem_fails ft STORAGE_KEY_SETTINGS),
           (getItem_fails ft STORAGE_KEY_APP_MAPPINGS),
           (launchmat_folders s), (launchmat_settings s); simpl;
    eexists; split_and!; by eauto.
Qed.

Lemma importSettings_unfold ft snapshot s :
  importSettings ft (Parsed snapshot) s
  = let s1 := match snap_folders snapshot with
              | Some folders => write_folders (Some folders) s
              | None => s
              end in
    let s2 := match snap_settings snapshot with
              | Some settings => write_settings (Some settings) s1
              | None => s1
              end in
    let s3 := match snap_mappings snapshot with
              | Some mappings => write_app_mappings (Some mappings) s2
              | None => s2
              end in
    if bool_decide (is_Some (snap_folders snapshot))
       && setItem_fails ft STORAGE_KEY_FOLDERS
    then (Throw (StorageError STORAGE_KEY_FOLDERS), s)
    else if bool_decide (is_Some (snap_settings snapshot))
            && setItem_fails ft STORAGE_KEY_SETTINGS
    then (Throw (StorageError STORAGE_KEY_SETTINGS), s1)
    else if bool_decide (is_Some (snap_mappings snapshot))
            && setItem_fails ft STORAGE_KEY_APP_MAPPINGS
    then (Throw (StorageError STORAGE_KEY_APP_MAPPINGS), s2)
    else (Ok tt, s3).
Proof.
  unfold importSettings. unfold_store.
  destruct snapshot as [[fs|] [st|] [mp|] ea v]; simpl;
    destruct (setItem_fails ft STORAGE_KEY_FOLDERS); simpl; try done;
    destruct (setItem_fails ft STORAGE_KEY_SETTINGS); simpl; try done;
    destruct (setItem_fails ft STORAGE_KEY_APP_MAPPINGS); simpl; done.
Qed.

(** X11: [importSettings] of a text that parses to a value other than [null],
    on a backend that answers, replaces exactly the records the value holds
    and leaves the others, and the scan time, as they were; a text that does
    not parse, and the text [null], are refused on any backend with the
    store untouched (a [SyntaxError], a [TypeError]).
    The import is not atomic: when the settings cannot be written, the call
    fails after the folders of the snapshot have already replaced the stored
    ones. *)
Theorem importSettings_partial ft snapshot s :
  (importSettings no_faults (Parsed snapshot) s
   = (Ok tt,
      mkStorage
        (match snap_folders snapshot with
         | Some folders => Some folders | None => launchmat_folders s end)
        (match snap_settings snapshot with
         | Some settings => Some settings | None => launchmat_settings s end)
        (match snap_mappings snapshot with
         | Some mappings => Some mappings | None => launchmat_app_mappings s end)
        (launchmat_last_scan s)))
  ∧ importSettings ft Unparseable s = (Throw SyntaxError, s)
  ∧ importSettings ft JsonNull s = (Throw TypeError, s)
  ∧ (∀ folders settings,
       snap_folders snapshot = Some folders →
       snap_settings snapshot = Some settings →
       setItem_fails ft STORAGE_KEY_FOLDERS = false →
       setItem_fails ft STORAGE_KEY_SETTINGS = true →
       importSettings ft (Parsed snapshot) s
       = (Throw (StorageError STORAGE_KEY_SETTINGS),
          write_folders (Some folders) s)).
Proof.
  split_and!.
  - rewrite importSettings_unfold. simpl. rewrite !andb_false_r.
    destruct s, snapshot as [[?|] [?|] [?|] ? ?]; reflexivity.
  - reflexivity.
  - reflexivity.
  - intros folders settings Hf Hs Hwf Hws.
    rewrite importSettings_unfold, Hf, Hs, Hwf, Hws.
    rewrite !bool_decide_true by eauto. reflexivity.
Qed.

Lemma importSettings_partial_witness :
  launchmat_folders
    (importSettings
       (mkFaults (λ _, false) (λ k, bool_decide (k = STORAGE_KEY_SETTINGS))
                 (λ _, false))
       (Parsed (mkSnapshot (Some []) (Some (createDefaultSettings sample_clock))
                           None None None))
       store_with_app_in_two_folders).2
  = Some [].
Proof.
  destruct (importSettings_partial
              (mkFaults (λ _, false) (λ k, bool_decide (k = STORAGE_KEY_SETTINGS))
                        (λ _, false))
              (mkSnapshot (Some []) (Some (createDefaultSettings sample_clock))
                          None None None)
              store_with_app_in_two_folders) as (_ & _ & _ & H).
  by rewrite (H [] (createDefaultSettings sample_clock)).
Defined.

(** ** [updateFolder], [createFolder] *)

Lemma updateFolder_unfold ft clock s folderId updates :
  updateFolder ft clock folderId updates s
  = match list_find (has_id folderId) (loaded_folders ft clock s) with
    | Some (i, folder) =>
        saveFolders ft (<[i := assign_updates clock updates folder]>
                          (loaded_folders ft clock s)) s
    | None => (Ok tt, s)
    end.
Proof.
  unfold updateFolder.
  unfold try_catch at 1. unfold mbind at 1. unfold M_bind at 1. unfold bind at 1.
  rewrite loadFolders_total.
  destruct (list_find _ _) as [[i folder]|]; [|done].
  unfold_store. by destruct (setItem_fails ft STORAGE_KEY_FOLDERS).
Qed.

(** X12: [updateFolder] with an id no folder has returns normally and writes
    nothing, on any backend.  With the id of a folder it changes, in that
    folder only, the name, color and icon that the update holds and stamps
    [updatedAt]; ids, application ids, positions and creation times of all
    folders stay as they were, so membership exclusivity and position density
    are kept. *)
Theorem updateFolder_frame ft clock s folderId updates :
  (list_find (has_id folderId) (loaded_folders ft clock s) = None →
   updateFolder ft clock folderId updates s = (Ok tt, s))
  ∧ (∀ i folder,
       list_find (has_id folderId) (stored_folders clock s) = Some (i, folder) →
       ∃ folders' folder',
         updateFolder no_faults clock folderId updates s
         = (Ok tt, write_folders (Some folders') s)
         ∧ folders' !! i = Some folder'
         ∧ Folder.name folder' = default (Folder.name folder) (upd_name updates)
         ∧ Folder.color folder' = default (Folder.color folder) (upd_color updates)
         ∧ Folder.icon folder' = default (Folder.icon folder) (upd_icon updates)
         ∧ Folder.updatedAt folder' = Some (toISOString clock)
         ∧ (∀ j, j ≠ i → folders' !! j = stored_folders clock s !! j)
         ∧ folder_ids folders' = folder_ids (stored_folders clock s)
         ∧ memberships folders' = memberships (stored_folders clock s)
         ∧ Folder.position <$> folders' = Folder.position <$> stored_folders clock s
         ∧ Folder.createdAt <$> folders' = Folder.createdAt <$> stored_folders clock s
         ∧ (exclusive (stored_folders clock s) → exclusive folders')
         ∧ (dense (stored_folders clock s) → dense folders')).
Proof.
  split.
  - intros Hnone. by rewrite updateFolder_unfold, Hnone.
  - intros i folder Hfind. rewrite updateFolder_unfold.
    change (loaded_folders no_faults clock s) with (stored_folders clock s).
    rewrite Hfind. pose proof Hfind as (Hi & _)%list_find_Some.
    set (fs := stored_folders clock s) in *.
    assert (∀ {B} (g : Folder.t → B),
              g (assign_updates clock updates folder) = g folder →
              g <$> <[i := assign_updates clock updates folder]> fs = g <$> fs)
      as Hsame.
    { intros B g Hg. rewrite list_fmap_insert, Hg.
      apply list_insert_id. by rewrite list_lookup_fmap, Hi. }
    exists (<[i := assign_updates clock updates folder]> fs),
      (assign_updates clock updates folder).
    split_and!.
    + unfold saveFolders. by unfold_store.
    + apply list_lookup_insert_eq. by eapply lookup_lt_Some.
    + by destruct updates as [[?|] ? ?].
    + by destruct updates as [? [?|] ?].
    + by destruct updates as [? ? [?|]].
    + done.
    + intros j Hj. by apply list_lookup_insert_ne.
    + by apply (Hsame _ Folder.id).
    + by apply (Hsame _ Folder.applicationIds).
    + by apply (Hsame _ Folder.position).
    + by apply (Hsame _ Folder.createdAt).
    + apply exclusive_same_memberships. symmetry.
      by apply (Hsame _ Folder.applicationIds).
    + unfold dense. rewrite length_insert.
      by rewrite (Hsame _ Folder.position).
Qed.

Lemma updateFolder_frame_witness :
  ∃ folders',
    updateFolder no_faults sample_clock "folder_games"
      (mkUpdates (Some "Play") None None) store_with_app_in_two_folders
    = (Ok tt, write_folders (Some folders') store_with_app_in_two_folders)
    ∧ memberships folders'
      = memberships (stored_folders sample_clock store_with_app_in_two_folders).
Proof.
  destruct (updateFolder_frame no_faults sample_clock store_with_app_in_two_folders
              "folder_games" (mkUpdates (Some "Play") None None)) as [_ H].
  edestruct H as (folders' & folder' & Hrun & _ & _ & _ & _ & _ & _ & _ & Hm & _).
  - by vm_compute.
  - by exists folders'.
Defined.

(** X13: [createFolder] on a backend that answers stores the folders it loaded,
    unchanged and in their order, followed by the new folder, which has no
    applications and the folder count as position; the next load ends with
    that folder.  On a store without a folder record this is also what first
    writes the eight default folders. *)
Theorem createFolder_appends clock clock' s name color icon :
  ∃ newFolder s',
    createFolder no_faults clock name color icon s = (Ok newFolder, s')
    ∧ loadFolders no_faults clock' s'
      = (Ok (stored_folders clock s ++ [newFolder])%list, s')
    ∧ Folder.id newFolder = new_folder_id clock
    ∧ Folder.applicationIds newFolder = []
    ∧ Folder.position newFolder = Z.of_nat (length (stored_folders clock s))
    ∧ (Folder.name newFolder, Folder.color newFolder, Folder.icon newFolder)
      = (name, color, icon)
    ∧ (launchmat_folders s = None →
       launchmat_folders s' = Some (createDefaultFolders clock ++ [newFolder])%list
       ∧ Folder.position newFolder = 8).
Proof.
  rewrite createFolder_ok. cbn zeta. eexists _, _.
  split_and!; [reflexivity|by rewrite loadFolders_ok|done..|].
  unfold stored_folders. by intros ->.
Qed.

(** ** [moveAppToFolder] *)

Lemma found_index_ids x fs :
  found_index x fs = fst <$> list_find (λ k, k = x) (folder_ids fs).
Proof.
  unfold found_index, folder_ids. rewrite list_find_fmap.
  change ((λ k, k = x) ∘ Folder.id) with (has_id x).
  by destruct (list_find (has_id x) fs) as [[j f]|].
Qed.

Lemma found_index_same_ids x fs fs' :
  folder_ids fs = folder_ids fs' → found_index x fs = found_index x fs'.
Proof. intros E. by rewrite !found_index_ids, E. Qed.

Lemma found_index_found_at x fs i : found_index x fs = Some i ↔ found_at x fs i.
Proof. by rewrite found_at_ids, found_index_ids. Qed.

Lemma found_index_Some x fs i :
  found_index x fs = Some i → ∃ f, list_find (has_id x) fs = Some (i, f) ∧ fs !! i = Some f.
Proof.
  intros (f & Hf)%found_index_found_at. exists f. split; [done|].
  by apply list_find_Some in Hf as (? & _).
Qed.

Lemma found_index_None x fs :
  found_index x fs = None → list_find (has_id x) fs = None.
Proof. unfold found_index. by destruct (list_find _ _). Qed.

Lemma fmap_insert_field {B} (g : Folder.t → B) (fs : list Folder.t) (i : nat) f f' :
  fs !! i = Some f → g f' = g f → g <$> <[i := f']> fs = g <$> fs.
Proof.
  intros Hlook Hg. rewrite list_fmap_insert, Hg.
  apply list_insert_id. by rewrite list_lookup_fmap, Hlook.
Qed.

Lemma remove_from_folder_lookup a from fs k :
  remove_from_folder a from fs !! k
  = (λ f, if decide (source_index from fs = Some k) then without_app a f else f)
      <$> fs !! k.
Proof.
  unfold remove_from_folder, source_index.
  destruct (truthy from) as [fid|]; simpl; last first.
  { by destruct (fs !! k). }
  destruct (found_index fid fs) as [i|] eqn:E.
  - apply found_index_Some in E as (f & -> & Hf).
    destruct (decide (i = k)) as [->|Hne].
    + rewrite list_lookup_insert_eq by (by eapply lookup_lt_Some).
      rewrite Hf. simpl. by rewrite decide_True.
    + rewrite list_lookup_insert_ne by done.
      destruct (fs !! k); [|done]. simpl. rewrite decide_False; [done|congruence].
  - rewrite (found_index_None _ _ E). by destruct (fs !! k).
Qed.

Lemma add_to_folder_lookup a to fs k :
  add_to_folder a to fs !! k
  = (λ f, if decide (found_index to fs = Some k) then with_app a f else f)
      <$> fs !! k.
Proof.
  unfold add_to_folder.
  destruct (found_index to fs) as [j|] eqn:E.
  - apply found_index_Some in E as (f & -> & Hf).
    destruct (decide (j = k)) as [->|Hne].
    + rewrite list_lookup_insert_eq by (by eapply lookup_lt_Some).
      rewrite Hf. simpl. by rewrite decide_True.
    + rewrite list_lookup_insert_ne by done.
      destruct (fs !! k); [|done]. simpl. rewrite decide_False; [done|congruence].
  - rewrite (found_index_None _ _ E). by destruct (fs !! k).
Qed.

Lemma add_to_folder_field {B} (g : Folder.t → B) a to fs :
  (∀ l f, g (Folder.set_applicationIds l f) = g f) →
  g <$> add_to_folder a to fs = g <$> fs.
Proof.
  intros Hg. unfold add_to_folder.
  destruct (list_find _ fs) as [[j f]|] eqn:E; [|done].
  apply list_find_Some in E as (Hlook & _).
  by apply (fmap_insert_field g _ _ f).
Qed.

Lemma remove_from_folder_field {B} (g : Folder.t → B) a from fs :
  (∀ l f, g (Folder.set_applicationIds l f) = g f) →
  g <$> remove_from_folder a from fs = g <$> fs.
Proof.
  intros Hg. unfold remove_from_folder.
  destruct (truthy from) as [fid|]; [|done].
  destruct (list_find _ fs) as [[j f]|] eqn:E; [|done].
  apply list_find_Some in E as (Hlook & _).
  by apply (fmap_insert_field g _ _ f).
Qed.

Lemma moved_field {B} (g : Folder.t → B) a from to fs :
  (∀ l f, g (Folder.set_applicationIds l f) = g f) →
  g <$> add_to_folder a to (remove_from_folder a from fs) = g <$> fs.
Proof.
  intros Hg. by rewrite add_to_folder_field, remove_from_folder_field.
Qed.

(** Folder [k] after a move, from folder [k] before it. *)
Lemma moved_lookup a from to fs k :
  add_to_folder a to (remove_from_folder a from fs) !! k
  = (λ f, let f1 := if decide (source_index from fs = Some k)
                    then without_app a f else f in
          if decide (found_index to fs = Some k) then with_app a f1 else f1)
      <$> fs !! k.
Proof.
  rewrite add_to_folder_lookup, remove_from_folder_lookup.
  rewrite (found_index_same_ids to (remove_from_folder a from fs) fs)
    by apply remove_from_folder_ids.
  by destruct (fs !! k).
Qed.

Lemma elem_of_without_app a b f :
  b ∈ Folder.applicationIds (without_app a f) ↔ b ∈ Folder.applicationIds f ∧ b ≠ a.
Proof. unfold without_app. simpl. rewrite list_elem_of_filter. tauto. Qed.

Lemma elem_of_with_app a b f :
  b ∈ Folder.applicationIds (with_app a f) ↔ b ∈ Folder.applicationIds f ∨ b = a.
Proof. unfold with_app. simpl. apply push_unique_elem. Qed.

(** X14: [moveAppToFolder] on a backend that answers: the mapping of the
    application becomes the target id (for the id "__proto__" only when the
    table already has an entry for it: otherwise none is recorded) and no
    other mapping entry changes; folder ids and positions stay; no folder
    gains or loses any other application; and afterwards a folder holds the
    application exactly when it is the folder found for the target id, or it
    held the application before and is not the folder found for a given,
    non-empty source id. *)
Theorem moveAppToFolder_effect clock s appId fromFolderId toFolderId :
  ∃ s',
    moveAppToFolder no_faults clock appId fromFolderId toFolderId s = (Ok tt, s')
    ∧ (assignable appId (stored_mappings s) →
       stored_mappings s' !! appId = Some toFolderId)
    ∧ (¬ assignable appId (stored_mappings s) →
       stored_mappings s' !! appId = None)
    ∧ (∀ b, b ≠ appId → stored_mappings s' !! b = stored_mappings s !! b)
    ∧ folder_ids (stored_folders clock s') = folder_ids (stored_folders clock s)
    ∧ Folder.position <$> stored_folders clock s'
      = Folder.position <$> stored_folders clock s
    ∧ ∀ k f, stored_folders clock s !! k = Some f →
        ∃ f', stored_folders clock s' !! k = Some f'
          ∧ (∀ b, b ≠ appId →
               b ∈ Folder.applicationIds f' ↔ b ∈ Folder.applicationIds f)
          ∧ (appId ∈ Folder.applicationIds f'
             ↔ found_at toFolderId (stored_folders clock s) k
               ∨ (appId ∈ Folder.applicationIds f
                  ∧ ¬ ∃ fid, truthy fromFolderId = Some fid
                             ∧ found_at fid (stored_folders clock s) k)).
Proof.
  rewrite moveAppToFolder_ok. eexists. split; [reflexivity|].
  set (fs := stored_folders clock s).
  change (stored_folders clock (write_app_mappings _ (write_folders (Some ?l) _)))
    with l.
  change (stored_mappings (write_app_mappings (Some ?m) _)) with m.
  split_and!.
  - apply assign_lookup_eq.
  - apply assign_lookup_refused.
  - intros b Hb. by apply assign_lookup_ne.
  - by apply (moved_field Folder.id).
  - by apply (moved_field Folder.position).
  - intros k f Hk. rewrite moved_lookup, Hk. simpl. eexists. split; [reflexivity|].
    assert (source_index fromFolderId fs = Some k
            ↔ ∃ fid, truthy fromFolderId = Some fid ∧ found_at fid fs k) as Hsrc.
    { unfold source_index. destruct (truthy fromFolderId) as [fid|]; simpl.
      - rewrite found_index_found_at. split; [by eauto|by intros (? & [= <-] & ?)].
      - split; [done|by intros (? & ? & _)]. }
    rewrite <- Hsrc, <- found_index_found_at.
    split.
    + intros b Hb.
      repeat case_decide;
        rewrite ?elem_of_with_app, ?elem_of_without_app; tauto.
    + repeat case_decide;
        rewrite ?elem_of_with_app, ?elem_of_without_app; tauto.
Qed.

Lemma with_app_idemp a f : with_app a (with_app a f) = with_app a f.
Proof.
  unfold with_app, Folder.set_applicationIds. simpl. f_equal.
  unfold push_unique at 1. rewrite decide_True; [done|].
  apply push_unique_elem. by right.
Qed.

Lemma without_app_idemp a f : without_app a (without_app a f) = without_app a f.
Proof.
  unfold without_app, Folder.set_applicationIds. simpl. f_equal.
  induction (Folder.applicationIds f) as [|x l IH]; [done|].
  rewrite filter_cons. case_decide; [|done].
  rewrite filter_cons. rewrite decide_True by done. by rewrite IH.
Qed.

Lemma without_with_app a f :
  with_app a (without_app a (with_app a (without_app a f)))
  = with_app a (without_app a f).
Proof.
  assert (without_app a (with_app a (without_app a f)) = without_app a f) as ->; [|done].
  unfold with_app, without_app, Folder.set_applicationIds. simpl. f_equal.
  unfold push_unique. rewrite decide_False; last first.
  { rewrite list_elem_of_filter. tauto. }
  rewrite filter_app, filter_cons, decide_False, filter_nil, app_nil_r by tauto.
  induction (Folder.applicationIds f) as [|x l IH]; [done|].
  rewrite filter_cons. case_decide; [|done].
  rewrite filter_cons. rewrite decide_True by done. by rewrite IH.
Qed.

(** X15: Repeating a move changes nothing: the store after the same
    [moveAppToFolder] call made twice is the store after one call. *)
Theorem moveAppToFolder_idempotent clock s appId fromFolderId toFolderId :
  (moveAppToFolder no_faults clock appId fromFolderId toFolderId;;
   moveAppToFolder no_faults clock appId fromFolderId toFolderId) s
  = moveAppToFolder no_faults clock appId fromFolderId toFolderId s.
Proof.
  unfold mbind, M_bind, bind. rewrite moveAppToFolder_ok.
  rewrite moveAppToFolder_ok.
  set (fs := stored_folders clock s).
  change (stored_folders clock (write_app_mappings _ (write_folders (Some ?l) _)))
    with l.
  change (stored_mappings (write_app_mappings (Some ?m) _)) with m.
  rewrite assign_twice.
  set (fs' := add_to_folder appId toFolderId (remove_from_folder appId fromFolderId fs)).
  assert (add_to_folder appId toFolderId (remove_from_folder appId fromFolderId fs')
          = fs') as ->; [|done].
  assert (folder_ids fs' = folder_ids fs) as Hids
    by (by apply (moved_field Folder.id)).
  apply list_eq. intros k. rewrite moved_lookup.
  unfold source_index.
  rewrite (found_index_same_ids toFolderId fs' fs) by done.
  assert ((truthy fromFolderId ≫= λ fid, found_index fid fs')
          = source_index fromFolderId fs) as ->.
  { unfold source_index. destruct (truthy fromFolderId) as [fid|]; [|done]. simpl.
    by apply found_index_same_ids. }
  unfold fs'. rewrite moved_lookup.
  destruct (fs !! k) as [f|]; [|done]. simpl. f_equal.
  repeat case_decide;
    auto using with_app_idemp, without_app_idemp, without_with_app.
Qed.

(** X16: A move to an id that no stored folder has, of an application id
    the mapping table records (any id but "__proto__", or one the table has
    an entry for), still records the mapping and still takes the application
    out of the source folder: an application held by the source folder only
    is afterwards in no folder, while its mapping names a folder that does
    not exist. *)
Theorem moveAppToFolder_unknown_target clock s appId fid i toFolderId :
  fid ≠ "" →
  found_at fid (stored_folders clock s) i →
  (∀ k f, stored_folders clock s !! k = Some f →
          appId ∈ Folder.applicationIds f → k = i) →
  list_find (has_id toFolderId) (stored_folders clock s) = None →
  assignable appId (stored_mappings s) →
  ∃ s',
    moveAppToFolder no_faults clock appId (Some fid) toFolderId s = (Ok tt, s')
    ∧ stored_mappings s' !! appId = Some toFolderId
    ∧ (toFolderId ∉ folder_ids (stored_folders clock s'))
    ∧ ∀ f, f ∈ stored_folders clock s' → appId ∉ Folder.applicationIds f.
Proof.
  intros Hfid Hfrom Honly Hto Hok.
  rewrite moveAppToFolder_ok. eexists. split; [reflexivity|].
  set (fs := stored_folders clock s) in *.
  change (stored_folders clock (write_app_mappings _ (write_folders (Some ?l) _)))
    with l.
  change (stored_mappings (write_app_mappings (Some ?m) _)) with m.
  split_and!.
  - by apply assign_lookup_eq.
  - rewrite (moved_field Folder.id) by done.
    intros (f & Hid & Hin)%list_elem_of_fmap.
    apply list_find_None in Hto. rewrite Forall_forall in Hto.
    by apply (Hto f).
  - intros f' (k & Hk)%list_elem_of_lookup_1. rewrite moved_lookup in Hk.
    destruct (fs !! k) as [f|] eqn:Hf; [|done]. simpl in Hk.
    injection Hk as <-.
    assert (found_index toFolderId fs = None) as ->
      by (unfold found_index; by rewrite Hto).
    rewrite decide_False by done.
    assert (source_index (Some fid) fs = Some i) as ->.
    { unfold source_index, truthy. rewrite decide_False by done. simpl.
      by apply found_index_found_at. }
    case_decide as Hk.
    + rewrite elem_of_without_app. tauto.
    + intros Hin. apply Hk. f_equal. symmetry. by eapply Honly.
Qed.

Lemma moveAppToFolder_unknown_target_witness :
  ∃ s',
    moveAppToFolder no_faults sample_clock "app1" (Some "folder_development")
      "folder_missing" store_with_app_in_development = (Ok tt, s')
    ∧ stored_mappings s' !! "app1" = Some "folder_missing"
    ∧ ("folder_missing" ∉ folder_ids (stored_folders sample_clock s'))
    ∧ ∀ f, f ∈ stored_folders sample_clock s' →
           "app1" ∉ Folder.applicationIds f.
Proof.
  apply (moveAppToFolder_unknown_target sample_clock store_with_app_in_development
           "app1" "folder_development" 1%nat "folder_missing").
  - done.
  - eexists. by vm_compute.
  - intros k f Hk Hin.
    assert (Forall (λ kf : nat * Folder.t,
                      "app1" ∈ Folder.applicationIds kf.2 → kf.1 = 1%nat)
              (imap pair (stored_folders sample_clock store_with_app_in_development)))
      as Hall by compute_decision.
    rewrite Forall_lookup in Hall.
    apply (Hall k (k, f)); [|done]. by rewrite list_lookup_imap, Hk.
  - by vm_compute.
  - by left.
Defined.

(** ** [deleteFolder]: what it leaves alone *)

(** X18: [deleteFolder] of a folder the store holds removes one entry from the
    folder array and nothing else moves: ids and positions of the remaining
    folders are the old ones with the entry at the deleted index taken out
    (no position is renumbered), every folder other than the deleted one and
    the catch-all is stored unchanged, and the mapping of an application that
    the deleted folder did not hold is unchanged. *)
Theorem deleteFolder_frame clock s folderId d folder :
  list_find (has_id folderId) (stored_folders clock s) = Some (d, folder) →
  ∃ s',
    deleteFolder no_faults clock folderId s = (Ok tt, s')
    ∧ folder_ids (stored_folders clock s')
      = delete d (folder_ids (stored_folders clock s))
    ∧ Folder.position <$> stored_folders clock s'
      = delete d (Folder.position <$> stored_folders clock s)
    ∧ (∀ k f, stored_folders clock s !! k = Some f → k ≠ d →
              ¬ found_at "folder_other" (stored_folders clock s) k →
              stored_folders clock s' !! (if decide (k < d)%nat then k else pred k)
              = Some f)
    ∧ (∀ a, a ∉ Folder.applicationIds folder →
            stored_mappings s' !! a = stored_mappings s !! a).
Proof.
  intros Hd. rewrite deleteFolder_ok, Hd.
  set (fs := stored_folders clock s).
  assert (∀ (l : list Folder.t) k f, l !! k = Some f → k ≠ d →
            delete d l !! (if decide (k < d)%nat then k else pred k) = Some f)
    as Hdel.
  { intros l k f Hk Hne. case_decide.
    - by rewrite list_lookup_delete_lt.
    - rewrite list_lookup_delete_ge by lia.
      replace (S (pred k)) with k by lia. done. }
  destruct (list_find (has_id "folder_other") fs) as [[o other]|] eqn:Ho.
  - destruct (reassign_to_other_spec (Folder.applicationIds folder)
                (Folder.applicationIds other) (stored_mappings s))
      as (_ & _ & Hmap & _).
    set (st := reassign_to_other _ _) in *.
    pose proof Ho as (Holook & _)%list_find_Some.
    eexists. split; [reflexivity|].
    change (stored_folders clock (write_app_mappings _ (write_folders (Some ?l) _)))
      with l.
    change (stored_mappings (write_app_mappings (Some ?m) _)) with m.
    split_and!.
    + unfold folder_ids. rewrite list_fmap_delete. f_equal.
      by apply (fmap_insert_field Folder.id _ _ other).
    + rewrite list_fmap_delete. f_equal.
      by apply (fmap_insert_field Folder.position _ _ other).
    + intros k f Hk Hne Hnot. apply Hdel; [|done].
      rewrite list_lookup_insert_ne; [done|].
      intros <-. apply Hnot. by exists other.
    + done.
  - eexists. split; [reflexivity|].
    change (stored_folders clock (write_app_mappings _ (write_folders (Some ?l) _)))
      with l.
    change (stored_mappings (write_app_mappings (Some ?m) _)) with m.
    split_and!.
    + unfold folder_ids. by rewrite list_fmap_delete.
    + by rewrite list_fmap_delete.
    + intros k f Hk Hne _. by apply Hdel.
    + done.
Qed.

Lemma deleteFolder_frame_witness :
  ∃ s',
    deleteFolder no_faults sample_clock "folder_games" store_with_app_in_development
    = (Ok tt, s')
    ∧ Folder.position <$> stored_folders sample_clock s'
      = delete 5%nat
          (Folder.position
             <$> stored_folders sample_clock store_with_app_in_development).
Proof.
  edestruct (deleteFolder_frame sample_clock store_with_app_in_development
               "folder_games" 5%nat) as (s' & Hrun & _ & Hpos & _).
  - by vm_compute.
  - by exists s'.
Defined.

(** ** No folder lists an application twice *)

Lemma push_unique_NoDup l a : NoDup l → NoDup (push_unique l a).
Proof.
  intros Hnd. unfold push_unique. case_decide; [done|].
  apply NoDup_app. split_and!; [done| |apply NoDup_singleton].
  intros x Hx ->%list_elem_of_singleton. done.
Qed.

Lemma duplicate_free_insert fs i f :
  duplicate_free fs → NoDup (Folder.applicationIds f) →
  duplicate_free (<[i := f]> fs).
Proof. intros Hfs Hf. by apply Forall_insert. Qed.

Lemma duplicate_free_lookup fs i f :
  duplicate_free fs → fs !! i = Some f → NoDup (Folder.applicationIds f).
Proof. intros Hfs Hi. by apply (Forall_lookup_1 _ _ _ _ Hfs Hi). Qed.

Lemma duplicate_free_memberships fs :
  duplicate_free fs ↔ Forall NoDup (memberships fs).
Proof. unfold duplicate_free, memberships. by rewrite Forall_fmap. Qed.

Lemma duplicate_free_defaults clock : duplicate_free (createDefaultFolders clock).
Proof. repeat constructor. Qed.

Lemma moved_duplicate_free a from to fs :
  duplicate_free fs →
  duplicate_free (add_to_folder a to (remove_from_folder a from fs)).
Proof.
  intros Hfs.
  assert (duplicate_free (remove_from_folder a from fs)) as Hfs1.
  { unfold remove_from_folder. destruct (truthy from) as [fid|]; [|done].
    destruct (list_find _ fs) as [[i f]|] eqn:E; [|done].
    apply list_find_Some in E as (Hi & _).
    apply duplicate_free_insert; [done|]. simpl.
    apply NoDup_filter. by eapply duplicate_free_lookup. }
  unfold add_to_folder.
  destruct (list_find _ (remove_from_folder a from fs)) as [[j f]|] eqn:E; [|done].
  apply list_find_Some in E as (Hj & _).
  apply duplicate_free_insert; [done|]. simpl.
  apply push_unique_NoDup. by eapply duplicate_free_lookup.
Qed.

Lemma reassign_to_other_NoDup appIds ids mappings :
  NoDup ids → NoDup (reassign_to_other appIds (ids, mappings)).1.
Proof.
  unfold reassign_to_other. revert ids mappings.
  induction appIds as [|x appIds IH]; intros ids mappings Hnd; [done|].
  cbn [foldl]. apply IH. by apply push_unique_NoDup.
Qed.

Lemma deleted_duplicate_free d o other ids fs :
  duplicate_free fs → NoDup ids →
  duplicate_free (delete d (<[o := Folder.set_applicationIds ids other]> fs)).
Proof.
  intros Hfs Hids. apply Forall_delete. by apply duplicate_free_insert.
Qed.

Lemma reordered_duplicate_free entries fs :
  duplicate_free fs → duplicate_free (sort_by_position (foldl reposition fs entries)).
Proof.
  intros Hfs. unfold duplicate_free. rewrite sort_by_position_perm.
  apply duplicate_free_memberships. rewrite repositions_memberships.
  by apply duplicate_free_memberships.
Qed.

Lemma categorize_step_duplicate_free st app :
  duplicate_free st.1 → duplicate_free (categorize_step st app).1.
Proof.
  destruct st as [fs m]. intros Hfs. unfold categorize_step. cbn [fst] in Hfs.
  destruct (list_find _ fs) as [[j f]|] eqn:E; [|done].
  case_decide as Hin; [done|]. cbn [fst].
  apply list_find_Some in E as (Hj & _).
  apply duplicate_free_insert; [done|]. simpl.
  apply NoDup_app. split_and!; [by eapply duplicate_free_lookup| |apply NoDup_singleton].
  intros x Hx ->%list_elem_of_singleton. done.
Qed.

Lemma categorized_duplicate_free apps st :
  duplicate_free st.1 → duplicate_free (foldl categorize_step st apps).1.
Proof.
  revert st. induction apps as [|app apps IH]; intros st Hst; [done|].
  cbn [foldl]. apply IH. by apply categorize_step_duplicate_free.
Qed.

Lemma moveAppToFolder_unfold ft clock s appId fromFolderId toFolderId :
  moveAppToFolder ft clock appId fromFolderId toFolderId s
  = let folders := add_to_folder appId toFolderId
                     (remove_from_folder appId fromFolderId
                        (loaded_folders ft clock s)) in
    let mappings := assign appId toFolderId
                      (if getItem_fails ft STORAGE_KEY_APP_MAPPINGS then ∅
                       else stored_mappings s) in
    if setItem_fails ft STORAGE_KEY_FOLDERS
    then (Throw (StorageError STORAGE_KEY_FOLDERS), s)
    else if setItem_fails ft STORAGE_KEY_APP_MAPPINGS
         then (Throw (StorageError STORAGE_KEY_APP_MAPPINGS),
               write_folders (Some folders) s)
         else (Ok tt, write_app_mappings (Some mappings)
                        (write_folders (Some folders) s)).
Proof.
  unfold moveAppToFolder.
  unfold try_catch at 1. unfold mbind at 1. unfold M_bind at 1. unfold bind at 1.
  rewrite loadFolders_total.
  unfold mbind at 1. unfold M_bind at 1. unfold bind at 1.
  assert (loadApplicationMappings ft s
          = (Ok (if getItem_fails ft STORAGE_KEY_APP_MAPPINGS then ∅
                 else stored_mappings s), s)) as ->.
  { unfold_store. by destruct (getItem_fails ft STORAGE_KEY_APP_MAPPINGS). }
  unfold_store. cbn zeta.
  destruct (setItem_fails ft STORAGE_KEY_FOLDERS); [done|].
  by destruct (setItem_fails ft STORAGE_KEY_APP_MAPPINGS).
Qed.

Lemma createFolder_unfold ft clock s name color icon :
  createFolder ft clock name color icon s
  = let newFolder :=
      Folder.mk (new_folder_id clock) name color icon []
                (Z.of_nat (length (loaded_folders ft clock s)))
                (toISOString clock) None in
    if setItem_fails ft STORAGE_KEY_FOLDERS
    then (Throw (StorageError STORAGE_KEY_FOLDERS), s)
    else (Ok newFolder,
          write_folders (Some (loaded_folders ft clock s ++ [newFolder])%list) s).
Proof.
  unfold createFolder.
  unfold try_catch at 1. unfold mbind at 1. unfold M_bind at 1. unfold bind at 1.
  rewrite loadFolders_total. unfold_store. cbn zeta.
  by destruct (setItem_fails ft STORAGE_KEY_FOLDERS).
Qed.

Lemma reorderFolders_unfold ft clock s folderIds :
  reorderFolders ft clock folderIds s
  = let folders := sort_by_position
                     (foldl reposition (loaded_folders ft clock s)
                            (imap pair folderIds)) in
    if setItem_fails ft STORAGE_KEY_FOLDERS
    then (Throw (StorageError STORAGE_KEY_FOLDERS), s)
    else (Ok tt, write_folders (Some folders) s).
Proof.
  unfold reorderFolders.
  unfold try_catch at 1. unfold mbind at 1. unfold M_bind at 1. unfold bind at 1.
  rewrite loadFolders_total. unfold_store. cbn zeta.
  by destruct (setItem_fails ft STORAGE_KEY_FOLDERS).
Qed.

Lemma duplicate_free_loaded ft clock s :
  store_duplicate_free s → duplicate_free (loaded_folders ft clock s).
Proof.
  intros Hs. unfold loaded_folders.
  destruct (getItem_fails ft STORAGE_KEY_FOLDERS);
    [apply duplicate_free_defaults|apply Hs].
Qed.

Lemma store_duplicate_free_folders s fs :
  duplicate_free fs → store_duplicate_free (write_folders (Some fs) s).
Proof. by intros Hfs clock. Qed.

Lemma store_duplicate_free_mappings s m :
  store_duplicate_free s → store_duplicate_free (write_app_mappings m s).
Proof. intros Hs clock. apply (Hs clock). Qed.

Create HintDb dupfree.

#[local] Hint Resolve store_duplicate_free_folders store_duplicate_free_mappings
  moved_duplicate_free reordered_duplicate_free duplicate_free_loaded : dupfree.

Lemma exec_op_duplicate_free ft s step :
  store_duplicate_free s → store_duplicate_free (exec_op ft s step).
Proof.
  intros Hs. destruct step as [clock op]. unfold exec_op, run_op. cbn [fst snd].
  pose proof (duplicate_free_loaded ft clock s Hs) as Hl.
  destruct op as [a from to|name color icon|folderId|folderIds|applications].
  - rewrite moveAppToFolder_unfold. cbn zeta.
    destruct (setItem_fails ft STORAGE_KEY_FOLDERS); [done|].
    destruct (setItem_fails ft STORAGE_KEY_APP_MAPPINGS); cbn [snd];
      eauto with dupfree.
  - unfold mbind, M_bind, bind. rewrite createFolder_unfold. cbn zeta.
    destruct (setItem_fails ft STORAGE_KEY_FOLDERS); cbn [snd]; [done|].
    apply store_duplicate_free_folders, Forall_app. split; [done|].
    repeat constructor.
  - rewrite deleteFolder_unfold.
    destruct (list_find (has_id folderId) _) as [[d folder]|]; [|done].
    destruct (list_find (has_id "folder_other") _) as [[o other]|] eqn:Ho.
    + pose proof Ho as (Holook & _)%list_find_Some.
      pose proof (reassign_to_other_NoDup (Folder.applicationIds folder)
                    (Folder.applicationIds other)
                    (if getItem_fails ft STORAGE_KEY_APP_MAPPINGS then ∅
                     else stored_mappings s)
                    (duplicate_free_lookup _ _ _ Hl Holook)) as Hnd.
      destruct (reassign_to_other _ _) as [ids mappings]. cbn [fst] in Hnd.
      destruct (setItem_fails ft STORAGE_KEY_FOLDERS); [done|].
      destruct (setItem_fails ft STORAGE_KEY_APP_MAPPINGS); cbn [snd];
        eauto using deleted_duplicate_free with dupfree.
    + destruct (setItem_fails ft STORAGE_KEY_FOLDERS); [done|].
      destruct (setItem_fails ft STORAGE_KEY_APP_MAPPINGS); cbn [snd];
        try apply store_duplicate_free_mappings;
        by apply store_duplicate_free_folders, Forall_delete.
  - rewrite reorderFolders_unfold. cbn zeta.
    destruct (setItem_fails ft STORAGE_KEY_FOLDERS); cbn [snd]; eauto with dupfree.
  - unfold mbind at 1. unfold M_bind at 1. unfold bind at 1.
    rewrite loadFolders_total.
    unfold mbind, M_bind, bind. rewrite autoCategorizeNewApps_unfold. cbn zeta.
    cbn [snd fst].
    destruct (setItem_fails ft STORAGE_KEY_APP_MAPPINGS); [done|].
    destruct (setItem_fails ft STORAGE_KEY_FOLDERS);
      [by apply store_duplicate_free_mappings|].
    by apply store_duplicate_free_folders, categorized_duplicate_free.
Qed.

(** X19: Whatever the backend does, and whatever the arguments are, no sequence of
    [moveAppToFolder], [createFolder], [deleteFolder], [reorderFolders] and
    [autoCategorizeNewApps] makes a folder list an application id twice: if
    no stored folder has a repeated id in its [applicationIds], none has one
    after any of the operations, whether the operation returned or threw. *)
Theorem applicationIds_stay_duplicate_free ft steps s :
  store_duplicate_free s →
  Forall store_duplicate_free (trace_ops ft steps s).
Proof.
  revert s. induction steps as [|step steps IH]; intros s Hs; [constructor|].
  cbn [trace_ops].
  pose proof (exec_op_duplicate_free ft s step Hs).
  constructor; [done|]. by apply IH.
Qed.

Lemma applicationIds_stay_duplicate_free_witness :
  Forall store_duplicate_free (trace_ops writes_fail sample_session empty_storage)
  ∧ Forall store_duplicate_free (trace_ops no_faults sample_session empty_storage).
Proof.
  split; apply applicationIds_stay_duplicate_free;
    intros clock; apply duplicate_free_defaults.
Defined.

(** X17: [moveAppToFolder] is not atomic: when the folder record can be written
    and the mapping record cannot, the call throws after the folders have
    been changed, so the stored folders show the move and the stored mapping
    table does not. *)
Theorem moveAppToFolder_partial_write ft clock s appId fromFolderId toFolderId :
  getItem_fails ft STORAGE_KEY_FOLDERS = false →
  setItem_fails ft STORAGE_KEY_FOLDERS = false →
  setItem_fails ft STORAGE_KEY_APP_MAPPINGS = true →
  ∃ s',
    moveAppToFolder ft clock appId fromFolderId toFolderId s
    = (Throw (StorageError STORAGE_KEY_APP_MAPPINGS), s')
    ∧ launchmat_app_mappings s' = launchmat_app_mappings s
    ∧ launchmat_folders s'
      = launchmat_folders
          (moveAppToFolder no_faults clock appId fromFolderId toFolderId s).2.
Proof.
  intros Hg Hf Hm. rewrite moveAppToFolder_unfold, moveAppToFolder_ok.
  unfold loaded_folders. rewrite Hg, Hf, Hm. cbn zeta. by eexists.
Qed.

Lemma moveAppToFolder_partial_write_witness :
  ∃ s',
    moveAppToFolder mappings_write_fails sample_clock "app1" None "folder_games"
      empty_storage
    = (Throw (StorageError STORAGE_KEY_APP_MAPPINGS), s')
    ∧ launchmat_app_mappings s' = launchmat_app_mappings empty_storage
    ∧ launchmat_folders s'
      = launchmat_folders
          (moveAppToFolder no_faults sample_clock "app1" None "folder_games"
             empty_storage).2.
Proof.
  by apply (moveAppToFolder_partial_write mappings_write_fails sample_clock
              empty_storage "app1" None "folder_games").
Defined.

(** ** [reorderFolders] *)

Lemma insert_by_position_ascending f l :
  ascending l → ascending (insert_by_position f l).
Proof.
  unfold ascending. induction l as [|g l IH]; intros Hl; simpl.
  - repeat constructor.
  - apply StronglySorted_inv in Hl as [Hl Hg]. case_decide as Hlt.
    + constructor; [by apply IH|].
      rewrite insert_by_position_perm. constructor; [lia|done].
    + constructor; [by constructor|].
      constructor; [lia|].
      eapply Forall_impl; [exact Hg|]. simpl. intros; lia.
Qed.

Lemma sort_by_position_ascending l : ascending (sort_by_position l).
Proof.
  induction l as [|f l IH]; [constructor|].
  simpl. by apply insert_by_position_ascending.
Qed.

Lemma set_position_twice p q f :
  Folder.set_position p (Folder.set_position q f) = Folder.set_position p f.
Proof. done. Qed.

Lemma set_position_same f : Folder.set_position (Folder.position f) f = f.
Proof. by destruct f. Qed.

Lemma reposition_lookup fs entry n f' :
  reposition fs entry !! n = Some f' →
  ∃ f, fs !! n = Some f ∧ f' = Folder.set_position (Folder.position f') f.
Proof.
  unfold reposition. destruct (list_find _ fs) as [[i g]|] eqn:E; last first.
  { intros Hn. exists f'. by rewrite set_position_same. }
  apply list_find_Some in E as (Hi & _).
  destruct (decide (i = n)) as [->|Hne].
  - rewrite list_lookup_insert_eq by (by eapply lookup_lt_Some).
    intros [= <-]. by exists g.
  - rewrite list_lookup_insert_ne by done.
    intros Hn. exists f'. by rewrite set_position_same.
Qed.

(** The [forEach] of [reorderFolders] changes positions and nothing else. *)
Lemma repositions_lookup entries fs n f' :
  foldl reposition fs entries !! n = Some f' →
  ∃ f, fs !! n = Some f ∧ f' = Folder.set_position (Folder.position f') f.
Proof.
  revert fs. induction entries as [|e entries IH]; intros fs Hn.
  { exists f'. by rewrite set_position_same. }
  cbn [foldl] in Hn. apply IH in Hn as (f1 & Hf1 & ->).
  apply reposition_lookup in Hf1 as (f & Hf & ->).
  exists f. split; [done|]. by rewrite !set_position_twice.
Qed.

(** A folder whose id is not among the given ones is left as it is. *)
Lemma repositions_untouched entries fs n f :
  Forall (λ e : nat * string, e.2 ≠ Folder.id f) entries →
  fs !! n = Some f → foldl reposition fs entries !! n = Some f.
Proof.
  revert fs. induction entries as [|e entries IH]; intros fs Hall Hn; [done|].
  apply Forall_cons in Hall as [He Hall].
  cbn [foldl]. apply IH; [done|].
  unfold reposition. destruct (list_find _ fs) as [[i g]|] eqn:E; [|done].
  apply list_find_Some in E as (Hi & Hid & _).
  rewrite list_lookup_insert_ne; [done|].
  intros ->. unfold has_id in Hid. congruence.
Qed.

Lemma repositions_length entries fs :
  length (foldl reposition fs entries) = length fs.
Proof.
  transitivity (length (folder_ids (foldl reposition fs entries))).
  - unfold folder_ids. by rewrite length_fmap.
  - rewrite repositions_ids. unfold folder_ids. by rewrite length_fmap.
Qed.

(** X20: Whatever ids it is given, [reorderFolders] on a backend that answers
    stores the same folders in ascending order of position: every stored
    folder is a folder of the old list with at most its position changed, the
    count is the same, and a folder whose id is not among the given ids is
    stored unchanged (an id that names no folder is skipped). *)
Theorem reorderFolders_sorts clock s folderIds :
  ∃ folders',
    reorderFolders no_faults clock folderIds s
    = (Ok tt, write_folders (Some folders') s)
    ∧ ascending folders'
    ∧ length folders' = length (stored_folders clock s)
    ∧ folder_ids folders' ≡ₚ folder_ids (stored_folders clock s)
    ∧ memberships folders' ≡ₚ memberships (stored_folders clock s)
    ∧ (∀ f', f' ∈ folders' →
         ∃ f, f ∈ stored_folders clock s
              ∧ f' = Folder.set_position (Folder.position f') f)
    ∧ (∀ f, f ∈ stored_folders clock s → Folder.id f ∉ folderIds → f ∈ folders').
Proof.
  rewrite reorderFolders_ok. eexists. split; [reflexivity|].
  set (fs := stored_folders clock s).
  set (rs := foldl reposition fs (imap pair folderIds)).
  pose proof (sort_by_position_perm rs) as Hperm.
  split_and!.
  - apply sort_by_position_ascending.
  - rewrite Hperm. apply repositions_length.
  - transitivity (folder_ids rs); [unfold folder_ids; by rewrite Hperm|].
    unfold rs. by rewrite repositions_ids.
  - transitivity (memberships rs); [unfold memberships; by rewrite Hperm|].
    unfold rs. by rewrite repositions_memberships.
  - intros f' Hin. rewrite Hperm in Hin.
    apply list_elem_of_lookup_1 in Hin as (n & Hn).
    apply repositions_lookup in Hn as (f & Hf & Hf'). exists f.
    split; [by eapply list_elem_of_lookup_2|done].
  - intros f (n & Hn)%list_elem_of_lookup_1 Hid. rewrite Hperm.
    apply (list_elem_of_lookup_2 _ n). apply repositions_untouched; [|done].
    apply Forall_lookup. intros i [j x] Hi. rewrite list_lookup_imap in Hi.
    destruct (folderIds !! i) as [y|] eqn:Hy; [|done]. injection Hi as <- <-.
    simpl. intros ->. apply Hid. by eapply list_elem_of_lookup_2.
Qed.

Lemma seq_ascending a n : StronglySorted Z.le (Z.of_nat <$> seq a n).
Proof.
  revert a. induction n as [|n IH]; intros a; [constructor|].
  simpl. constructor; [apply IH|].
  rewrite Forall_fmap. apply Forall_forall. intros x Hx%elem_of_seq. simpl. lia.
Qed.

(** X21: When the stored folder ids are distinct and [reorderFolders] is given
    exactly these ids in some order, the folders are stored in the order
    given: the id list of the stored folders is the argument, the folder at
    index [k] has position [k], and nothing but positions has changed. *)
Theorem reorderFolders_requested_order clock s folderIds :
  NoDup (folder_ids (stored_folders clock s)) →
  folderIds ≡ₚ folder_ids (stored_folders clock s) →
  ∃ folders',
    reorderFolders no_faults clock folderIds s
    = (Ok tt, write_folders (Some folders') s)
    ∧ folder_ids folders' = folderIds
    ∧ Folder.position <$> folders' = Z.of_nat <$> seq 0 (length folderIds)
    ∧ (∀ f', f' ∈ folders' →
         ∃ f, f ∈ stored_folders clock s
              ∧ f' = Folder.set_position (Folder.position f') f).
Proof.
  intros Hnd Hperm. rewrite reorderFolders_ok.
  set (fs := stored_folders clock s) in *.
  set (rs := foldl reposition fs (imap pair folderIds)).
  pose proof (sort_by_position_ascending rs) as Hasc.
  pose proof (sort_by_position_perm rs) as Hp.
  set (folders' := sort_by_position rs) in *.
  exists folders'. split; [done|]. clearbody folders'.
  assert (∀ f', f' ∈ folders' →
            ∃ f, f ∈ fs ∧ f' = Folder.set_position (Folder.position f') f)
    as Hfrom.
  { intros f' Hin. rewrite Hp in Hin.
    apply list_elem_of_lookup_1 in Hin as (n & Hn).
    apply repositions_lookup in Hn as (f & Hf & Hf'). exists f.
    split; [by eapply list_elem_of_lookup_2|done]. }
  assert (length folderIds = length fs) as Hlenids
    by (rewrite Hperm; unfold folder_ids; by rewrite length_fmap).
  assert (length rs = length fs) as Hlenrs by apply repositions_length.
  assert (length folders' = length fs) as Hlen by (by rewrite Hp).
  assert (Folder.position <$> folders' = Z.of_nat <$> seq 0 (length folderIds))
    as Hpos.
  { apply (StronglySorted_unique Z.le).
    - by apply (StronglySorted_fmap _ (λ f g, Folder.position f ≤ Folder.position g)).
    - apply seq_ascending.
    - rewrite Hp, Hlenids, <- Hlenrs. by apply repositions_dense. }
  split_and!; [|done|done].
  assert (NoDup folderIds) as Hndi by by rewrite Hperm.
  pose proof (repositions_spec (λ i, i) folderIds fs Hnd Hndi) as Hspec.
  change (imap (λ i x, (i, x)) folderIds) with (imap pair folderIds) in Hspec.
  assert (∀ x, x ∈ folderIds → x ∈ folder_ids fs) as Hsub
    by (intros x; by rewrite Hperm).
  specialize (Hspec Hsub).
  apply list_eq. intros k. unfold folder_ids. rewrite list_lookup_fmap.
  destruct (folders' !! k) as [f'|] eqn:Hk; simpl.
  - assert (Folder.position f' = Z.of_nat k) as Hposk.
    { assert ((Folder.position <$> folders') !! k = Some (Folder.position f')) as Hl
        by by rewrite list_lookup_fmap, Hk.
      rewrite Hpos, list_lookup_fmap in Hl.
      destruct (seq 0 (length folderIds) !! k) as [m|] eqn:Hm; [|done].
      apply lookup_seq in Hm as [-> _]. by injection Hl as <-. }
    assert (f' ∈ rs) as (m & Hm)%list_elem_of_lookup_1
      by (rewrite <- Hp; by eapply list_elem_of_lookup_2).
    apply Hspec in Hm as (f & Hf & Hid & [(i & Hi & Hposi)|[Hnot _]]).
    + rewrite Hid. assert (i = k) as -> by lia. done.
    + exfalso. apply Hnot. rewrite Hperm. apply list_elem_of_fmap. exists f.
      split; [done|]. by eapply list_elem_of_lookup_2.
  - symmetry. apply lookup_ge_None. apply lookup_ge_None in Hk. lia.
Qed.

Lemma reorderFolders_requested_order_witness :
  ∃ folders',
    reorderFolders no_faults sample_clock
      [ "folder_other"; "folder_games"; "folder_productivity";
        "folder_development"; "folder_graphics"; "folder_entertainment";
        "folder_utilities"; "folder_communication" ] empty_storage
    = (Ok tt, write_folders (Some folders') empty_storage)
    ∧ folder_ids folders'
      = [ "folder_other"; "folder_games"; "folder_productivity";
          "folder_development"; "folder_graphics"; "folder_entertainment";
          "folder_utilities"; "folder_communication" ].
Proof.
  edestruct (reorderFolders_requested_order sample_clock empty_storage
               [ "folder_other"; "folder_games"; "folder_productivity";
                 "folder_development"; "folder_graphics"; "folder_entertainment";
                 "folder_utilities"; "folder_communication" ])
    as (folders' & Hrun & Hids & _).
  - compute_decision.
  - compute_decision.
  - by exists folders'.
Defined.

(** ** [autoCategorizeNewApps]: what it adds and what it leaves *)

Lemma getCategoryForApp_found app fs :
  is_Some (list_find (has_id "folder_other") fs) →
  is_Some (list_find (has_id (getCategoryForApp app fs)) fs).
Proof.
  intros Hother. unfold getCategoryForApp.
  destruct (list_find (has_id (default "folder_other" _)) fs) as [[j f]|] eqn:E.
  - by rewrite E.
  - done.
Qed.

Lemma filed_grows um fs fs' a : grows fs fs' → filed um fs a → filed um fs' a.
Proof.
  intros Hg Hf v Hv. destruct (Hf v Hv) as (j & f & Hfind & Hin).
  destruct (grows_find_Some _ _ _ _ _ Hg Hfind) as (g & Hg' & Hsub).
  exists j, g. split; [done|]. by apply Hsub.
Qed.

Lemma categorize_step_frame fs um app :
  let st := categorize_step (fs, um) app in
  (∀ k, k ≠ App.id app → st.2 !! k = um !! k)
  ∧ (∀ a, filed um fs a → filed st.2 st.1 a)
  ∧ (∀ k f f', fs !! k = Some f → st.1 !! k = Some f' →
       ∀ a, a ∈ Folder.applicationIds f' →
            a ∈ Folder.applicationIds f ∨ a = App.id app)
  ∧ (App.id app ≠ "__proto__" → covered um fs → covered st.2 st.1)
  ∧ (App.id app ≠ "__proto__" →
     is_Some (list_find (has_id "folder_other") fs) → covered um fs →
     is_Some (st.2 !! App.id app)).
Proof.
  pose proof (categorize_step_grows fs um app) as Hgrows.
  pose proof (getCategoryForApp_found app fs) as Hfound.
  revert Hgrows Hfound. unfold categorize_step. cbn zeta.
  destruct (list_find (has_id (getCategoryForApp app fs)) fs)
    as [[j tf]|] eqn:E; intros Hgrows Hfound; last first.
  { split_and!; [done|done| |done|].
    - intros k f f' Hf Hf'. cbn [fst] in Hf'. simplify_eq. by left.
    - intros _ Hother _. destruct (Hfound Hother) as [? ?]. done. }
  pose proof E as (Hj & _)%list_find_Some.
  case_decide as Hin.
  { split_and!; [done|done| |done|].
    - intros k f f' Hf Hf'. cbn [fst] in Hf'. simplify_eq. by left.
    - intros _ _ Hc. cbn [snd].
      apply (Hc tf); [by eapply list_elem_of_lookup_2|done]. }
  cbn [fst snd] in *. split_and!.
  - intros k Hk. by apply assign_lookup_ne.
  - intros a Ha v Hv.
    destruct (decide (a = App.id app ∧ assignable (App.id app) um))
      as [[-> Hok]|Hno].
    + rewrite assign_lookup_eq in Hv by done. injection Hv as <-.
      destruct (grows_find_Some _ _ _ _ _ Hgrows E) as (g & Hg & _).
      exists j, g. split; [done|].
      apply list_find_Some in Hg as (Hgj & _).
      rewrite list_lookup_insert_eq in Hgj by (by eapply lookup_lt_Some).
      injection Hgj as <-. simpl. set_solver.
    + apply (filed_grows um fs _ a Hgrows Ha).
      destruct (decide (a = App.id app)) as [->|Hne].
      * rewrite assign_refused in Hv; [done|tauto].
      * by rewrite assign_lookup_ne in Hv.
  - intros k f f' Hf Hf' a Ha. destruct (decide (j = k)) as [->|Hne].
    + rewrite list_lookup_insert_eq in Hf' by (by eapply lookup_lt_Some).
      simplify_eq. simpl in Ha. set_solver.
    + rewrite list_lookup_insert_ne in Hf' by done. simplify_eq. by left.
  - intros Hid Hc f a Hf Ha.
    destruct (decide (a = App.id app)) as [->|Hne].
    { rewrite assign_lookup_eq; [done|by left]. }
    rewrite assign_lookup_ne by done.
    apply list_elem_of_lookup_1 in Hf as (k & Hk).
    destruct (decide (j = k)) as [->|Hjk].
    + rewrite list_lookup_insert_eq in Hk by (by eapply lookup_lt_Some).
      simplify_eq. simpl in Ha.
      apply (Hc tf); [by eapply list_elem_of_lookup_2|set_solver].
    + rewrite list_lookup_insert_ne in Hk by done.
      apply (Hc f); [by eapply list_elem_of_lookup_2|done].
  - intros Hid _ _. rewrite assign_lookup_eq; [done|by left].
Qed.

Lemma grows_other fs fs' :
  grows fs fs' →
  is_Some (list_find (has_id "folder_other") fs) →
  is_Some (list_find (has_id "folder_other") fs').
Proof.
  intros Hg [[j f] Hf].
  destruct (grows_find_Some _ _ _ _ _ Hg Hf) as (g & -> & _). done.
Qed.

Lemma categorize_loop_frame apps fs um :
  let st := foldl categorize_step (fs, um) apps in
  (∀ k, k ∉ App.id <$> apps → st.2 !! k = um !! k)
  ∧ (∀ a, filed um fs a → filed st.2 st.1 a)
  ∧ (∀ k f f', fs !! k = Some f → st.1 !! k = Some f' →
       ∀ a, a ∈ Folder.applicationIds f' →
            a ∈ Folder.applicationIds f ∨ a ∈ App.id <$> apps)
  ∧ ("__proto__" ∉ App.id <$> apps → covered um fs → covered st.2 st.1)
  ∧ ("__proto__" ∉ App.id <$> apps →
     is_Some (list_find (has_id "folder_other") fs) → covered um fs →
     ∀ app, app ∈ apps → is_Some (st.2 !! App.id app)).
Proof.
  revert fs um. induction apps as [|app apps IH]; intros fs um; cbn [foldl].
  { split_and!; [done|done| |done|].
    - intros k f f' Hf Hf'. cbn [fst] in Hf'. simplify_eq. by left.
    - intros _ _ _ app Ha. by apply elem_of_nil in Ha. }
  destruct (categorize_step_frame fs um app) as (S1 & S2 & S3 & S4 & S5).
  pose proof (categorize_step_grows fs um app) as Hg.
  destruct (categorize_step (fs, um) app) as [fs1 um1]. cbn [fst snd] in *.
  destruct (IH fs1 um1) as (L1 & L2 & L3 & L4 & L5).
  destruct (categorize_loop apps fs1 um1) as (_ & Hg1 & Hkeys).
  set (st := foldl categorize_step (fs1, um1) apps) in *.
  split_and!.
  - intros k Hk. rewrite fmap_cons, not_elem_of_cons in Hk. destruct Hk as [Hk1 Hk2].
    by rewrite L1, S1.
  - intros a Ha. by apply L2, S2.
  - intros k f f' Hf Hf' a Ha.
    destruct (Forall2_lookup_l _ _ _ _ _ Hg Hf) as (f1 & Hf1 & _).
    destruct (L3 k f1 f' Hf1 Hf' a Ha) as [Ha1|Ha1].
    + destruct (S3 k f f1 Hf Hf1 a Ha1) as [?| ->]; [by left|].
      right. rewrite fmap_cons. by left.
    + right. rewrite fmap_cons. by right.
  - intros Hp Hc. rewrite fmap_cons, not_elem_of_cons in Hp.
    destruct Hp as [Hp1 Hp2]. apply L4; [done|]. by apply S4.
  - intros Hp Hother Hc a Ha. rewrite fmap_cons, not_elem_of_cons in Hp.
    destruct Hp as [Hp1 Hp2]. apply elem_of_cons in Ha as [->|Ha].
    + by apply Hkeys, S5.
    + apply L5; [done|by eapply grows_other|by apply S4|done].
Qed.

Lemma uncategorizedApps_spec mappings applications app :
  app ∈ uncategorizedApps mappings applications
  ↔ app ∈ applications ∧ mappings !! App.id app = None.
Proof. unfold uncategorizedApps. rewrite list_elem_of_filter. tauto. Qed.

Lemma uncategorized_ids mappings applications k :
  k ∈ App.id <$> uncategorizedApps mappings applications →
  k ∈ App.id <$> applications ∧ mappings !! k = None.
Proof.
  intros (app & -> & [Hin Hnone]%uncategorizedApps_spec)%list_elem_of_fmap.
  split; [|done]. apply list_elem_of_fmap. by exists app.
Qed.

(** X22: [autoCategorizeNewApps] on a backend that answers only adds: a mapping
    entry that exists keeps its value; a new entry is for an application of
    the given list and names a folder that the returned list has and that
    holds the application; the folders keep their ids, order and application
    ids, and an id added to a folder is the id of a given application that had
    no mapping entry. *)
Theorem autoCategorizeNewApps_only_adds applications existingFolders s :
  ∃ folders s',
    autoCategorizeNewApps no_faults applications existingFolders s = (Ok folders, s')
    ∧ launchmat_folders s' = Some folders
    ∧ (∀ a v, stored_mappings s !! a = Some v → stored_mappings s' !! a = Some v)
    ∧ (∀ a, stored_mappings s !! a = None →
            is_Some (stored_mappings s' !! a) → a ∈ App.id <$> applications)
    ∧ (∀ a, stored_mappings s !! a = None → filed (stored_mappings s') folders a)
    ∧ grows existingFolders folders
    ∧ (∀ k f f', existingFolders !! k = Some f → folders !! k = Some f' →
         ∀ a, a ∈ Folder.applicationIds f' →
              a ∈ Folder.applicationIds f
              ∨ (a ∈ App.id <$> applications ∧ stored_mappings s !! a = None)).
Proof.
  rewrite autoCategorizeNewApps_ok. cbn zeta.
  set (m := stored_mappings s).
  destruct (categorize_loop_frame (uncategorizedApps m applications)
              existingFolders m) as (L1 & L2 & L3 & _ & _).
  destruct (categorize_loop (uncategorizedApps m applications) existingFolders m)
    as (_ & Hg & _).
  set (st := foldl categorize_step _ _) in *.
  exists st.1, (write_folders (Some st.1) (write_app_mappings (Some st.2) s)).
  change (stored_mappings (write_folders _ (write_app_mappings (Some st.2) s)))
    with st.2.
  split_and!; [done|done| | | |done|].
  - intros a v Ha. rewrite L1; [done|].
    intros [_ Hnone]%uncategorized_ids. congruence.
  - intros a Ha Hsome. destruct (decide (a ∈ App.id <$> applications)); [done|].
    rewrite L1, Ha in Hsome; [by destruct Hsome|].
    by intros [? _]%uncategorized_ids.
  - intros a Ha. apply L2. intros v Hv. congruence.
  - intros k f f' Hf Hf' a Ha.
    destruct (L3 k f f' Hf Hf' a Ha) as [?|?%uncategorized_ids]; [by left|by right].
Qed.

(** X23: When the folder list has the catch-all folder, every application id
    held by a folder has a mapping entry and no given application has the id
    "__proto__" (for which the mapping table records nothing),
    [autoCategorizeNewApps] on a backend that answers leaves no given
    application without a mapping entry; for an application that had none,
    the entry names a folder of the returned list that holds the
    application. *)
Theorem autoCategorizeNewApps_complete applications existingFolders s :
  is_Some (list_find (has_id "folder_other") existingFolders) →
  covered (stored_mappings s) existingFolders →
  "__proto__" ∉ App.id <$> applications →
  ∃ folders s',
    autoCategorizeNewApps no_faults applications existingFolders s = (Ok folders, s')
    ∧ ∀ app, app ∈ applications →
        ∃ v, stored_mappings s' !! App.id app = Some v
             ∧ (stored_mappings s !! App.id app = None →
                ∃ j f, list_find (has_id v) folders = Some (j, f)
                       ∧ App.id app ∈ Folder.applicationIds f).
Proof.
  intros Hother Hc Hproto. rewrite autoCategorizeNewApps_ok. cbn zeta.
  set (m := stored_mappings s) in *.
  destruct (categorize_loop_frame (uncategorizedApps m applications)
              existingFolders m) as (L1 & L2 & _ & _ & L5).
  assert ("__proto__" ∉ App.id <$> uncategorizedApps m applications) as Hp
    by (by intros [? _]%uncategorized_ids).
  set (st := foldl categorize_step _ _) in *.
  exists st.1, (write_folders (Some st.1) (write_app_mappings (Some st.2) s)).
  change (stored_mappings (write_folders _ (write_app_mappings (Some st.2) s)))
    with st.2.
  split; [done|]. intros app Happ.
  destruct (m !! App.id app) as [v|] eqn:Hm.
  - exists v. split; [|done]. rewrite L1; [done|].
    intros [_ Hnone]%uncategorized_ids. congruence.
  - destruct (L5 Hp Hother Hc app) as [v Hv]; [by apply uncategorizedApps_spec|].
    exists v. split; [done|]. intros _. apply (L2 (App.id app)); [|done].
    intros w Hw. congruence.
Qed.

Lemma autoCategorizeNewApps_complete_witness :
  ∃ folders s',
    autoCategorizeNewApps no_faults [sample_app]
      (createDefaultFolders sample_clock) empty_storage = (Ok folders, s')
    ∧ ∀ app, app ∈ [sample_app] →
        ∃ v, stored_mappings s' !! App.id app = Some v
             ∧ (stored_mappings empty_storage !! App.id app = None →
                ∃ j f, list_find (has_id v) folders = Some (j, f)
                       ∧ App.id app ∈ Folder.applicationIds f).
Proof.
  apply (autoCategorizeNewApps_complete [sample_app]
           (createDefaultFolders sample_clock) empty_storage).
  - eexists. by vm_compute.
  - intros f a Hf Ha.
    assert (Forall (λ f, Folder.applicationIds f = [])
              (createDefaultFolders sample_clock)) as Hall by compute_decision.
    rewrite Forall_forall in Hall. rewrite (Hall f Hf) in Ha.
    by apply elem_of_nil in Ha.
  - compute_decision.
Defined.

(** ** The quick-add command: the local state against the store *)

Lemma found_index_NoDup fs k f x :
  NoDup (folder_ids fs) → fs !! k = Some f →
  found_index x fs = Some k ↔ Folder.id f = x.
Proof.
  intros Hnd Hk. split.
  - intros (g & Hfind & Hg)%found_index_Some.
    apply list_find_Some in Hfind as (_ & Hid & _). by simplify_eq.
  - intros Hid.
    destruct (list_find (has_id x) fs) as [[j g]|] eqn:E.
    + unfold found_index. rewrite E. simpl. f_equal.
      apply list_find_Some in E as (Hj & Hidg & _).
      eapply NoDup_lookup_ids; [done..|]. unfold has_id in Hidg. congruence.
    + apply list_find_None in E. rewrite Forall_forall in E.
      destruct (E f); [by eapply list_elem_of_lookup_2|done].
Qed.

Lemma set_applicationIds_same f :
  Folder.set_applicationIds (Folder.applicationIds f) f = f.
Proof. by destruct f. Qed.

Lemma patch_folders_moved a target current fs :
  NoDup (folder_ids fs) → current ≠ Some target → current ≠ Some "" →
  QuickAdd.patch_folder a target current <$> fs
  = add_to_folder a target (remove_from_folder a current fs).
Proof.
  intros Hnd Hne Hempty. apply list_eq. intros k.
  rewrite moved_lookup, list_lookup_fmap.
  destruct (fs !! k) as [f|] eqn:Hk; [|done]. simpl. f_equal.
  pose proof (found_index_NoDup fs k f target Hnd Hk) as Htarget.
  assert (source_index current fs = Some k ↔ Some (Folder.id f) = current) as Hsrc.
  { unfold source_index, truthy. destruct current as [c|]; [|done].
    case_decide as Hc; [congruence|]. simpl.
    rewrite (found_index_NoDup fs k f c Hnd Hk). split; congruence. }
  unfold QuickAdd.patch_folder.
  destruct (decide (Folder.id f = target)) as [Hid|Hid].
  - rewrite (decide_True (P := found_index target fs = Some k)) by by apply Htarget.
    rewrite (decide_False (P := source_index current fs = Some k)); last first.
    { rewrite Hsrc. congruence. }
    unfold with_app, push_unique.
    destruct (decide (a ∈ Folder.applicationIds f)) as [Hin|Hin].
    + rewrite decide_False by tauto.
      rewrite decide_False by congruence. by rewrite set_applicationIds_same.
    + by rewrite decide_True.
  - rewrite (decide_False (P := found_index target fs = Some k)); last first.
    { rewrite Htarget. done. }
    rewrite decide_False by tauto.
    destruct (decide (Some (Folder.id f) = current)) as [Hc|Hc].
    + by rewrite decide_True by by apply Hsrc.
    + by rewrite decide_False by by rewrite Hsrc.
Qed.

Lemma QuickAdd_moveAppToFolder_ok clock app target st s :
  QuickAdd.moveAppToFolder no_faults clock app target st s
  = (Ok (QuickAdd.patch_state (App.id app) target
           (QuickAdd.mappings st !! App.id app) st),
     (moveAppToFolder no_faults clock (App.id app)
        (QuickAdd.mappings st !! App.id app) target s).2).
Proof.
  unfold QuickAdd.moveAppToFolder.
  unfold try_catch, mbind, M_bind, bind. by rewrite moveAppToFolder_ok.
Qed.

(** X24: The quick-add handler keeps its local state equal to the store: when the
    local folders and mappings are the stored ones, the folder ids are
    distinct, the application id is one the store's mapping table records
    (any id but "__proto__", or one the table has an entry for: the local
    copy is built with a computed key and records every id), and the
    application is moved to a folder other than the one its mapping names (a
    mapping to the empty id apart), then after the handler has run on a
    backend that answers the local folders and mappings are again the stored
    ones. *)
Theorem quick_add_move_in_sync clock s app targetFolderId st :
  QuickAdd.folders st = stored_folders clock s →
  QuickAdd.mappings st = stored_mappings s →
  NoDup (folder_ids (QuickAdd.folders st)) →
  assignable (App.id app) (QuickAdd.mappings st) →
  QuickAdd.mappings st !! App.id app ≠ Some targetFolderId →
  QuickAdd.mappings st !! App.id app ≠ Some "" →
  ∃ st' s',
    QuickAdd.moveAppToFolder no_faults clock app targetFolderId st s = (Ok st', s')
    ∧ QuickAdd.folders st' = stored_folders clock s'
    ∧ QuickAdd.mappings st' = stored_mappings s'.
Proof.
  intros Hfs Hm Hnd Hok Hne Hempty.
  rewrite QuickAdd_moveAppToFolder_ok, moveAppToFolder_ok.
  eexists _, _. split; [reflexivity|]. cbn [snd].
  change (stored_folders clock (write_app_mappings _ (write_folders (Some ?l) _)))
    with l.
  change (stored_mappings (write_app_mappings (Some ?m) _)) with m.
  unfold QuickAdd.patch_state. cbn [QuickAdd.folders QuickAdd.mappings].
  split.
  - rewrite patch_folders_moved by done. by rewrite Hfs.
  - unfold assign. rewrite <- Hm. by rewrite decide_True.
Qed.

Lemma quick_add_move_in_sync_witness :
  ∃ st' s',
    QuickAdd.moveAppToFolder no_faults sample_clock sample_app "folder_games"
      (QuickAdd.mk [sample_app]
         (stored_folders sample_clock store_with_app_in_development)
         (stored_mappings store_with_app_in_development) false)
      store_with_app_in_development = (Ok st', s')
    ∧ QuickAdd.folders st' = stored_folders sample_clock s'
    ∧ QuickAdd.mappings st' = stored_mappings s'.
Proof.
  apply (quick_add_move_in_sync sample_clock store_with_app_in_development
           sample_app "folder_games"
           (QuickAdd.mk [sample_app]
              (stored_folders sample_clock store_with_app_in_development)
              (stored_mappings store_with_app_in_development) false)).
  - done.
  - done.
  - compute_decision.
  - by left.
  - compute_decision.
  - compute_decision.
Defined.

(** X25: Moving an application to the folder it is in already makes the local
    state differ from the store: when the mapping of the application names
    the target folder and that folder holds the application, the stored
    folder still holds it after the handler has run, and the folder of the
    local state does not. *)
Theorem quick_add_move_to_current_folder clock s app targetFolderId st k f :
  QuickAdd.folders st = stored_folders clock s →
  QuickAdd.mappings st !! App.id app = Some targetFolderId →
  list_find (has_id targetFolderId) (QuickAdd.folders st) = Some (k, f) →
  App.id app ∈ Folder.applicationIds f →
  ∃ st' s' shown stored,
    QuickAdd.moveAppToFolder no_faults clock app targetFolderId st s = (Ok st', s')
    ∧ QuickAdd.folders st' !! k = Some shown
    ∧ (App.id app ∉ Folder.applicationIds shown)
    ∧ stored_folders clock s' !! k = Some stored
    ∧ App.id app ∈ Folder.applicationIds stored
    ∧ QuickAdd.mappings st' !! App.id app = Some targetFolderId.
Proof.
  intros Hfs Hm Hfind Hin.
  rewrite QuickAdd_moveAppToFolder_ok, moveAppToFolder_ok. cbn [snd].
  pose proof Hfind as (Hk & Hid & _)%list_find_Some.
  set (a := App.id app) in *.
  exists (QuickAdd.patch_state a targetFolderId (QuickAdd.mappings st !! a) st).
  eexists.
  exists (QuickAdd.patch_folder a targetFolderId (Some targetFolderId) f).
  exists (with_app a (if decide (source_index (Some targetFolderId)
                                   (stored_folders clock s) = Some k)
                      then without_app a f else f)).
  split; [reflexivity|].
  change (stored_folders clock (write_app_mappings _ (write_folders (Some ?l) _)))
    with l.
  unfold QuickAdd.patch_state. cbn [QuickAdd.folders QuickAdd.mappings].
  split_and!.
  - by rewrite list_lookup_fmap, Hk, Hm.
  - unfold QuickAdd.patch_folder.
    rewrite decide_False by tauto.
    rewrite decide_True by (unfold has_id in Hid; congruence).
    simpl. rewrite list_elem_of_filter. tauto.
  - rewrite moved_lookup, <- Hfs, Hk, Hm. simpl.
    rewrite (decide_True (P := found_index targetFolderId _ = Some k)); [done|].
    unfold found_index. by rewrite Hfind.
  - apply elem_of_with_app. by right.
  - by rewrite lookup_insert_eq.
Qed.

Lemma quick_add_move_to_current_folder_witness :
  ∃ st' s' shown stored,
    QuickAdd.moveAppToFolder no_faults sample_clock sample_app "folder_development"
      (QuickAdd.mk [sample_app]
         (stored_folders sample_clock store_with_app_in_development)
         (stored_mappings store_with_app_in_development) false)
      store_with_app_in_development = (Ok st', s')
    ∧ QuickAdd.folders st' !! 1%nat = Some shown
    ∧ (App.id sample_app ∉ Folder.applicationIds shown)
    ∧ stored_folders sample_clock s' !! 1%nat = Some stored
    ∧ App.id sample_app ∈ Folder.applicationIds stored
    ∧ QuickAdd.mappings st' !! App.id sample_app = Some "folder_development".
Proof.
  eapply (quick_add_move_to_current_folder sample_clock
            store_with_app_in_development sample_app "folder_development"
            (QuickAdd.mk [sample_app]
               (stored_folders sample_clock store_with_app_in_development)
               (stored_mappings store_with_app_in_development) false)).
  - done.
  - by vm_compute.
  - by vm_compute.
  - compute_decision.
Defined.

(** ** The Launchmat command *)

(** X26: [createNewFolder] never reads the store: on a backend that answers the
    stored folders after it are the folders it showed followed by the new
    folder, whatever was stored.  When the folders shown are the stored ones
    it stores what [createFolder] stores for the same name, color and icon;
    a stored folder that is not shown is lost. *)
Theorem createNewFolder_stores_view clock st s :
  ∃ st' s' newFolder,
    Launchmat.createNewFolder no_faults clock st s = (Ok st', s')
    ∧ stored_folders clock s' = (Launchmat.folders st ++ [newFolder])%list
    ∧ Launchmat.folders st' = stored_folders clock s'
    ∧ (Launchmat.folders st = stored_folders clock s →
       createFolder no_faults clock "New Folder" "#007AFF" "folder" s
       = (Ok newFolder, s'))
    ∧ (∀ f, f ∈ stored_folders clock s → f ∉ Launchmat.folders st →
            f ≠ newFolder → f ∉ stored_folders clock s').
Proof.
  unfold Launchmat.createNewFolder. cbn zeta.
  unfold mbind, M_bind, bind. rewrite saveFolders_ok.
  eexists _, _, _. split; [reflexivity|].
  change (stored_folders clock (write_folders (Some ?l) _)) with l.
  split_and!; [done|done| |].
  - intros Hfs. rewrite createFolder_ok. cbn zeta. by rewrite <- Hfs.
  - intros f _ Hnot Hne [?|Hin%list_elem_of_singleton]%elem_of_app; done.
Qed.

(** X27: [initializeLaunchmat] returns on every backend: it shows the scanned
    applications and the folders that [loadFolders] gave (the defaults when
    the read fails), each grown by the applications filed now; when both
    records can be written the folders shown are the folders stored, and when
    the mapping record cannot be written nothing is stored at all. *)
Theorem initializeLaunchmat_shows host sort_by_name userApplicationsPath
    ft clock st s :
  ∃ st' s',
    Launchmat.initializeLaunchmat host sort_by_name userApplicationsPath
      ft clock st s = (Ok st', s')
    ∧ Launchmat.applications st'
      = scanApplications host clock sort_by_name userApplicationsPath
    ∧ Launchmat.isLoading st' = false
    ∧ grows (loaded_folders ft clock s) (Launchmat.folders st')
    ∧ (∀ app, app ∈ Launchmat.applications st' →
              (if getItem_fails ft STORAGE_KEY_APP_MAPPINGS then ∅
               else stored_mappings s) !! App.id app = None →
              placed app (Launchmat.folders st'))
    ∧ (setItem_fails ft STORAGE_KEY_APP_MAPPINGS = false →
       setItem_fails ft STORAGE_KEY_FOLDERS = false →
       launchmat_folders s' = Some (Launchmat.folders st'))
    ∧ (setItem_fails ft STORAGE_KEY_APP_MAPPINGS = true → s' = s).
Proof.
  unfold Launchmat.initializeLaunchmat.
  unfold try_catch at 1. unfold mbind at 1. unfold M_bind at 1. unfold bind at 1.
  rewrite loadFolders_total. cbn zeta.
  unfold mbind, M_bind, bind. rewrite autoCategorizeNewApps_unfold. cbn zeta.
  set (apps := scanApplications host clock sort_by_name userApplicationsPath).
  set (m := if getItem_fails ft STORAGE_KEY_APP_MAPPINGS then ∅
            else stored_mappings s).
  destruct (categorize_loop (uncategorizedApps m apps) (loaded_folders ft clock s) m)
    as (Hplaced & Hgrows & _).
  set (loop := foldl categorize_step _ _) in *.
  eexists _, _. split; [reflexivity|].
  cbn [Launchmat.applications Launchmat.folders Launchmat.isLoading].
  split_and!; [done|done|done| | |].
  - intros app Happ Hnone. apply Hplaced. by apply uncategorizedApps_spec.
  - by intros -> ->.
  - by intros ->.
Qed.

(** ** Pages *)

Lemma slice_page {A} (l : list A) (n p : nat) :
  (0 < n)%nat →
  slice l (Z.of_nat p * Z.of_nat n) ((Z.of_nat p + 1) * Z.of_nat n)
  = take n (drop (p * n) l).
Proof.
  intros Hn.
  replace (Z.of_nat p * Z.of_nat n) with (Z.of_nat (p * n)) by lia.
  replace ((Z.of_nat p + 1) * Z.of_nat n) with (Z.of_nat (p * n + n)) by lia.
  generalize (p * n)%nat. intros a.
  unfold slice. cbn zeta. rewrite !decide_False by lia.
  destruct (decide (a ≤ length l)%nat) as [Hle|Hgt].
  - replace (Z.to_nat (Z.of_nat a `min` Z.of_nat (length l))) with a by lia.
    destruct (decide (a + n ≤ length l)%nat).
    + f_equal. lia.
    + rewrite !take_ge; [done|rewrite length_drop; lia|rewrite length_drop; lia].
  - rewrite !drop_ge by lia. by rewrite !take_nil.
Qed.

Lemma pages_join {A} (n m : nat) (l : list A) :
  (0 < n)%nat → (length l ≤ m * n)%nat →
  mjoin ((λ p, take n (drop (p * n) l)) <$> seq 0 m) = l.
Proof.
  intros Hn. revert l. induction m as [|m IH]; intros l Hlen.
  - destruct l; [done|simpl in Hlen; lia].
  - cbn [seq fmap list_fmap mjoin list_join]. rewrite drop_0.
    rewrite <- fmap_S_seq, <- list_fmap_compose.
    transitivity (take n l ++ drop n l)%list; [f_equal|apply take_drop].
    etrans; [|apply (IH (drop n l)); rewrite length_drop; lia].
    f_equal. apply list_fmap_ext. intros i p _. simpl.
    by rewrite drop_drop.
Qed.

(** X28: With a positive number of items per page (the default 28 when the
    preference is not a number or is zero), the pages [0 .. totalPages-1]
    shown one after the other are the content, each item once and in order;
    no page has more items than that number, and a page outside the range is
    empty. *)
Theorem pages_cover_content {A} (filteredContent : list A) (parsed : option Z) :
  0 < Launchmat.itemsPerPage parsed →
  let n := Launchmat.itemsPerPage parsed in
  let pages := Launchmat.totalPages filteredContent n in
  mjoin ((λ p, Launchmat.currentPageItems filteredContent n (Z.of_nat p))
           <$> seq 0 (Z.to_nat pages)) = filteredContent
  ∧ (∀ p, 0 ≤ p → Z.of_nat (length (Launchmat.currentPageItems filteredContent n p)) ≤ n)
  ∧ (∀ p, pages ≤ p → Launchmat.currentPageItems filteredContent n p = [])
  ∧ (filteredContent = [] ↔ pages = 0).
Proof.
  intros Hpos n pages. fold n in Hpos.
  assert (∃ k, n = Z.of_nat k ∧ (0 < k)%nat) as (k & Hk & Hk0).
  { exists (Z.to_nat n). lia. }
  assert (pages = - (- Z.of_nat (length filteredContent) / Z.of_nat k)) as Hpages.
  { unfold pages, Launchmat.totalPages, ceil_div. by rewrite Hk. }
  assert (0 ≤ pages ∧ Z.of_nat (length filteredContent) ≤ pages * Z.of_nat k
          ∧ (pages - 1) * Z.of_nat k < Z.of_nat (length filteredContent)
            ∨ (pages = 0 ∧ length filteredContent = 0%nat)) as Hbound.
  { rewrite Hpages. clear Hpages.
    generalize (Z.of_nat (length filteredContent)) (Nat2Z.is_nonneg (length filteredContent)).
    intros z Hz. Z.div_mod_to_equations. nia. }
  unfold Launchmat.currentPageItems. rewrite Hk. split_and!.
  - erewrite list_fmap_ext; last first.
    { intros i p _. by apply (slice_page filteredContent k p). }
    apply pages_join; [done|]. nia.
  - intros p Hp. replace p with (Z.of_nat (Z.to_nat p)) by lia.
    rewrite slice_page by done. rewrite length_take. lia.
  - intros p Hp. replace p with (Z.of_nat (Z.to_nat p)) by lia.
    rewrite slice_page by done. rewrite drop_ge; [by rewrite take_nil|]. nia.
  - split.
    + intros ->. rewrite Hpages. simpl. by rewrite Z.div_0_l by lia.
    + intros H0. destruct filteredContent; [done|]. simpl in Hbound. lia.
Qed.

Lemma pages_cover_content_witness :
  mjoin ((λ p, Launchmat.currentPageItems [1; 2; 3; 4; 5] 2 (Z.of_nat p))
           <$> seq 0 (Z.to_nat (Launchmat.totalPages [1; 2; 3; 4; 5] 2)))
  = [1; 2; 3; 4; 5].
Proof.
  apply (pages_cover_content [1; 2; 3; 4; 5] (Some 2)). done.
Defined.

(** X29: When there is at least one page and the current page is one of them,
    [nextPage] and [prevPage] stay among the pages, wrap around at the ends
    and undo each other. *)
Theorem page_navigation totalPages currentPage :
  0 < totalPages → 0 ≤ currentPage < totalPages →
  0 ≤ Launchmat.nextPage totalPages currentPage < totalPages
  ∧ 0 ≤ Launchmat.prevPage totalPages currentPage < totalPages
  ∧ Launchmat.nextPage totalPages (totalPages - 1) = 0
  ∧ Launchmat.prevPage totalPages 0 = totalPages - 1
  ∧ Launchmat.prevPage totalPages (Launchmat.nextPage totalPages currentPage)
    = currentPage
  ∧ Launchmat.nextPage totalPages (Launchmat.prevPage totalPages currentPage)
    = currentPage.
Proof.
  intros Ht Hc. unfold Launchmat.nextPage, Launchmat.prevPage.
  repeat case_decide; lia.
Qed.

Lemma page_navigation_witness :
  Launchmat.prevPage 3 (Launchmat.nextPage 3 2) = 2.
Proof. apply (page_navigation 3 2); lia. Defined.
